(** * Celebration-pack completion checker: the reconciliation engine

    A shallow embedding of [CelebrationPackChecker] from [script_api.py]:
    name normalisation, search-term generation, the ownership resolver, the
    driver loop with its per-item error boundary, and the report builder.

    Python strings are sequences of Unicode code points.  The three tables
    of the Unicode database the code consults ([str.isalnum], [str.isspace]
    and the full upper-case mapping) are the fields of the class
    [UnicodeData]; general results hold for every table, concrete examples
    are evaluated at [ascii_data].

    The marketplace client, the pause between two items and the clock are
    the fields of the class [Env] over a type of worlds.  A call may raise:
    an [Exception], or the [KeyboardInterrupt] of the operator, which comes
    while the driver waits, in a search or in the pause.  The module
    [Interruptible] has the driver with one more place for that signal,
    the print of an item, which is outside the [try] of the loop.  The
    checker object, the world and the printed lines make up the [machine]
    the code runs on.  Floats are binary64. *)

From Stdlib Require Import String Ascii.
From Stdlib Require Import List Bool Arith NArith ZArith Lia.
From Stdlib Require Import Permutation Sorted Floats Uint63.
Import ListNotations.
Local Open Scope list_scope.

Set Implicit Arguments.

(* ================================================================= *)
(** ** Strings *)

Definition char : Type := N.
Definition str : Type := list char.

(** A literal: the code points of an ASCII string. *)
Definition py (s : string) : str := map N_of_ascii (list_ascii_of_string s).

Definition dash : char := 45%N.
Definition underscore : char := 95%N.
Definition space : char := 32%N.

Class UnicodeData : Type := {
  isalnum : char -> bool;   (* Py_UNICODE_ISALNUM *)
  isspace : char -> bool;   (* Py_UNICODE_ISSPACE *)
  toupper : char -> str     (* full upper-case mapping of one code point *)
}.

(** The tables below code point 128, as CPython has them; every code point
    from 128 on is taken as a caseless symbol. *)
Definition between (lo hi c : N) : bool := ((lo <=? c) && (c <=? hi))%N.

Definition ascii_isalnum (c : char) : bool :=
  between 48 57 c || between 65 90 c || between 97 122 c.

Definition ascii_isspace (c : char) : bool :=
  between 9 13 c || between 28 32 c.

Definition ascii_toupper (c : char) : str :=
  if between 97 122 c then [(c - 32)%N] else [c].

Definition ascii_data : UnicodeData :=
  {| isalnum := ascii_isalnum; isspace := ascii_isspace; toupper := ascii_toupper |}.

(** The same tables with one more cased letter, as CPython has it: the
    small j with caron, U+01F0 (496), is alphanumeric and its upper case
    is J followed by the combining caron, U+030C (780), which is neither
    alphanumeric nor whitespace. *)
Definition caron_data : UnicodeData :=
  {| isalnum := fun c => (c =? 496)%N || ascii_isalnum c;
     isspace := ascii_isspace;
     toupper := fun c => if (c =? 496)%N then [74%N; 780%N] else ascii_toupper c |}.

Fixpoint str_eqb (a b : str) : bool :=
  match a, b with
  | [], [] => true
  | x :: a', y :: b' => (x =? y)%N && str_eqb a' b'
  | _, _ => false
  end.

(** [s.startswith(p)] *)
Fixpoint startswith (p s : str) : bool :=
  match p, s with
  | [], _ => true
  | x :: p', y :: s' => (x =? y)%N && startswith p' s'
  | _ :: _, [] => false
  end.

(** [sub in s] *)
Fixpoint contains (sub s : str) : bool :=
  startswith sub s ||
  match s with
  | [] => false
  | _ :: s' => contains sub s'
  end.

(** [sep.join(parts)] *)
Fixpoint join (sep : str) (parts : list str) : str :=
  match parts with
  | [] => []
  | [p] => p
  | p :: rest => p ++ sep ++ join sep rest
  end.

(** Membership in a [set] of strings and [a.issubset(b)]; a set is built
    from the list of its elements, duplicates are immaterial. *)
Definition mem (w : str) (ws : list str) : bool := existsb (str_eqb w) ws.
Definition issubset (a b : list str) : bool := forallb (fun w => mem w b) a.

Section Text.
Context {U : UnicodeData}.

(** The character class [[^\w\s-]]: [\w] is [isalnum] or the underscore. *)
Definition re_word (c : char) : bool := isalnum c || (c =? underscore)%N.
Definition re_special (c : char) : bool :=
  negb (re_word c || isspace c || (c =? dash)%N).

(** What the class leaves out: the word characters, the whitespace, the
    dash. *)
Definition kept (c : char) : bool :=
  isalnum c || (c =? underscore)%N || isspace c || (c =? dash)%N.

(** [re.sub(r'[^\w\s-]', repl, s)]: every match, one character long, is
    replaced, the other characters are copied. *)
Fixpoint re_sub_special (repl s : str) : str :=
  match s with
  | [] => []
  | c :: s' =>
      if re_special c then repl ++ re_sub_special repl s'
      else c :: re_sub_special repl s'
  end.

(** [re.search(r'[^\w\s-]', s)] as a truth value. *)
Definition re_search_special (s : str) : bool := existsb re_special s.

(** [s.upper()] *)
Definition upper (s : str) : str := flat_map toupper s.

(** [s.strip()] *)
Fixpoint lstrip (s : str) : str :=
  match s with
  | [] => []
  | c :: s' => if isspace c then lstrip s' else s
  end.
Definition rstrip (s : str) : str := rev (lstrip (rev s)).
Definition strip (s : str) : str := rstrip (lstrip s).

(** [s.split()]: the maximal runs of non-whitespace; [cur] holds the
    characters of the run being read, last one first. *)
Fixpoint split_from (cur s : str) : list str :=
  match s with
  | [] => match cur with [] => [] | _ => [rev cur] end
  | c :: s' =>
      if isspace c then
        match cur with
        | [] => split_from [] s'
        | _ => rev cur :: split_from [] s'
        end
      else split_from (c :: cur) s'
  end.
Definition split (s : str) : list str := split_from [] s.

(** *** Name Normalizer: [normalize_name] *)
Definition normalize_name (name : str) : str :=
  let normalized := re_sub_special [] name in
  strip (upper normalized).

(** *** Search Term Generator: [get_search_terms] *)
Definition get_search_terms (item_name : str) : list str :=
  let terms := [item_name] in
  let no_special := re_sub_special [] item_name in
  let terms := if str_eqb no_special item_name then terms
               else terms ++ [no_special] in
  if re_search_special item_name then
    let cleaned := re_sub_special [] item_name in
    let words := split cleaned in
    if 0 <? length words then
      let terms := terms ++ [last words []] in
      if 2 <=? length words then
        terms ++ [join (py " ") (skipn (length words - 2) words)]
      else terms
    else terms
  else terms.

End Text.

(* ================================================================= *)
(** ** Dictionaries, search results, the environment *)

(** A [dict] keeps its keys in insertion order; they are pairwise
    different ([distinct] below). *)
Definition dict (V : Type) : Type := list (str * V).

Fixpoint dict_get {V} (k : str) (d : dict V) : option V :=
  match d with
  | [] => None
  | (k', v) :: d' => if str_eqb k' k then Some v else dict_get k d'
  end.

(** [d[k] = v]: an existing key keeps its place. *)
Fixpoint dict_set {V} (k : str) (v : V) (d : dict V) : dict V :=
  match d with
  | [] => [(k, v)]
  | (k', v') :: d' =>
      if str_eqb k' k then (k', v) :: d' else (k', v') :: dict_set k v d'
  end.

(** [d[k].append(x)]; [None] stands for the [KeyError] of a missing key. *)
Fixpoint dict_append (k x : str) (d : dict (list str)) : option (dict (list str)) :=
  match d with
  | [] => None
  | (k', l) :: d' =>
      if str_eqb k' k then Some ((k', l ++ [x]) :: d')
      else option_map (cons (k', l)) (dict_append k x d')
  end.

Definition keys {V} (d : dict V) : list str := map fst d.
Definition values {V} (d : dict V) : list V := map snd d.

(** The keys of a dictionary are pairwise different. *)
Fixpoint distinct (ks : list str) : bool :=
  match ks with
  | [] => true
  | k :: ks' => negb (mem k ks') && distinct ks'
  end.

(** [sum(len(items) for items in d.values())] *)
Definition sum_len (d : dict (list str)) : nat :=
  fold_right (fun items acc => length items + acc) 0 (values d).

(** One entry of the list [R6MarketplaceAPI.search_item] returns. *)
Module Item.
Record t : Type := mk {
  id : str;
  name : str;
  type : str;
  tags : list str;
  is_owned : bool
}.
End Item.

(** The exceptions the checker tells apart: [KeyboardInterrupt] and the
    subclasses of [Exception]. *)
Inductive exn : Type := Exception | KeyboardInterrupt.

Inductive outcome (A : Type) : Type :=
| Ok (a : A)
| Raise (e : exn).
Arguments Ok {A} a.
Arguments Raise {A} e.

(** What the checker calls but does not define: the marketplace search
    (it may raise, the interrupt of the operator included), the pause
    between two items (it raises nothing but that interrupt: [true]) and
    the clock of the report. *)
Class Env (W : Type) : Type := {
  search_item : W -> str -> nat -> W * outcome (list Item.t);
  time_sleep : W -> W * bool;
  strftime : W -> str
}.

(** The lines the driver prints. *)
Inductive line : Type :=
| Banner (total_items : nat)
| Checking (checked total_items : nat) (item : str)
| SaysOwned
| SaysMissing
| SaysError
| SaysStopped.

(** The checker object together with what surrounds it. *)
Record machine (W : Type) : Type := mkMachine {
  world : W;
  stdout : list line;
  celebration_items : dict (list str);
  owned_items : dict (list str);
  missing_items : dict (list str)
}.

(** [CelebrationPackChecker.__init__] *)
Definition init {W} (w : W) : machine W :=
  {| world := w; stdout := []; celebration_items := [];
     owned_items := []; missing_items := [] |}.

(** Where a loop body leaves the enclosing function. *)
Inductive flow : Type := Continue | Returned.

(* ================================================================= *)
(** ** Computations over the machine *)

Section Monad.
Context {W : Type}.

Definition M (A : Type) : Type := machine W -> machine W * outcome A.

Definition ret {A} (a : A) : M A := fun m => (m, Ok a).

Definition bind {A B} (c : M A) (f : A -> M B) : M B :=
  fun m =>
    match c m with
    | (m', Ok a) => f a m'
    | (m', Raise e) => (m', Raise e)
    end.

(** [try: body  except ...: handler] *)
Definition try_except {A} (body : M A) (handler : exn -> M A) : M A :=
  fun m =>
    match body m with
    | (m', Ok a) => (m', Ok a)
    | (m', Raise e) => handler e m'
    end.

Definition add_line (l : line) (m : machine W) : machine W :=
  {| world := world m; stdout := stdout m ++ [l];
     celebration_items := celebration_items m;
     owned_items := owned_items m;
     missing_items := missing_items m |}.

(** [print(...)] *)
Definition print (l : line) : M unit := fun m => (add_line l m, Ok tt).

Definition set_world (m : machine W) (w : W) : machine W :=
  {| world := w; stdout := stdout m;
     celebration_items := celebration_items m;
     owned_items := owned_items m;
     missing_items := missing_items m |}.

Definition set_celebration (c : dict (list str)) : M unit :=
  fun m =>
    ({| world := world m; stdout := stdout m;
        celebration_items := c;
        owned_items := owned_items m;
        missing_items := missing_items m |}, Ok tt).

Definition set_owned (d : dict (list str)) (m : machine W) : machine W :=
  {| world := world m; stdout := stdout m;
     celebration_items := celebration_items m;
     owned_items := d;
     missing_items := missing_items m |}.

Definition set_missing (d : dict (list str)) (m : machine W) : machine W :=
  {| world := world m; stdout := stdout m;
     celebration_items := celebration_items m;
     owned_items := owned_items m;
     missing_items := d |}.

(** [self.owned_items[category] = []] and the like *)
Definition reset_owned (category : str) : M unit :=
  fun m => (set_owned (dict_set category [] (owned_items m)) m, Ok tt).
Definition reset_missing (category : str) : M unit :=
  fun m => (set_missing (dict_set category [] (missing_items m)) m, Ok tt).

(** [self.owned_items[category].append(item)] and the like *)
Definition append_owned (category item : str) : M unit :=
  fun m =>
    match dict_append category item (owned_items m) with
    | Some d => (set_owned d m, Ok tt)
    | None => (m, Raise Exception)
    end.
Definition append_missing (category item : str) : M unit :=
  fun m =>
    match dict_append category item (missing_items m) with
    | Some d => (set_missing d m, Ok tt)
    | None => (m, Raise Exception)
    end.

End Monad.

Declare Scope machine_scope.
Delimit Scope machine_scope with machine.
Notation "x <- c1 ;; c2" := (bind c1 (fun x => c2))
  (at level 61, c1 at next level, right associativity) : machine_scope.
Notation "c1 ;; c2" := (bind c1 (fun _ => c2))
  (at level 61, right associativity) : machine_scope.
Local Open Scope machine_scope.

(* ================================================================= *)
(** ** The resolver and the driver *)

Section Checker.
Context {U : UnicodeData} {W : Type} {E : Env W}.

(** [self.marketplace_api.search_item(name, limit=...)] *)
Definition api_search (name : str) (limit : nat) : M (list Item.t) :=
  fun m =>
    let (w, r) := search_item (world m) name limit in (set_world m w, r).

(** [time.sleep(0.3)] *)
Definition sleep : M unit :=
  fun m =>
    let (w, interrupted) := time_sleep (world m) in
    (set_world m w, if interrupted then Raise KeyboardInterrupt else Ok tt).

(** The first loop over [results] of [check_ownership]: the exact
    matches.  [Some b] is [return b], [None] the end of the loop. *)
Fixpoint exact_pass (normalized_search : str) (results : list Item.t) : option bool :=
  match results with
  | [] => None
  | item :: rest =>
      let normalized_result := normalize_name (Item.name item) in
      if str_eqb normalized_result normalized_search
      then Some (Item.is_owned item)
      else exact_pass normalized_search rest
  end.

(** The condition under which the second loop returns [True]. *)
Definition partial_match (normalized_search : str) (item : Item.t) : bool :=
  let normalized_result := normalize_name (Item.name item) in
  if contains normalized_search normalized_result && Item.is_owned item then
    let words_search := split normalized_search in
    let words_result := split normalized_result in
    issubset words_search words_result
  else false.

(** The second loop over [results]: the partial matches. *)
Fixpoint partial_pass (normalized_search : str) (results : list Item.t) : bool :=
  match results with
  | [] => false
  | item :: rest =>
      if partial_match normalized_search item then true
      else partial_pass normalized_search rest
  end.

(** The loop over the search terms; [None] when it runs to its end. *)
Fixpoint for_search_terms (item_name : str) (search_terms : list str) : M (option bool) :=
  match search_terms with
  | [] => ret None
  | search_term :: rest =>
      results <- api_search search_term 30 ;;
      match results with
      | [] => for_search_terms item_name rest
      | _ :: _ =>
          let normalized_search := normalize_name item_name in
          match exact_pass normalized_search results with
          | Some b => ret (Some b)
          | None =>
              if partial_pass normalized_search results then ret (Some true)
              else for_search_terms item_name rest
          end
      end
  end.

(** *** Match Resolver: [check_ownership] *)
Definition check_ownership (item_name : str) : M bool :=
  let search_terms := get_search_terms item_name in
  r <- for_search_terms item_name search_terms ;;
  ret (match r with Some b => b | None => false end).

(** The body of the loop over the items of one category; the print of
    the item is uninterrupted here, [Interruptible.check_item] has it with
    the signal. *)
Definition check_item (category item : str) (checked total_items : nat) : M flow :=
  print (Checking checked total_items (firstn 60 item)) ;;
  try_except
    (is_owned <- check_ownership item ;;
     (if is_owned : bool
      then append_owned category item ;; print SaysOwned
      else append_missing category item ;; print SaysMissing) ;;
     sleep ;;
     ret Continue)
    (fun e =>
       match e with
       | KeyboardInterrupt => print SaysStopped ;; ret Returned
       | Exception =>
           print SaysError ;;
           append_missing category item ;;
           ret Continue
       end).

Fixpoint for_items (category : str) (total_items : nat) (items : list str)
         (checked : nat) : M (flow * nat) :=
  match items with
  | [] => ret (Continue, checked)
  | item :: rest =>
      let checked := S checked in
      f <- check_item category item checked total_items ;;
      match f with
      | Returned => ret (Returned, checked)
      | Continue => for_items category total_items rest checked
      end
  end.

Fixpoint for_categories (total_items : nat) (celebration : dict (list str))
         (checked : nat) : M flow :=
  match celebration with
  | [] => ret Continue
  | (category, items) :: rest =>
      reset_owned category ;;
      reset_missing category ;;
      r <- for_items category total_items items checked ;;
      match r with
      | (Returned, _) => ret Returned
      | (Continue, checked) => for_categories total_items rest checked
      end
  end.

(** *** Reconciliation Driver: [find_missing_items] *)
Definition find_missing_items (celebration : dict (list str)) : M unit :=
  set_celebration celebration ;;
  let total_items := sum_len celebration in
  print (Banner total_items) ;;
  for_categories total_items celebration 0 ;;
  ret tt.

End Checker.

(* ================================================================= *)
(** ** The report builder *)

(** A Python number: the percentage is a [float], or the [int] zero. *)
Inductive number : Type :=
| PyInt (z : Z)
| PyFloat (f : float).

(** [float(n)] for a count; exact below 2^53. *)
Definition float_of_nat (n : nat) : float :=
  PrimFloat.of_uint63 (Uint63.of_Z (Z.of_nat n)).

Definition float_of_Z (z : Z) : float :=
  let f := PrimFloat.of_uint63 (Uint63.of_Z (Z.abs z)) in
  if (z <? 0)%Z then PrimFloat.opp f else f.

(** [a / b] on two counts: the binary64 quotient. *)
Definition true_div (a b : nat) : float :=
  PrimFloat.div (float_of_nat a) (float_of_nat b).

(** [num / den] rounded to the nearest integer, ties to even. *)
Definition half_even (num den : Z) : Z :=
  let q := (num / den)%Z in
  let r := (num mod den)%Z in
  match (2 * r ?= den)%Z with
  | Lt => q
  | Gt => (q + 1)%Z
  | Eq => if Z.even q then q else (q + 1)%Z
  end.

(** The exact value of a finite float, in hundredths, rounded to the
    nearest integer with ties to even. *)
Definition hundredths (x : float) : option Z :=
  match Prim2SF x with
  | S754_finite s m e =>
      let mag := if (0 <=? e)%Z
                 then (Z.pos m * 2 ^ e * 100)%Z
                 else half_even (Z.pos m * 100) (2 ^ (- e)) in
      Some (if s then (- mag)%Z else mag)
  | _ => None
  end.

(** [round(x, 2)]: the float nearest to the two-decimal numeral that is
    nearest to the exact value of [x] (ties to even); zeros, infinities
    and NaN are returned as they are. *)
Definition round2 (x : float) : float :=
  match hundredths x with
  | Some h => PrimFloat.div (float_of_Z h) (float_of_Z 100)
  | None => x
  end.

Record summary : Type := mkSummary {
  total_celebration_items : nat;
  total_owned : nat;
  total_missing : nat;
  completion_percentage : number
}.

Record report : Type := mkReport {
  report_summary : summary;
  owned_by_category : dict (list str);
  missing_by_category : dict (list str);
  timestamp : str
}.

Section Report.
Context {W : Type} {E : Env W}.

(** *** Report Builder: [generate_report] *)
Definition generate_report (self : machine W) : report :=
  let total_celebration := sum_len (celebration_items self) in
  let total_owned := sum_len (owned_items self) in
  let total_missing := sum_len (missing_items self) in
  {| report_summary :=
       {| total_celebration_items := total_celebration;
          total_owned := total_owned;
          total_missing := total_missing;
          completion_percentage :=
            if 0 <? total_celebration
            then PyFloat (round2 (PrimFloat.mul (true_div total_owned total_celebration)
                                                (float_of_Z 100)))
            else PyInt 0 |};
     owned_by_category := owned_items self;
     missing_by_category := missing_items self;
     timestamp := strftime (world self) |}.

End Report.

(** [s.rfind(sep)] counted from position [i] of the whole string: the
    start of the rightmost occurrence. *)
Fixpoint rfind_from (sep s : str) (i : nat) : option nat :=
  match s with
  | [] => if startswith sep [] then Some i else None
  | _ :: s' =>
      match rfind_from sep s' (S i) with
      | Some j => Some j
      | None => if startswith sep s then Some i else None
      end
  end.
Definition rfind (sep s : str) : option nat := rfind_from sep s 0.

(** [s.rsplit(sep, 1)] *)
Definition rsplit1 (sep s : str) : list str :=
  match rfind sep s with
  | Some i => [firstn i s; skipn (i + length sep) s]
  | None => [s]
  end.

(** [grouped[k].append(x)] on a [defaultdict(list)] *)
Fixpoint dict_push (k x : str) (d : dict (list str)) : dict (list str) :=
  match d with
  | [] => [(k, [x])]
  | (k', l) :: d' =>
      if str_eqb k' k then (k', l ++ [x]) :: d' else (k', l) :: dict_push k x d'
  end.

Definition separator : str := py " - ".

(** The base name the loop of [group_items_by_base_name] computes. *)
Definition base_name (item : str) : str :=
  if contains separator item then
    let parts := rsplit1 separator item in
    nth 0 parts []
  else item.

Fixpoint group_loop (items : list str) (grouped : dict (list str)) : dict (list str) :=
  match items with
  | [] => grouped
  | item :: rest => group_loop rest (dict_push (base_name item) item grouped)
  end.

(** *** Report Builder: [group_items_by_base_name] *)
Definition group_items_by_base_name (items : list str) : dict (list str) :=
  group_loop items [].

(* ================================================================= *)
(** ** The specification's wording, where it is compared with the code *)

Section SpecWords.
Context {U : UnicodeData}.

(** The normalizer of the specification keeps the characters that are
    alphanumeric, whitespace or a dash. *)
Definition spec_kept (c : char) : bool :=
  isalnum c || isspace c || (c =? dash)%N.

Definition spec_normalize (s : str) : str :=
  strip (upper (filter spec_kept s)).

(** The term generator of the specification, over the same class. *)
Definition spec_generateTerms (s : str) : list str :=
  let stripped := filter spec_kept s in
  [s]
  ++ (if str_eqb stripped s then [] else [stripped])
  ++ (if existsb (fun c => negb (spec_kept c)) s then
        match rev (split stripped) with
        | [] => []
        | [w] => [w]
        | w2 :: w1 :: _ => [w2; w1 ++ [space] ++ w2]
        end
      else []).

End SpecWords.

(** The partial-match rule of the specification: the target is a non-empty
    substring of the candidate's normalized name, the candidate is owned,
    and every word of the target is a word of the candidate. *)
Definition spec_qualifies {U : UnicodeData} (target : str) (item : Item.t) : bool :=
  let candidate := normalize_name (Item.name item) in
  negb (str_eqb target []) && contains target candidate
  && Item.is_owned item
  && issubset (split target) (split candidate).

(* ================================================================= *)
(** ** Reading a run off the machine *)

(** The pairs (category, item) of a dictionary, in its order. *)
Definition entries (d : dict (list str)) : list (str * str) :=
  flat_map (fun e => map (pair (fst e)) (snd e)) d.

(** The lines that report the verdict on an item, and their number: the
    items the driver has processed. *)
Definition is_verdict (l : line) : bool :=
  match l with
  | SaysOwned | SaysMissing | SaysError => true
  | _ => false
  end.
Definition verdicts (out : list line) : nat := length (filter is_verdict out).

(** The run was cancelled: "Stopped by user." was printed. *)
Definition is_stop (l : line) : bool :=
  match l with
  | SaysStopped => true
  | _ => false
  end.
Definition stopped (out : list line) : bool := existsb is_stop out.

(** From [m] to [m'] the driver has classified the pairs [done], each once,
    and printed one verdict for each. *)
Definition progress {W} (done : list (str * str)) (m m' : machine W) : Prop :=
  celebration_items m' = celebration_items m /\
  Permutation (entries (owned_items m') ++ entries (missing_items m'))
              (entries (owned_items m) ++ entries (missing_items m) ++ done) /\
  verdicts (stdout m') = verdicts (stdout m) + length done.

(* ================================================================= *)
(** ** Environments for the examples *)

(** A search result with the given name and ownership flag. *)
Definition candidate (name : string) (owned : bool) : Item.t :=
  {| Item.id := []; Item.name := py name; Item.type := []; Item.tags := [];
     Item.is_owned := owned |}.

(** A provider without state that answers by the query alone; the world
    counts the pauses, and the operator interrupts pause number [stop]
    (none when [stop] is 0). *)
Definition scripted (stop : nat) (answer : str -> outcome (list Item.t)) : Env nat :=
  {| search_item := fun w name _ => (w, answer name);
     time_sleep := fun w => (S w, (0 <? stop) && (S w =? stop));
     strftime := fun _ => [] |}.

(** The provider that answers one query and has nothing for the others. *)
Definition answers (query : string) (results : list Item.t) (name : str) : outcome (list Item.t) :=
  Ok (if str_eqb name (py query) then results else []).

(** The provider that raises on one query and has nothing for the others. *)
Definition breaks_on (query : string) (name : str) : outcome (list Item.t) :=
  if str_eqb name (py query) then Raise Exception else Ok [].

(** A catalog of ten items in two categories. *)
Definition ten_items : dict (list str) :=
  [(py "HEADGEAR", [py "A"; py "B"]);
   (py "UNIFORMS", [py "C"; py "D"; py "E"; py "F"; py "G"; py "H"; py "I"; py "J"])].

(** The percentage of the specification, [round(100 * owned / total, 2)]
    and zero for an empty catalog: evaluated in binary64 in the order
    written, and in exact arithmetic, in hundredths. *)
Definition spec_percentage (owned total : nat) : number :=
  if 0 <? total
  then PyFloat (round2 (PrimFloat.div
                          (PrimFloat.mul (float_of_Z 100) (float_of_nat owned))
                          (float_of_nat total)))
  else PyInt 0.

Definition spec_hundredths (owned total : nat) : Z :=
  half_even (100 * Z.of_nat owned * 100) (Z.of_nat total).

(** The float of a two-decimal numeral given in hundredths. *)
Definition decimal2 (h : Z) : float :=
  PrimFloat.div (float_of_Z h) (float_of_Z 100).

(** The names "MINE I", "MINE II", ... *)
Definition numbered (prefix : string) (n : nat) : list str :=
  map (fun i => py prefix ++ repeat 73%N i) (seq 1 n).

(** A pack of 160 items with different names, and the provider that finds
    each of them under its name and reports the first 23 as owned. *)
Definition pack_160 : dict (list str) :=
  [(py "HEADGEAR", numbered "MINE " 23 ++ numbered "OTHER " 137)].

Definition owns_mine (name : str) : outcome (list Item.t) :=
  Ok [{| Item.id := []; Item.name := name; Item.type := []; Item.tags := [];
         Item.is_owned := startswith (py "MINE ") name |}].

(** The values of a list without repetition, each where it is first seen. *)
Fixpoint first_seen (l : list str) : list str :=
  match l with
  | [] => []
  | x :: l' => x :: filter (fun y => negb (str_eqb y x)) (first_seen l')
  end.

(* ================================================================= *)
(** ** Observing the lookups *)

(** The environment [E] with a record of the queries sent to the search,
    in the order of the calls. *)
Definition logged {W} (E : Env W) : Env (W * list str) :=
  {| search_item := fun wl name limit =>
       let (w', r) := search_item (fst wl) name limit in
       ((w', snd wl ++ [name]), r);
     time_sleep := fun wl =>
       let (w', interrupted) := time_sleep (fst wl) in
       ((w', snd wl), interrupted);
     strftime := fun wl => strftime (fst wl) |}.

(** [m] deals its elements out to [l] and [r], each keeping the order. *)
Inductive interleaved {A : Type} : list A -> list A -> list A -> Prop :=
| interleaved_nil : interleaved [] [] []
| interleaved_left x l r m :
    interleaved l r m -> interleaved (x :: l) r (x :: m)
| interleaved_right x l r m :
    interleaved l r m -> interleaved l (x :: r) (x :: m).

(* ================================================================= *)
(** ** The summary *)

(** [a < b] on sequences: the first difference decides, a proper prefix is
    the smaller.  Strings compare by code point, lists of strings by
    string, the pairs of [grouped.items()] by key and then by list. *)
Fixpoint lex_ltb {A : Type} (ltb eqb : A -> A -> bool) (a b : list A) : bool :=
  match a, b with
  | _, [] => false
  | [], _ :: _ => true
  | x :: a', y :: b' => ltb x y || (eqb x y && lex_ltb ltb eqb a' b')
  end.

Definition str_ltb (a b : str) : bool := lex_ltb N.ltb N.eqb a b.
Definition list_ltb (a b : list str) : bool := lex_ltb str_ltb str_eqb a b.

Definition item_ltb (p q : str * list str) : bool :=
  str_ltb (fst p) (fst q) || (str_eqb (fst p) (fst q) && list_ltb (snd p) (snd q)).

(** [sorted(l)]: the stable sort by [<]; an element goes before the first
    one that is not smaller than it. *)
Fixpoint insert_sorted (x : str * list str) (l : list (str * list str)) :
  list (str * list str) :=
  match l with
  | [] => [x]
  | y :: l' => if item_ltb y x then y :: insert_sorted x l' else x :: l
  end.

Definition sorted (l : list (str * list str)) : list (str * list str) :=
  fold_right insert_sorted [] l.

(** The lines [print_summary] prints. *)
Inductive summary_line : Type :=
| ResultsBanner
| TotalLine (n : nat)
| OwnedLine (n : nat)
| MissingLine (n : nat)
| CompletionLine (p : number)
| MissingBanner
| BlankLine
| GroupLine (base : str) (variants : nat)
| ItemLine (item : str)
| MoreLine (remaining : Z)
| AllOwnedLine.

(** The line of a group: its base name and size, or its only member. *)
Definition group_line (g : str * list str) : summary_line :=
  if 1 <? length (snd g) then GroupLine (fst g) (length (snd g))
  else ItemLine (nth 0 (snd g) []).

(** The loop over the sorted groups; [variants[0]] of an empty group is an
    [IndexError]. *)
Fixpoint summary_loop (groups : list (str * list str)) (all_missing displayed : nat) :
  list summary_line * outcome unit :=
  match groups with
  | [] => ([], Ok tt)
  | (base_name, variants) :: rest =>
      if 50 <=? displayed then
        let remaining := (Z.of_nat all_missing - Z.of_nat displayed)%Z in
        ([MoreLine remaining], Ok tt)
      else if 1 <? length variants then
        let (lines, r) := summary_loop rest all_missing (displayed + length variants) in
        (GroupLine base_name (length variants) :: lines, r)
      else
        match variants with
        | [] => ([], Raise Exception)
        | v :: _ =>
            let (lines, r) := summary_loop rest all_missing (displayed + 1) in
            (ItemLine v :: lines, r)
        end
  end.

Section Summary.
Context {W : Type} {E : Env W}.

(** The list [all_missing] of [print_summary]. *)
Definition all_missing_of (self : machine W) : list str :=
  concat (values (missing_items self)).

(** *** Report Builder: [print_summary]; the printed lines and the way the
    call ends. *)
Definition print_summary (self : machine W) : list summary_line * outcome unit :=
  let report := generate_report self in
  let head :=
    [ResultsBanner;
     TotalLine (total_celebration_items (report_summary report));
     OwnedLine (total_owned (report_summary report));
     MissingLine (total_missing (report_summary report));
     CompletionLine (completion_percentage (report_summary report));
     MissingBanner] in
  let all_missing := all_missing_of self in
  match all_missing with
  | _ :: _ =>
      let grouped := group_items_by_base_name all_missing in
      let (lines, r) := summary_loop (sorted grouped) (length all_missing) 0 in
      (head ++ BlankLine :: lines, r)
  | [] => (head ++ [AllOwnedLine], Ok tt)
  end.

End Summary.

(* ================================================================= *)
(** ** The marketplace client: [R6MarketplaceAPI.search_item] *)

(** What [response.json()] returns; [None] is [JNull]. *)
#[local] Unset Elimination Schemes.
Inductive json : Type :=
| JNull
| JBool (b : bool)
| JInt (z : Z)
| JFloat (f : float)
| JStr (s : str)
| JList (l : list json)
| JDict (d : list (str * json)).
#[local] Set Elimination Schemes.

(** The exceptions of subscripting, iterating and calling [get]. *)
Inductive pyerr : Type := KeyError | IndexError | TypeError | AttributeError.

Inductive attempt (A : Type) : Type :=
| Done (a : A)
| Fails (e : pyerr).
Arguments Done {A} a.
Arguments Fails {A} e.

Definition and_then {A B} (x : attempt A) (f : A -> attempt B) : attempt B :=
  match x with
  | Done a => f a
  | Fails e => Fails e
  end.

(** [bool(v)] *)
Definition truthy (v : json) : bool :=
  match v with
  | JNull => false
  | JBool b => b
  | JInt z => negb (z =? 0)%Z
  | JFloat f => negb (PrimFloat.eqb f PrimFloat.zero)
  | JStr s => match s with [] => false | _ => true end
  | JList l => match l with [] => false | _ => true end
  | JDict d => match d with [] => false | _ => true end
  end.

(** [len(v)] *)
Definition py_len (v : json) : attempt nat :=
  match v with
  | JStr s => Done (length s)
  | JList l => Done (length l)
  | JDict d => Done (length d)
  | _ => Fails TypeError
  end.

(** [v[0]]; the keys of a dictionary read from JSON are strings. *)
Definition first_of (v : json) : attempt json :=
  match v with
  | JList (x :: _) => Done x
  | JList [] => Fails IndexError
  | JStr (c :: _) => Done (JStr [c])
  | JStr [] => Fails IndexError
  | JDict _ => Fails KeyError
  | _ => Fails TypeError
  end.

(** [v[key]] for a string [key] *)
Definition at_key (key : string) (v : json) : attempt json :=
  match v with
  | JDict d =>
      match dict_get (py key) d with
      | Some x => Done x
      | None => Fails KeyError
      end
  | _ => Fails TypeError
  end.

(** [v.get(key, default)] *)
Definition get_or (key : string) (default : json) (v : json) : attempt json :=
  match v with
  | JDict d =>
      match dict_get (py key) d with
      | Some x => Done x
      | None => Done default
      end
  | _ => Fails AttributeError
  end.

(** [key in v] for a string [key] *)
Definition has_key (key : string) (v : json) : attempt bool :=
  match v with
  | JDict d => Done (match dict_get (py key) d with Some _ => true | None => false end)
  | JList l =>
      Done (existsb (fun x => match x with
                              | JStr s => str_eqb s (py key)
                              | _ => false
                              end) l)
  | JStr s => Done (contains (py key) s)
  | _ => Fails TypeError
  end.

(** The values [for node in v] runs through. *)
Definition iterate (v : json) : attempt (list json) :=
  match v with
  | JList l => Done l
  | JDict d => Done (map (fun e => JStr (fst e)) d)
  | JStr s => Done (map (fun c => JStr [c]) s)
  | _ => Fails TypeError
  end.

(** One entry of the list [search_item] builds. *)
Module Found.
Record t : Type := mk {
  id : json;
  name : json;
  type : json;
  tags : json;
  is_owned : json
}.
End Found.

(** The body of the loop over the nodes. *)
Definition parse_node (node : json) : attempt Found.t :=
  and_then (at_key "item" node) (fun item_data =>
  let is_owned := JBool false in
  and_then
    (and_then (has_key "viewer" item_data) (fun present =>
       if present then
         and_then (at_key "viewer" item_data) (fun viewer =>
           if truthy viewer then
             and_then (get_or "meta" (JDict []) viewer) (fun meta =>
               get_or "isOwned" (JBool false) meta)
           else Done is_owned)
       else Done is_owned))
    (fun is_owned =>
  and_then (at_key "itemId" item_data) (fun item_id =>
  and_then (at_key "name" item_data) (fun item_name =>
  and_then (at_key "type" item_data) (fun item_type =>
  and_then (get_or "tags" (JList []) item_data) (fun item_tags =>
  Done {| Found.id := item_id; Found.name := item_name;
          Found.type := item_type; Found.tags := item_tags;
          Found.is_owned := is_owned |})))))).

(** The loop over the nodes; the first failure ends it. *)
Fixpoint parse_nodes (nodes : list json) (items : list Found.t) : attempt (list Found.t) :=
  match nodes with
  | [] => Done items
  | node :: rest =>
      and_then (parse_node node) (fun item => parse_nodes rest (items ++ [item]))
  end.

(** The path to the nodes of a response. *)
Definition nodes_of (result : json) : attempt json :=
  and_then (first_of result) (fun r0 =>
  and_then (at_key "data" r0) (fun data =>
  and_then (at_key "game" data) (fun game =>
  and_then (at_key "marketableItems" game) (fun marketable =>
  at_key "nodes" marketable)))).

(** [search_item] from the value [graphql_query] returned on.  The three
    exceptions of the [except] clause give the empty list; what else is
    raised leaves the function. *)
Definition search_item_result (result : json) : outcome (list Found.t) :=
  if negb (truthy result) then Ok []
  else
    match py_len result with
    | Fails _ => Raise Exception
    | Done n =>
        if n =? 0 then Ok []
        else
          match and_then (nodes_of result) (fun nodes =>
                and_then (iterate nodes) (fun l => parse_nodes l [])) with
          | Done items => Ok items
          | Fails AttributeError => Raise Exception
          | Fails _ => Ok []
          end
    end.

Definition is_dict (v : json) : bool :=
  match v with
  | JDict _ => true
  | _ => false
  end.

(** A node of a response: an item with its name and, when [viewer] is
    given, the viewer data. *)
Definition node_of (name : string) (viewer : option json) : json :=
  JDict [(py "item",
          JDict ([(py "itemId", JStr (py "id")); (py "name", JStr (py name));
                  (py "type", JStr (py "WeaponSkin"))]
                 ++ match viewer with
                    | Some v => [(py "viewer", v)]
                    | None => []
                    end))].

Definition owned_viewer (owned : bool) : json :=
  JDict [(py "meta", JDict [(py "isOwned", JBool owned)])].

(** A response with the given nodes. *)
Definition response_of (nodes : list json) : json :=
  JList [JDict [(py "data",
           JDict [(py "game",
             JDict [(py "marketableItems",
               JDict [(py "nodes", JList nodes)])])])]].

(* ================================================================= *)
(** ** The scraper: [R6SkinScraper.scrape_celebration_pack] *)

(** What the loop reads of an element of the page: its text,
    [get_text(strip=True)], its tag name and its classes,
    [element.get('class', [])]. *)
Module Tag.
Record t : Type := mk {
  text : str;
  name : str;
  classes : list str
}.
End Tag.

(** The keys of [items_by_category], in the order of the literal. *)
Definition categories : list str :=
  [py "HEADGEAR"; py "UNIFORMS"; py "UNIVERSAL WEAPON SKINS";
   py "SEASONAL WEAPON SKINS"; py "WEAPON SKINS"; py "ATTACHMENT SKINS";
   py "UNIQUE ABILITY SKINS"; py "DRONE SKINS"; py "OPERATOR PORTRAITS"].

(** [category_keywords]: every keyword stands for the category of its name. *)
Definition category_keywords : dict str := map (fun k => (k, k)) categories.

Definition empty_catalog : dict (list str) := map (fun k => (k, [])) categories.

(** The loop over the keywords: the category of the first keyword that is
    in the text, when the text has both brackets; [None] when the loop
    ends without [break]. *)
Fixpoint find_header (keywords : dict str) (element_text : str) : option str :=
  match keywords with
  | [] => None
  | (keyword, category) :: rest =>
      if contains keyword element_text
         && contains (py "(") element_text
         && contains (py ")") element_text
      then Some category
      else find_header rest element_text
  end.

(** The element is an item name: a [span] of class [name]. *)
Definition is_item (el : Tag.t) : Prop :=
  Tag.name el = py "span" /\ In (py "name") (Tag.classes el).

Section Scraper.
Context {U : UnicodeData}.

(** The loop over the elements of the page; it returns the category it is
    in and the dictionary, [None] stands for a [KeyError]. *)
Fixpoint scrape_loop (all_elements : list Tag.t) (current_category : option str)
         (items_by_category : dict (list str)) :
  option (option str * dict (list str)) :=
  match all_elements with
  | [] => Some (current_category, items_by_category)
  | element :: rest =>
      let element_text := upper (Tag.text element) in
      let current_category :=
        match find_header category_keywords element_text with
        | Some category => Some category
        | None => current_category
        end in
      match current_category with
      | Some ((_ :: _) as category) =>
          if str_eqb (Tag.name element) (py "span")
             && mem (py "name") (Tag.classes element)
          then
            let item_name := Tag.text element in
            match item_name with
            | [] => scrape_loop rest current_category items_by_category
            | _ :: _ =>
                match dict_get category items_by_category with
                | None => None
                | Some items =>
                    if mem item_name items
                    then scrape_loop rest current_category items_by_category
                    else
                      match dict_append category item_name items_by_category with
                      | None => None
                      | Some d => scrape_loop rest current_category d
                      end
                end
            end
          else scrape_loop rest current_category items_by_category
      | _ => scrape_loop rest current_category items_by_category
      end
  end.

(** [scrape_celebration_pack] from what fetching and parsing the page gave:
    the elements of the page, or an exception.  An [Exception] in the
    function gives the empty dictionary. *)
Definition scrape_celebration_pack (fetched : outcome (list Tag.t)) :
  outcome (dict (list str)) :=
  match fetched with
  | Ok all_elements =>
      match scrape_loop all_elements None empty_catalog with
      | Some (_, items_by_category) => Ok items_by_category
      | None => Ok []
      end
  | Raise Exception => Ok []
  | Raise KeyboardInterrupt => Raise KeyboardInterrupt
  end.

End Scraper.

(** A small page: two elements before any header, a header, three
    elements under it, and a second header with one name. *)
Definition sample_intro : list Tag.t :=
  [ Tag.mk (py "Celebration Pack") (py "h1") [];
    Tag.mk (py "Orphan") (py "span") [py "name"] ].

Definition sample_header : Tag.t :=
  Tag.mk (py "Universal Weapon Skins (2)") (py "h2") [py "title"].

Definition sample_item : Tag.t :=
  Tag.mk (py "Black Ice") (py "span") [py "name"].

Definition sample_section : list Tag.t :=
  [ sample_item;
    Tag.mk (py "Black Ice") (py "span") [py "name"; py "rare"];
    Tag.mk (py "Gold Dust") (py "div") [py "name"] ].

Definition sample_rest : list Tag.t :=
  [ Tag.mk (py "Drone Skins (1)") (py "h2") [py "title"];
    Tag.mk (py "Tiny Wheels") (py "span") [py "name"] ].

Definition sample_page : list Tag.t :=
  sample_intro ++ sample_header :: sample_section ++ sample_rest.

(** What the scraper makes of a page, [{}] when it raises. *)
Definition scraped {U : UnicodeData} (all_elements : list Tag.t) : dict (list str) :=
  match scrape_celebration_pack (Ok all_elements) with
  | Ok items_by_category => items_by_category
  | Raise _ => []
  end.

(* ================================================================= *)
(** ** The driver under a signal outside the [try] *)

(** The driver above takes its prints as uninterrupted: the operator's
    signal reaches it in the search or in the pause, both inside the [try]
    of [find_missing_items].  The interpreter delivers the signal wherever
    it arrives, and the lines of the loop over the items that come before
    the [try] are such a place: [for item in items], [checked += 1] and
    the print of the item.  [at_checking] tells whether the signal arrives
    there ([true]: [KeyboardInterrupt] is raised before the line is
    written). *)
Class Console (W : Type) : Type := {
  at_checking : W -> W * bool
}.

(** No signal outside the [try]. *)
Definition quiet {W : Type} : Console W :=
  {| at_checking := fun w => (w, false) |}.

(** Over the worlds of [scripted], which count the pauses: the signal
    arrives at the print of the item that follows pause number [k]. *)
Definition signal_after (k : nat) : Console nat :=
  {| at_checking := fun w => (w, w =? k) |}.

Module Interruptible.
Section Driver.
Context {U : UnicodeData} {W : Type} {E : Env W} {C : Console W}.

(** [print(f"[{checked}/{total_items}] Checking: ...")], where the signal
    may arrive. *)
Definition print_checking (l : line) : M unit :=
  fun m =>
    let (w, interrupted) := at_checking (world m) in
    if interrupted then (set_world m w, Raise KeyboardInterrupt)
    else (add_line l (set_world m w), Ok tt).

(** The body of the loop over the items of one category. *)
Definition check_item (category item : str) (checked total_items : nat) : M flow :=
  print_checking (Checking checked total_items (firstn 60 item)) ;;
  try_except
    (is_owned <- check_ownership item ;;
     (if is_owned : bool
      then append_owned category item ;; print SaysOwned
      else append_missing category item ;; print SaysMissing) ;;
     sleep ;;
     ret Continue)
    (fun e =>
       match e with
       | KeyboardInterrupt => print SaysStopped ;; ret Returned
       | Exception =>
           print SaysError ;;
           append_missing category item ;;
           ret Continue
       end).

Fixpoint for_items (category : str) (total_items : nat) (items : list str)
         (checked : nat) : M (flow * nat) :=
  match items with
  | [] => ret (Continue, checked)
  | item :: rest =>
      let checked := S checked in
      f <- check_item category item checked total_items ;;
      match f with
      | Returned => ret (Returned, checked)
      | Continue => for_items category total_items rest checked
      end
  end.

Fixpoint for_categories (total_items : nat) (celebration : dict (list str))
         (checked : nat) : M flow :=
  match celebration with
  | [] => ret Continue
  | (category, items) :: rest =>
      reset_owned category ;;
      reset_missing category ;;
      r <- for_items category total_items items checked ;;
      match r with
      | (Returned, _) => ret Returned
      | (Continue, checked) => for_categories total_items rest checked
      end
  end.

(** [find_missing_items] *)
Definition find_missing_items (celebration : dict (list str)) : M unit :=
  set_celebration celebration ;;
  let total_items := sum_len celebration in
  print (Banner total_items) ;;
  for_categories total_items celebration 0 ;;
  ret tt.

End Driver.
End Interruptible.

(* ================================================================= *)
(** ** Facts about strings *)

Lemma str_eqb_eq (a b : str) : str_eqb a b = true <-> a = b.
Proof.
  revert b; induction a as [|x a IH]; intros [|y b]; simpl; split;
    try congruence; try reflexivity.
  - rewrite andb_true_iff, N.eqb_eq, IH. intros [-> ->]. reflexivity.
  - intros H. injection H as -> ->. rewrite N.eqb_refl. apply IH. reflexivity.
Qed.

Lemma str_eqb_refl (a : str) : str_eqb a a = true.
Proof. apply str_eqb_eq. reflexivity. Qed.

Lemma str_eqb_neq (a b : str) : str_eqb a b = false <-> a <> b.
Proof.
  rewrite <- str_eqb_eq. destruct (str_eqb a b); split; congruence.
Qed.

Lemma str_eqb_sym (a b : str) : str_eqb a b = str_eqb b a.
Proof.
  destruct (str_eqb a b) eqn:E1, (str_eqb b a) eqn:E2; try reflexivity.
  - apply str_eqb_eq in E1. subst. rewrite str_eqb_refl in E2. discriminate.
  - apply str_eqb_eq in E2. subst. rewrite str_eqb_refl in E1. discriminate.
Qed.

Lemma startswith_spec (p s : str) :
  startswith p s = true <-> exists t, s = p ++ t.
Proof.
  revert s; induction p as [|x p IH]; intros s; simpl.
  - split; [intros _; exists s; reflexivity | reflexivity].
  - destruct s as [|y s].
    + split; [discriminate | intros [t Ht]; discriminate].
    + rewrite andb_true_iff, N.eqb_eq, IH. split.
      * intros [-> [t ->]]. exists t. reflexivity.
      * intros [t Ht]. injection Ht as -> ->. split; [reflexivity | eauto].
Qed.

(** [sub in s] holds exactly when [s] is [a ++ sub ++ b]. *)
Lemma contains_spec (sub s : str) :
  contains sub s = true <-> exists a b, s = a ++ sub ++ b.
Proof.
  induction s as [|y s IH].
  - simpl. rewrite orb_false_r, startswith_spec. split.
    + intros [t Ht]. exists [], t. exact Ht.
    + intros [a [b H]]. destruct a; [exists b; exact H | discriminate].
  - simpl contains. rewrite orb_true_iff, startswith_spec, IH. split.
    + intros [[t Ht] | [a [b H]]].
      * exists [], t. exact Ht.
      * exists (y :: a), b. simpl. rewrite H. reflexivity.
    + intros [[|x a] [b H]].
      * left. exists b. exact H.
      * right. injection H as _ H. exists a, b. exact H.
Qed.

Lemma mem_In (w : str) (ws : list str) : mem w ws = true <-> In w ws.
Proof.
  unfold mem. rewrite existsb_exists. split.
  - intros [x [Hx E]]. apply str_eqb_eq in E. subst. exact Hx.
  - intros H. exists w. split; [exact H | apply str_eqb_refl].
Qed.

Lemma issubset_spec (a b : list str) :
  issubset a b = true <-> forall w, In w a -> In w b.
Proof.
  unfold issubset. rewrite forallb_forall. split; intros H w Hw.
  - apply mem_In. apply H. exact Hw.
  - apply mem_In. apply H. exact Hw.
Qed.

Section TextFacts.
Context {U : UnicodeData}.

Lemma kept_not_special (c : char) : negb (re_special c) = kept c.
Proof. unfold re_special, re_word, kept. apply negb_involutive. Qed.

Lemma re_sub_special_filter (s : str) : re_sub_special [] s = filter kept s.
Proof.
  induction s as [|c s IH]; simpl; [reflexivity|].
  rewrite <- kept_not_special. destruct (re_special c); simpl; rewrite IH; reflexivity.
Qed.

Lemma re_sub_special_length (s : str) :
  length (re_sub_special [] s) <= length s.
Proof.
  induction s as [|c s IH]; simpl; [lia|].
  destruct (re_special c); simpl; lia.
Qed.

(** Without a special character the substitution changes nothing; with
    one the result is shorter. *)
Lemma re_sub_special_id (s : str) :
  re_search_special s = false -> re_sub_special [] s = s.
Proof.
  unfold re_search_special. induction s as [|c s IH]; simpl; [reflexivity|].
  rewrite orb_false_iff. intros [Hc Hs]. rewrite Hc, IH by exact Hs. reflexivity.
Qed.

Lemma re_sub_special_shorter (s : str) :
  re_search_special s = true -> length (re_sub_special [] s) < length s.
Proof.
  unfold re_search_special. induction s as [|c s IH]; simpl; [discriminate|].
  destruct (re_special c) eqn:Hc; simpl.
  - intros _. pose proof (re_sub_special_length s). lia.
  - intros Hs. apply IH in Hs. lia.
Qed.

Lemma re_sub_special_changes (s : str) :
  re_search_special s = true -> str_eqb (re_sub_special [] s) s = false.
Proof.
  intros H. apply str_eqb_neq. intros E.
  apply re_sub_special_shorter in H. rewrite E in H. lia.
Qed.

Lemma lstrip_spec (s : str) :
  exists lead, s = lead ++ lstrip s /\ forallb isspace lead = true.
Proof.
  induction s as [|c s [lead [E Hl]]]; simpl.
  - exists []. split; reflexivity.
  - destruct (isspace c) eqn:Hc.
    + exists (c :: lead). simpl. rewrite Hc, Hl. split; [f_equal; exact E | reflexivity].
    + exists []. split; reflexivity.
Qed.

Lemma lstrip_head (s : str) (c : char) (rest : str) :
  lstrip s = c :: rest -> isspace c = false.
Proof.
  induction s as [|d s IH]; simpl; [discriminate|].
  destruct (isspace d) eqn:Hd; [exact IH|].
  intros H. injection H as -> _. exact Hd.
Qed.

Lemma rstrip_spec (s : str) :
  exists trail, s = rstrip s ++ trail /\ forallb isspace trail = true.
Proof.
  unfold rstrip. destruct (lstrip_spec (rev s)) as [lead [E Hl]].
  exists (rev lead). split.
  - rewrite <- rev_app_distr, <- E, rev_involutive. reflexivity.
  - rewrite forallb_forall in *. intros x Hx. apply Hl. apply in_rev. exact Hx.
Qed.

Lemma rstrip_last (s front : str) (c : char) :
  rstrip s = front ++ [c] -> isspace c = false.
Proof.
  unfold rstrip. intros H.
  apply (f_equal (@rev char)) in H.
  rewrite rev_involutive, rev_app_distr in H. simpl in H.
  eapply lstrip_head. exact H.
Qed.

(** Trimming on the right leaves the first character alone. *)
Lemma rstrip_head (s : str) (c : char) (rest : str) :
  (forall d t, s = d :: t -> isspace d = false) ->
  rstrip s = c :: rest -> isspace c = false.
Proof.
  intros Hs H. destruct (rstrip_spec s) as [trail [E _]].
  rewrite H in E. simpl in E. eapply Hs. exact E.
Qed.

(** [strip] cuts a run of whitespace at either end, and nothing else. *)
Lemma strip_spec (s : str) :
  exists lead trail,
    s = lead ++ strip s ++ trail /\
    forallb isspace lead = true /\ forallb isspace trail = true /\
    (forall c rest, strip s = c :: rest -> isspace c = false) /\
    (forall front c, strip s = front ++ [c] -> isspace c = false).
Proof.
  unfold strip.
  destruct (lstrip_spec s) as [lead [E1 H1]].
  destruct (rstrip_spec (lstrip s)) as [trail [E2 H2]].
  exists lead, trail. repeat split; try assumption.
  - rewrite <- E2. exact E1.
  - intros c rest. apply rstrip_head. intros d t. apply lstrip_head.
  - intros front c. apply rstrip_last.
Qed.

End TextFacts.

(* ================================================================= *)
(** ** The name normalizer and the term generator *)

Section Normalizer.
Context {U : UnicodeData}.

Lemma last_two (ws : list str) (w2 w1 : str) (r : list str) :
  rev ws = w2 :: w1 :: r ->
  last ws [] = w2 /\ skipn (length ws - 2) ws = [w1; w2] /\ 2 <= length ws.
Proof.
  intros H. apply (f_equal (@rev str)) in H. rewrite rev_involutive in H.
  simpl in H. rewrite <- app_assoc in H. simpl in H. subst ws.
  rewrite length_app. simpl. split; [|split; [|lia]].
  - replace [w1; w2] with ([w1] ++ [w2]) by reflexivity.
    rewrite app_assoc. apply last_last.
  - replace (length (rev r) + 2 - 2) with (length (rev r)) by lia.
    rewrite skipn_app, skipn_all, Nat.sub_diag. reflexivity.
Qed.

(** C3, as amended.  [normalize_name] is a total function.  It removes the
    characters that are neither word characters (alphanumeric or the
    underscore) nor whitespace nor a dash, upper-cases what is left, and
    cuts the whitespace at both ends: the upper-cased string is
    [lead ++ normalize_name s ++ trail] with [lead] and [trail] all
    whitespace, and the result neither starts nor ends with whitespace. *)
Theorem normalize_name_spec (s : str) :
  normalize_name s = strip (upper (filter kept s)) /\
  exists lead trail,
    upper (filter kept s) = lead ++ normalize_name s ++ trail /\
    forallb isspace lead = true /\ forallb isspace trail = true /\
    (forall c rest, normalize_name s = c :: rest -> isspace c = false) /\
    (forall front c, normalize_name s = front ++ [c] -> isspace c = false).
Proof.
  unfold normalize_name. rewrite re_sub_special_filter.
  split; [reflexivity | apply strip_spec].
Qed.

(** C4, as amended.  [get_search_terms s] starts with [s] and has between
    one and four elements.  When [s] has no character outside the word
    characters (alphanumeric or the underscore), whitespace and dash, it
    is [s] alone; otherwise the stripped variant comes second (it differs
    from [s]), then the last word of the stripped variant when it has a
    word, then, when it has two, its last two words joined by one space. *)
Theorem get_search_terms_spec (s : str) :
  get_search_terms s =
    (if existsb (fun c => negb (kept c)) s then
       s :: filter kept s ::
         match rev (split (filter kept s)) with
         | [] => []
         | [w] => [w]
         | w2 :: w1 :: _ => [w2; w1 ++ [space] ++ w2]
         end
     else [s]) /\
  1 <= length (get_search_terms s) <= 4 /\
  hd [] (get_search_terms s) = s.
Proof.
  assert (Hsearch : existsb (fun c => negb (kept c)) s = re_search_special s).
  { unfold re_search_special. induction s as [|c s IH]; simpl; [reflexivity|].
    rewrite IH, <- kept_not_special, negb_involutive. reflexivity. }
  assert (Heq : get_search_terms s =
    (if existsb (fun c => negb (kept c)) s then
       s :: filter kept s ::
         match rev (split (filter kept s)) with
         | [] => []
         | [w] => [w]
         | w2 :: w1 :: _ => [w2; w1 ++ [space] ++ w2]
         end
     else [s])).
  { rewrite Hsearch. unfold get_search_terms.
    destruct (re_search_special s) eqn:Hs.
    - rewrite (re_sub_special_changes _ Hs), re_sub_special_filter.
      destruct (rev (split (filter kept s))) as [|w2 [|w1 r]] eqn:Hr.
      + apply (f_equal (@rev str)) in Hr. rewrite rev_involutive in Hr.
        simpl in Hr. rewrite Hr. reflexivity.
      + apply (f_equal (@rev str)) in Hr. rewrite rev_involutive in Hr.
        simpl in Hr. rewrite Hr. reflexivity.
      + destruct (last_two _ Hr) as [Hl [Hk Hlen]].
        rewrite Hl, Hk.
        replace (0 <? length (split (filter kept s))) with true
          by (symmetry; apply Nat.ltb_lt; lia).
        replace (2 <=? length (split (filter kept s))) with true
          by (symmetry; apply Nat.leb_le; lia).
        reflexivity.
    - rewrite (re_sub_special_id _ Hs), str_eqb_refl. reflexivity. }
  split; [exact Heq|]. rewrite Heq.
  destruct (existsb (fun c => negb (kept c)) s).
  - destruct (rev (split (filter kept s))) as [|w2 [|w1 r]]; simpl; repeat split; lia.
  - simpl. repeat split; lia.
Qed.

End Normalizer.

(** C3, counterexample: the underscore is not alphanumeric, and
    [normalize_name] keeps it: "A_B" stays "A_B", where removing every
    character that is not alphanumeric, whitespace or a dash gives "AB". *)
Lemma normalize_name_keeps_underscore :
  @normalize_name ascii_data (py "A_B") = py "A_B" /\
  @spec_normalize ascii_data (py "A_B") = py "AB" /\
  @normalize_name ascii_data (py "A_B") <> @spec_normalize ascii_data (py "A_B").
Proof.
  split; [reflexivity | split; [reflexivity | ]].
  intros H. vm_compute in H. discriminate H.
Qed.

(** C4, counterexample: "A_B" has a character that is not alphanumeric,
    whitespace or a dash, yet [get_search_terms] returns the name alone,
    where the specification appends the stripped variant "AB" and its last
    word. *)
Lemma get_search_terms_keeps_underscore :
  @get_search_terms ascii_data (py "A_B") = [py "A_B"] /\
  @spec_generateTerms ascii_data (py "A_B") = [py "A_B"; py "AB"; py "AB"] /\
  @get_search_terms ascii_data (py "A_B") <> @spec_generateTerms ascii_data (py "A_B").
Proof.
  split; [reflexivity | split; [reflexivity | ]].
  intros H. vm_compute in H. discriminate H.
Qed.

(* ================================================================= *)
(** ** The resolver *)

Section Resolver.
Context {U : UnicodeData} {W : Type} {E : Env W}.

(** One turn of the loop over the search terms. *)
Lemma for_search_terms_step (item t : str) (rest : list str) (m : machine W) :
  for_search_terms item (t :: rest) m =
    match search_item (world m) t 30 with
    | (w, Raise e) => (set_world m w, Raise e)
    | (w, Ok []) => for_search_terms item rest (set_world m w)
    | (w, Ok (r :: rs)) =>
        match exact_pass (normalize_name item) (r :: rs) with
        | Some b => (set_world m w, Ok (Some b))
        | None =>
            if partial_pass (normalize_name item) (r :: rs)
            then (set_world m w, Ok (Some true))
            else for_search_terms item rest (set_world m w)
        end
    end.
Proof.
  cbn [for_search_terms]. unfold bind, api_search.
  destruct (search_item (world m) t 30) as [w [[|r rs]|e]]; try reflexivity.
  destruct (exact_pass (normalize_name item) (r :: rs)); [reflexivity|].
  destruct (partial_pass (normalize_name item) (r :: rs)); reflexivity.
Qed.

(** The loop over [pre ++ post] is the loop over [post], started where the
    loop over [pre] ran to its end. *)
Lemma for_search_terms_app (item : str) (pre post : list str) (m : machine W) :
  for_search_terms item (pre ++ post) m =
    match for_search_terms item pre m with
    | (m1, Ok None) => for_search_terms item post m1
    | r => r
    end.
Proof.
  revert m; induction pre as [|t pre IH]; intros m; [reflexivity|].
  rewrite <- app_comm_cons, !for_search_terms_step.
  destruct (search_item (world m) t 30) as [w [[|r rs]|e]]; try reflexivity.
  - apply IH.
  - destruct (exact_pass (normalize_name item) (r :: rs)); [reflexivity|].
    destruct (partial_pass (normalize_name item) (r :: rs)); [reflexivity|apply IH].
Qed.

Lemma check_ownership_unfold (item : str) (m : machine W) :
  check_ownership item m =
    match for_search_terms item (get_search_terms item) m with
    | (m1, Ok (Some b)) => (m1, Ok b)
    | (m1, Ok None) => (m1, Ok false)
    | (m1, Raise e) => (m1, Raise e)
    end.
Proof.
  unfold check_ownership, bind, ret.
  destruct (for_search_terms item (get_search_terms item) m) as [m1 [[b|]|e]];
    reflexivity.
Qed.

(** The exact pass returns the flag of the first candidate whose normalized
    name is the target. *)
Lemma exact_pass_first (target : str) (before after : list Item.t) (c : Item.t) :
  (forall x, In x before -> normalize_name (Item.name x) <> target) ->
  normalize_name (Item.name c) = target ->
  exact_pass target (before ++ c :: after) = Some (Item.is_owned c).
Proof.
  intros Hb Hc. induction before as [|x before IH]; simpl.
  - rewrite Hc, str_eqb_refl. reflexivity.
  - assert (Hx : str_eqb (normalize_name (Item.name x)) target = false).
    { apply str_eqb_neq. apply Hb. left. reflexivity. }
    rewrite Hx. apply IH. intros y Hy. apply Hb. right. exact Hy.
Qed.

Lemma exact_pass_none (target : str) (results : list Item.t) :
  (forall x, In x results -> normalize_name (Item.name x) <> target) ->
  exact_pass target results = None.
Proof.
  induction results as [|x results IH]; intros H; simpl; [reflexivity|].
  assert (Hx : str_eqb (normalize_name (Item.name x)) target = false).
  { apply str_eqb_neq. apply H. left. reflexivity. }
  rewrite Hx. apply IH. intros y Hy. apply H. right. exact Hy.
Qed.

(** A list with an exact match splits at its first one. *)
Lemma first_exact (target : str) (results : list Item.t) (c : Item.t) :
  In c results -> normalize_name (Item.name c) = target ->
  exists before c' after,
    results = before ++ c' :: after /\
    (forall x, In x before -> normalize_name (Item.name x) <> target) /\
    normalize_name (Item.name c') = target.
Proof.
  induction results as [|x results IH]; intros Hin Hc; [destruct Hin|].
  destruct (str_eqb (normalize_name (Item.name x)) target) eqn:Hx.
  - apply str_eqb_eq in Hx. exists [], x, results.
    split; [reflexivity | split; [intros y []| exact Hx]].
  - apply str_eqb_neq in Hx. destruct Hin as [->|Hin]; [contradiction|].
    destruct (IH Hin Hc) as [before [c' [after [-> [Hb Hc']]]]].
    exists (x :: before), c', after.
    split; [reflexivity | split; [|exact Hc']].
    intros y [<-|Hy]; [exact Hx | apply Hb; exact Hy].
Qed.

Lemma partial_match_spec (target : str) (c : Item.t) :
  partial_match target c = true <->
  (exists a b, normalize_name (Item.name c) = a ++ target ++ b) /\
  Item.is_owned c = true /\
  (forall w, In w (split target) -> In w (split (normalize_name (Item.name c)))).
Proof.
  unfold partial_match. rewrite <- contains_spec, <- issubset_spec.
  destruct (contains target (normalize_name (Item.name c))),
           (Item.is_owned c); simpl; intuition congruence.
Qed.

Lemma partial_pass_spec (target : str) (results : list Item.t) :
  partial_pass target results = true <->
  exists c, In c results /\ partial_match target c = true.
Proof.
  induction results as [|x results IH]; simpl.
  - split; [discriminate | intros [c [[] _]]].
  - destruct (partial_match target x) eqn:Hx.
    + split; [intros _; exists x; auto | reflexivity].
    + rewrite IH. split.
      * intros [c [Hc Hm]]. exists c. auto.
      * intros [c [[<-|Hc] Hm]]; [congruence | exists c; auto].
Qed.

(** The resolver stops at the first exact match of the term it has
    reached, whatever the other candidates are. *)
Lemma check_ownership_first_exact (m m1 : machine W) (item : str)
      (pre : list str) (t : str) (post : list str) (w2 : W)
      (before after : list Item.t) (c : Item.t) :
  get_search_terms item = pre ++ t :: post ->
  for_search_terms item pre m = (m1, Ok None) ->
  search_item (world m1) t 30 = (w2, Ok (before ++ c :: after)) ->
  (forall x, In x before -> normalize_name (Item.name x) <> normalize_name item) ->
  normalize_name (Item.name c) = normalize_name item ->
  check_ownership item m = (set_world m1 w2, Ok (Item.is_owned c)).
Proof.
  intros Hterms Hpre Hsearch Hbefore Hc.
  rewrite check_ownership_unfold, Hterms, for_search_terms_app, Hpre,
    for_search_terms_step, Hsearch.
  destruct (before ++ c :: after) as [|r rs] eqn:Hres.
  - destruct before; discriminate.
  - rewrite <- Hres, (exact_pass_first _ _ _ Hbefore Hc). reflexivity.
Qed.

End Resolver.

(** C1.  When the resolver reaches a term (the terms before it ran out
    without a verdict) and the results of that term hold a candidate whose
    normalized name is the normalized item name, the resolver returns there,
    in the exact pass: the verdict is the ownership flag of such a
    candidate, owned partial matches in the same list notwithstanding; it
    is the flag of [c] itself when the exact matches of the list agree. *)
Theorem exact_match_is_authoritative {U : UnicodeData} {W : Type} {E : Env W}
        (m m1 : machine W) (item : str) (pre : list str) (t : str)
        (post : list str) (w2 : W) (results : list Item.t) (c : Item.t) :
  get_search_terms item = pre ++ t :: post ->
  for_search_terms item pre m = (m1, Ok None) ->
  search_item (world m1) t 30 = (w2, Ok results) ->
  In c results ->
  normalize_name (Item.name c) = normalize_name item ->
  (exists c',
      In c' results /\
      normalize_name (Item.name c') = normalize_name item /\
      exact_pass (normalize_name item) results = Some (Item.is_owned c') /\
      check_ownership item m = (set_world m1 w2, Ok (Item.is_owned c'))) /\
  ((forall d, In d results ->
              normalize_name (Item.name d) = normalize_name item ->
              Item.is_owned d = Item.is_owned c) ->
   check_ownership item m = (set_world m1 w2, Ok (Item.is_owned c))).
Proof.
  intros Hterms Hpre Hsearch Hin Hc.
  destruct (first_exact _ _ Hin Hc) as [before [c' [after [-> [Hb Hc']]]]].
  assert (Hin' : In c' (before ++ c' :: after))
    by (apply in_or_app; right; left; reflexivity).
  assert (Hv : check_ownership item m = (set_world m1 w2, Ok (Item.is_owned c')))
    by (eapply check_ownership_first_exact; eassumption).
  split.
  - exists c'. repeat split; try assumption.
    apply exact_pass_first; assumption.
  - intros Hagree. rewrite Hv, (Hagree c' Hin' Hc'). reflexivity.
Qed.

(** The example of the specification: an exact match that is not owned
    wins over an owned partial match. *)
Lemma exact_match_is_authoritative_witness :
  let results := [candidate "BLACK ICE - R4-C" true; candidate "BLACK ICE" false] in
  let c := candidate "BLACK ICE" false in
  (exists c',
      In c' results /\
      @normalize_name ascii_data (Item.name c') = @normalize_name ascii_data (py "BLACK ICE") /\
      @exact_pass ascii_data (@normalize_name ascii_data (py "BLACK ICE")) results
        = Some (Item.is_owned c') /\
      @check_ownership ascii_data nat (scripted 0 (answers "BLACK ICE" results))
        (py "BLACK ICE") (init 0) = (set_world (init 0) 0, Ok (Item.is_owned c'))) /\
  ((forall d, In d results ->
              @normalize_name ascii_data (Item.name d) = @normalize_name ascii_data (py "BLACK ICE") ->
              Item.is_owned d = Item.is_owned c) ->
   @check_ownership ascii_data nat (scripted 0 (answers "BLACK ICE" results))
     (py "BLACK ICE") (init 0) = (set_world (init 0) 0, Ok (Item.is_owned c))).
Proof.
  intros results c.
  apply (@exact_match_is_authoritative ascii_data nat
           (scripted 0 (answers "BLACK ICE" results))
           (init 0) (init 0) (py "BLACK ICE") [] (py "BLACK ICE") [] 0 results c).
  - reflexivity.
  - reflexivity.
  - reflexivity.
  - right. left. reflexivity.
  - reflexivity.
Defined.

(** C10.  When the results of the term the resolver has reached hold
    several candidates whose normalized names are the normalized item
    name, with different ownership flags, the verdict is the flag of the
    earliest of them in the order of the results. *)
Theorem exact_tie_goes_to_the_earliest {U : UnicodeData} {W : Type} {E : Env W}
        (m m1 : machine W) (item : str) (pre : list str) (t : str)
        (post : list str) (w2 : W) (before after : list Item.t) (c d : Item.t) :
  get_search_terms item = pre ++ t :: post ->
  for_search_terms item pre m = (m1, Ok None) ->
  search_item (world m1) t 30 = (w2, Ok (before ++ c :: after)) ->
  (forall x, In x before -> normalize_name (Item.name x) <> normalize_name item) ->
  normalize_name (Item.name c) = normalize_name item ->
  In d after ->
  normalize_name (Item.name d) = normalize_name item ->
  Item.is_owned d <> Item.is_owned c ->
  check_ownership item m = (set_world m1 w2, Ok (Item.is_owned c)) /\
  check_ownership item m <> (set_world m1 w2, Ok (Item.is_owned d)).
Proof.
  intros Hterms Hpre Hsearch Hb Hc _ _ Hdiff.
  assert (Hv : check_ownership item m = (set_world m1 w2, Ok (Item.is_owned c)))
    by (eapply check_ownership_first_exact; eassumption).
  rewrite Hv. split; [reflexivity|]. intros H. apply Hdiff. congruence.
Qed.

(** Two results named like the item, the owned one first: the verdict is
    [True]. *)
Lemma exact_tie_goes_to_the_earliest_witness :
  let c := candidate "Lone Wolf" true in
  let d := candidate "LONE WOLF" false in
  let results := [candidate "LONE WOLF - UNIFORM" true; c; d] in
  let E := scripted 0 (answers "Lone Wolf" results) in
  @check_ownership ascii_data nat E (py "Lone Wolf") (init 0)
    = (set_world (init 0) 0, Ok (Item.is_owned c)) /\
  @check_ownership ascii_data nat E (py "Lone Wolf") (init 0)
    <> (set_world (init 0) 0, Ok (Item.is_owned d)).
Proof.
  intros c d results E.
  apply (@exact_tie_goes_to_the_earliest ascii_data nat E
           (init 0) (init 0) (py "Lone Wolf") [] (py "Lone Wolf") [] 0
           [candidate "LONE WOLF - UNIFORM" true] [d] c d).
  - reflexivity.
  - reflexivity.
  - reflexivity.
  - intros x [<-|[]]. vm_compute. discriminate.
  - reflexivity.
  - left. reflexivity.
  - reflexivity.
  - discriminate.
Defined.

(** The partial pass, as the code has it.  When the results of a term
    hold no candidate whose
    normalized name is the normalized item name, a candidate qualifies in
    the partial pass iff the normalized item name [target] is a substring of
    its normalized name (the empty [target] is one), it is owned, and every
    word of [target] is one of its words.  The resolver returns [True] at
    that term when a candidate qualifies and goes on to the next term when
    none does.  "RED" does not match "INFRARED SCOPE"; "BLACK ICE" matches
    an owned "BLACK ICE - R4-C". *)
Theorem partial_pass_word_subset {U : UnicodeData} {W : Type} {E : Env W}
        (m : machine W) (item t : str) (w : W) (results : list Item.t) :
  search_item (world m) t 30 = (w, Ok results) ->
  (forall c, In c results -> normalize_name (Item.name c) <> normalize_name item) ->
  let target := normalize_name item in
  let qualifies c :=
    (exists a b, normalize_name (Item.name c) = a ++ target ++ b) /\
    Item.is_owned c = true /\
    (forall x, In x (split target) -> In x (split (normalize_name (Item.name c)))) in
  (forall c, partial_match target c = true <-> qualifies c) /\
  ((exists c, In c results /\ qualifies c) ->
   forall rest, for_search_terms item (t :: rest) m = (set_world m w, Ok (Some true))) /\
  (~ (exists c, In c results /\ qualifies c) ->
   forall rest, for_search_terms item (t :: rest) m
                = for_search_terms item rest (set_world m w)) /\
  @partial_match ascii_data (py "RED") (candidate "INFRARED SCOPE" true) = false /\
  @partial_match ascii_data (py "BLACK ICE") (candidate "BLACK ICE - R4-C" true) = true.
Proof.
  intros Hsearch Hexact target qualifies.
  assert (Hq : forall c, partial_match target c = true <-> qualifies c)
    by (intros c; apply partial_match_spec).
  assert (Hpass : partial_pass target results = true <->
                  exists c, In c results /\ qualifies c).
  { rewrite partial_pass_spec. split; intros [c [Hc H]]; exists c; split;
      try assumption; apply Hq; exact H. }
  split; [exact Hq|]. split; [|split; [|split; reflexivity]].
  - intros H rest. rewrite for_search_terms_step, Hsearch.
    destruct results as [|r rs]; [destruct H as [c [[] _]]|].
    rewrite (exact_pass_none _ Hexact).
    apply Hpass in H. fold target. rewrite H. reflexivity.
  - intros H rest. rewrite for_search_terms_step, Hsearch.
    destruct results as [|r rs]; [reflexivity|].
    rewrite (exact_pass_none _ Hexact). fold target.
    destruct (partial_pass target (r :: rs)) eqn:Hp; [|reflexivity].
    exfalso. apply H. apply Hpass. reflexivity.
Qed.

(** The item "Black Ice" against the single owned result
    "BLACK ICE - R4-C". *)
Lemma partial_pass_word_subset_witness :
  let results := [candidate "BLACK ICE - R4-C" true] in
  let E := scripted 0 (answers "Black Ice" results) in
  let target := @normalize_name ascii_data (py "Black Ice") in
  let qualifies c :=
    (exists a b, @normalize_name ascii_data (Item.name c) = a ++ target ++ b) /\
    Item.is_owned c = true /\
    (forall x, In x (@split ascii_data target) ->
               In x (@split ascii_data (@normalize_name ascii_data (Item.name c)))) in
  (forall c, @partial_match ascii_data target c = true <-> qualifies c) /\
  ((exists c, In c results /\ qualifies c) ->
   forall rest, @for_search_terms ascii_data nat E (py "Black Ice") (py "Black Ice" :: rest) (init 0)
                = (set_world (init 0) 0, Ok (Some true))) /\
  (~ (exists c, In c results /\ qualifies c) ->
   forall rest, @for_search_terms ascii_data nat E (py "Black Ice") (py "Black Ice" :: rest) (init 0)
                = @for_search_terms ascii_data nat E (py "Black Ice") rest (set_world (init 0) 0)) /\
  @partial_match ascii_data (py "RED") (candidate "INFRARED SCOPE" true) = false /\
  @partial_match ascii_data (py "BLACK ICE") (candidate "BLACK ICE - R4-C" true) = true.
Proof.
  intros results E target qualifies.
  apply (@partial_pass_word_subset ascii_data nat E (init 0)
           (py "Black Ice") (py "Black Ice") 0 results).
  - reflexivity.
  - intros c [<-|[]]. vm_compute. discriminate.
Defined.

(** C2.  A candidate is to qualify in the partial pass only when the
    normalized item name is a non-empty substring of its normalized name.
    The code, which means to refuse what is "just a substring match", has
    no test for the empty name: "!" normalizes to the empty string, which
    is a substring of every name and has no word, so any owned candidate
    qualifies and the resolver returns [True], where the specification has
    no qualifying candidate. *)
Lemma empty_target_matches_everything :
  let c := candidate "ANYTHING" true in
  let target := @normalize_name ascii_data (py "!") in
  target = [] /\
  @partial_match ascii_data target c = true /\
  @spec_qualifies ascii_data target c = false /\
  @check_ownership ascii_data nat (scripted 0 (answers "!" [c])) (py "!") (init 0)
    = (init 0, Ok true).
Proof. repeat split. Qed.

(** C5.  A term without results hands over to the next term, for every
    item and every provider.  For "Ace's Hat", when the search for the name
    itself returns nothing and the search for "Aces Hat" returns one owned
    candidate "ACES HAT", the verdict is [True]. *)
Theorem empty_results_try_next_term {W : Type} {E : Env W}
        (m : machine W) (w1 w2 : W) (c : Item.t) :
  search_item (world m) (py "Ace's Hat") 30 = (w1, Ok []) ->
  search_item w1 (py "Aces Hat") 30 = (w2, Ok [c]) ->
  Item.name c = py "ACES HAT" ->
  Item.is_owned c = true ->
  (forall (U : UnicodeData) (item t : str) (rest : list str)
          (m0 : machine W) (w : W),
      search_item (world m0) t 30 = (w, Ok []) ->
      @for_search_terms U W E item (t :: rest) m0
      = @for_search_terms U W E item rest (set_world m0 w)) /\
  @get_search_terms ascii_data (py "Ace's Hat")
    = [py "Ace's Hat"; py "Aces Hat"; py "Hat"; py "Aces Hat"] /\
  @check_ownership ascii_data W E (py "Ace's Hat") m = (set_world m w2, Ok true).
Proof.
  intros H1 H2 Hname Howned.
  assert (Hstep : forall (U : UnicodeData) (item t : str) (rest : list str)
                         (m0 : machine W) (w : W),
      search_item (world m0) t 30 = (w, Ok []) ->
      @for_search_terms U W E item (t :: rest) m0
      = @for_search_terms U W E item rest (set_world m0 w)).
  { intros U item t rest m0 w H. rewrite for_search_terms_step, H. reflexivity. }
  split; [exact Hstep|]. split; [reflexivity|].
  rewrite check_ownership_unfold.
  change (@get_search_terms ascii_data (py "Ace's Hat"))
    with [py "Ace's Hat"; py "Aces Hat"; py "Hat"; py "Aces Hat"].
  rewrite (Hstep _ _ _ _ _ _ H1), for_search_terms_step. simpl world. rewrite H2.
  unfold exact_pass. rewrite Hname.
  change (str_eqb (@normalize_name ascii_data (py "ACES HAT"))
                  (@normalize_name ascii_data (py "Ace's Hat"))) with true.
  cbv iota. rewrite Howned. destruct m; reflexivity.
Qed.

(** The provider that knows "Aces Hat" only. *)
Lemma empty_results_try_next_term_witness :
  let E := scripted 0 (answers "Aces Hat" [candidate "ACES HAT" true]) in
  (forall (U : UnicodeData) (item t : str) (rest : list str)
          (m0 : machine nat) (w : nat),
      search_item (world m0) t 30 = (w, Ok []) ->
      @for_search_terms U nat E item (t :: rest) m0
      = @for_search_terms U nat E item rest (set_world m0 w)) /\
  @get_search_terms ascii_data (py "Ace's Hat")
    = [py "Ace's Hat"; py "Aces Hat"; py "Hat"; py "Aces Hat"] /\
  @check_ownership ascii_data nat E (py "Ace's Hat") (init 0)
    = (set_world (init 0) 0, Ok true).
Proof.
  intros E.
  apply (@empty_results_try_next_term nat E (init 0) 0 0 (candidate "ACES HAT" true));
    reflexivity.
Defined.

(* ================================================================= *)
(** ** Dictionaries *)

Lemma distinct_NoDup (ks : list str) : distinct ks = true <-> NoDup ks.
Proof.
  induction ks as [|k ks IH]; simpl.
  - split; [constructor | reflexivity].
  - rewrite andb_true_iff, negb_true_iff, IH. split.
    + intros [Hk Hd]. constructor; [|exact Hd].
      intros Hin. apply mem_In in Hin. congruence.
    + intros H. inversion H as [|? ? Hk Hd]; subst. split; [|exact Hd].
      destruct (mem k ks) eqn:Hm; [|reflexivity].
      apply mem_In in Hm. contradiction.
Qed.

Lemma sum_len_entries (d : dict (list str)) : sum_len d = length (entries d).
Proof.
  unfold sum_len, entries, values.
  induction d as [|[k l] d IH]; simpl; [reflexivity|].
  rewrite length_app, length_map, IH. reflexivity.
Qed.

Lemma entries_app (d1 d2 : dict (list str)) :
  entries (d1 ++ d2) = entries d1 ++ entries d2.
Proof. unfold entries. apply flat_map_app. Qed.

(** Appending under a key that is there adds one entry and no key. *)
Lemma dict_append_present (k x : str) (d : dict (list str)) :
  In k (keys d) ->
  exists d', dict_append k x d = Some d' /\
             keys d' = keys d /\
             Permutation (entries d') (entries d ++ [(k, x)]).
Proof.
  induction d as [|[k' l] d IH]; simpl; [intros []|].
  destruct (str_eqb k' k) eqn:Hk.
  - intros _. apply str_eqb_eq in Hk. subst k'.
    eexists. split; [reflexivity|]. split; [reflexivity|].
    unfold entries. simpl. rewrite map_app. simpl.
    rewrite <- !app_assoc. apply Permutation_app_head. simpl.
    apply Permutation_cons_append.
  - intros [E|Hin]; [subst k'; rewrite str_eqb_refl in Hk; discriminate|].
    destruct (IH Hin) as [d' [-> [Hkeys Hperm]]]. simpl.
    eexists. split; [reflexivity|]. split; [simpl; f_equal; exact Hkeys|].
    unfold entries in *. simpl. rewrite <- app_assoc.
    apply Permutation_app_head. exact Hperm.
Qed.

(** Setting a key that is not there puts it last. *)
Lemma dict_set_fresh {V} (k : str) (v : V) (d : dict V) :
  ~ In k (keys d) -> dict_set k v d = d ++ [(k, v)].
Proof.
  induction d as [|[k' v'] d IH]; simpl; [reflexivity|].
  intros H. destruct (str_eqb k' k) eqn:Hk.
  - apply str_eqb_eq in Hk. subst. exfalso. apply H. left. reflexivity.
  - rewrite IH; [reflexivity|]. intros Hin. apply H. right. exact Hin.
Qed.

Lemma verdicts_app (out : list line) (l : line) :
  verdicts (out ++ [l]) = verdicts out + (if is_verdict l then 1 else 0).
Proof.
  unfold verdicts. rewrite filter_app, length_app. simpl.
  destruct (is_verdict l); reflexivity.
Qed.

Lemma stopped_app (out : list line) (l : line) :
  stopped (out ++ [l]) = stopped out || is_stop l.
Proof.
  unfold stopped. rewrite existsb_app. simpl. rewrite orb_false_r. reflexivity.
Qed.

(* ================================================================= *)
(** ** The driver *)

Section Driver.
Context {U : UnicodeData} {W : Type} {E : Env W}.

(** The resolver touches nothing of the machine but the world. *)
Lemma for_search_terms_world (item : str) (terms : list str) (m : machine W) :
  exists w r, for_search_terms item terms m = (set_world m w, r).
Proof.
  revert m; induction terms as [|t terms IH]; intros m.
  - exists (world m), (Ok None). destruct m; reflexivity.
  - rewrite for_search_terms_step.
    destruct (search_item (world m) t 30) as [w [[|r rs]|e]].
    + destruct (IH (set_world m w)) as [w' [r' H]]. exists w', r'. exact H.
    + destruct (exact_pass (normalize_name item) (r :: rs)); [eauto|].
      destruct (partial_pass (normalize_name item) (r :: rs)); [eauto|].
      destruct (IH (set_world m w)) as [w' [r' H]]. exists w', r'. exact H.
    + eauto.
Qed.

Lemma check_ownership_world (item : str) (m : machine W) :
  exists w r, check_ownership item m = (set_world m w, r).
Proof.
  rewrite check_ownership_unfold.
  destruct (for_search_terms_world item (get_search_terms item) m) as [w [r ->]].
  destruct r as [[b|]|e]; eauto.
Qed.

(** The body of the loop over the items, case by case. *)
Lemma check_item_step (category item : str) (checked total_items : nat)
      (m : machine W) :
  check_item category item checked total_items m =
    let after_verdict := fun m2 : machine W =>
      let (w, interrupted) := time_sleep (world m2) in
      if interrupted
      then (add_line SaysStopped (set_world m2 w), Ok Returned)
      else (set_world m2 w, Ok Continue) in
    let on_error := fun m1 : machine W =>
      match dict_append category item (missing_items m1) with
      | Some d => (set_missing d (add_line SaysError m1), Ok Continue)
      | None => (add_line SaysError m1, Raise Exception)
      end in
    match check_ownership item
            (add_line (Checking checked total_items (firstn 60 item)) m) with
    | (m1, Ok true) =>
        match dict_append category item (owned_items m1) with
        | Some d => after_verdict (add_line SaysOwned (set_owned d m1))
        | None => on_error m1
        end
    | (m1, Ok false) =>
        match dict_append category item (missing_items m1) with
        | Some d => after_verdict (add_line SaysMissing (set_missing d m1))
        | None => on_error m1
        end
    | (m1, Raise KeyboardInterrupt) => (add_line SaysStopped m1, Ok Returned)
    | (m1, Raise Exception) => on_error m1
    end.
Proof.
  unfold check_item, bind, try_except, print, ret, sleep,
    append_owned, append_missing.
  destruct (check_ownership item _) as [m1 [[|]|[|]]]; simpl.
  - destruct (dict_append category item (owned_items m1)) as [d|]; simpl.
    + destruct (time_sleep (world m1)) as [w [|]]; reflexivity.
    + destruct (dict_append category item (missing_items m1)); reflexivity.
  - destruct (dict_append category item (missing_items m1)) as [d|] eqn:Hd; simpl.
    + destruct (time_sleep (world m1)) as [w [|]]; reflexivity.
    + rewrite Hd. reflexivity.
  - destruct (dict_append category item (missing_items m1)); reflexivity.
  - reflexivity.
Qed.

Lemma progress_refl (m : machine W) : progress [] m m.
Proof.
  unfold progress. rewrite app_nil_r. simpl. repeat split; auto.
Qed.

Lemma progress_trans (d1 d2 : list (str * str)) (m m1 m2 : machine W) :
  progress d1 m m1 -> progress d2 m1 m2 -> progress (d1 ++ d2) m m2.
Proof.
  intros [Hc1 [Hp1 Hv1]] [Hc2 [Hp2 Hv2]]. unfold progress.
  split; [congruence|]. split.
  - rewrite Hp2. rewrite (app_assoc (entries (owned_items m1))).
    rewrite Hp1. rewrite <- !app_assoc. reflexivity.
  - rewrite Hv2, Hv1, length_app. lia.
Qed.

Lemma perm_owned (D O M : list (str * str)) (x : str * str) :
  Permutation D (O ++ [x]) -> Permutation (D ++ M) (O ++ M ++ [x]).
Proof.
  intros H. rewrite H, <- app_assoc.
  apply Permutation_app_head. apply Permutation_app_comm.
Qed.

Lemma perm_missing (D O M : list (str * str)) (x : str * str) :
  Permutation D (M ++ [x]) -> Permutation (O ++ D) (O ++ M ++ [x]).
Proof. intros H. rewrite H. reflexivity. Qed.

Ltac settle :=
  unfold progress; simpl; rewrite ?verdicts_app, ?stopped_app; simpl;
  rewrite ?app_nil_r, ?orb_false_r, ?orb_true_r;
  repeat split; auto; try discriminate; try lia.

(** One item: either the interrupt came before its verdict, and nothing was
    classified, or the item was classified once. *)
Lemma check_item_inv (c item : str) (checked total_items : nat) (m : machine W) :
  In c (keys (owned_items m)) -> In c (keys (missing_items m)) ->
  exists m' f done,
    check_item c item checked total_items m = (m', Ok f) /\
    (done = [] \/ done = [(c, item)]) /\
    keys (owned_items m') = keys (owned_items m) /\
    keys (missing_items m') = keys (missing_items m) /\
    progress done m m' /\
    (f = Continue -> done = [(c, item)] /\ stopped (stdout m') = stopped (stdout m)) /\
    (f = Returned -> stopped (stdout m') = true).
Proof.
  intros Ho Hm. rewrite check_item_step. cbv zeta.
  destruct (check_ownership_world item
              (add_line (Checking checked total_items (firstn 60 item)) m))
    as [w [r ->]].
  destruct (dict_append_present c item (owned_items m) Ho) as [dO [HdO [HkO HpO]]].
  destruct (dict_append_present c item (missing_items m) Hm) as [dM [HdM [HkM HpM]]].
  apply perm_owned with (M := entries (missing_items m)) in HpO.
  apply perm_missing with (O := entries (owned_items m)) in HpM.
  destruct r as [[|]|[|]]; simpl owned_items; simpl missing_items.
  - rewrite HdO. simpl world.
    destruct (time_sleep w) as [w' [|]].
    + exists (add_line SaysStopped
                (set_world (add_line SaysOwned
                   (set_owned dO (set_world (add_line (Checking checked total_items (firstn 60 item)) m) w))) w')),
        Returned, [(c, item)].
      settle.
    + exists (set_world (add_line SaysOwned
                   (set_owned dO (set_world (add_line (Checking checked total_items (firstn 60 item)) m) w))) w'),
        Continue, [(c, item)].
      settle.
  - rewrite HdM. simpl world.
    destruct (time_sleep w) as [w' [|]].
    + exists (add_line SaysStopped
                (set_world (add_line SaysMissing
                   (set_missing dM (set_world (add_line (Checking checked total_items (firstn 60 item)) m) w))) w')),
        Returned, [(c, item)].
      settle.
    + exists (set_world (add_line SaysMissing
                   (set_missing dM (set_world (add_line (Checking checked total_items (firstn 60 item)) m) w))) w'),
        Continue, [(c, item)].
      settle.
  - rewrite HdM.
    exists (set_missing dM
              (add_line SaysError
                 (set_world (add_line (Checking checked total_items (firstn 60 item)) m) w))),
      Continue, [(c, item)].
    settle.
  - exists (add_line SaysStopped
              (set_world (add_line (Checking checked total_items (firstn 60 item)) m) w)),
      Returned, [].
    settle.
Qed.

(** The loop over the items of a category classifies a prefix [done] of
    them; all of them unless the run was cancelled. *)
Lemma for_items_inv (c : str) (total_items : nat) (items : list str) :
  forall (checked : nat) (m : machine W),
    In c (keys (owned_items m)) -> In c (keys (missing_items m)) ->
    exists m' f checked' done todo,
      for_items c total_items items checked m = (m', Ok (f, checked')) /\
      items = done ++ todo /\
      keys (owned_items m') = keys (owned_items m) /\
      keys (missing_items m') = keys (missing_items m) /\
      progress (map (pair c) done) m m' /\
      (f = Continue -> todo = [] /\ stopped (stdout m') = stopped (stdout m)) /\
      (f = Returned -> stopped (stdout m') = true).
Proof.
  induction items as [|item rest IH]; intros checked m Ho Hm.
  - exists m, Continue, checked, [], []. simpl.
    repeat split; rewrite ?app_nil_r; auto; discriminate.
  - cbn [for_items]. unfold bind.
    destruct (@check_item_inv c item (S checked) total_items m Ho Hm)
      as [m1 [f [d1 [-> [Hd1 [Hk1 [Hk1' [Hp1 [Hcont Hret]]]]]]]]].
    destruct f.
    + destruct (Hcont eq_refl) as [-> Hs1].
      destruct (IH (S checked) m1) as
          [m2 [f2 [ck [done [todo [-> [-> [Hk2 [Hk2' [Hp2 [Hc2 Hr2]]]]]]]]]]];
        [rewrite Hk1; exact Ho | rewrite Hk1'; exact Hm |].
      exists m2, f2, ck, (item :: done), todo.
      split; [reflexivity|]. split; [reflexivity|].
      split; [congruence|]. split; [congruence|].
      split; [exact (progress_trans Hp1 Hp2)|].
      split; [|exact Hr2].
      intros Hf. destruct (Hc2 Hf) as [Ht Hs]. split; [exact Ht | congruence].
    + unfold ret. destruct Hd1 as [-> | ->].
      * exists m1, Returned, (S checked), [], (item :: rest).
        split; [reflexivity|]. split; [reflexivity|].
        split; [exact Hk1|]. split; [exact Hk1'|].
        split; [exact Hp1|]. split; [discriminate | exact Hret].
      * exists m1, Returned, (S checked), [item], rest.
        split; [reflexivity|]. split; [reflexivity|].
        split; [exact Hk1|]. split; [exact Hk1'|].
        split; [exact Hp1|]. split; [discriminate | exact Hret].
Qed.

Lemma entries_cons (c : str) (items : list str) (rest : dict (list str)) :
  entries ((c, items) :: rest) = map (pair c) items ++ entries rest.
Proof. reflexivity. Qed.

(** The loop over the categories classifies a prefix of the catalog. *)
Lemma for_categories_inv (total_items : nat) (cats : dict (list str)) :
  forall (checked : nat) (m : machine W),
    NoDup (keys cats) ->
    (forall k, In k (keys cats) ->
               ~ In k (keys (owned_items m)) /\ ~ In k (keys (missing_items m))) ->
    exists m' f done todo,
      for_categories total_items cats checked m = (m', Ok f) /\
      entries cats = done ++ todo /\
      progress done m m' /\
      (f = Continue -> todo = [] /\ stopped (stdout m') = stopped (stdout m)) /\
      (f = Returned -> stopped (stdout m') = true).
Proof.
  induction cats as [|[c items] rest IH]; intros checked m Hnd Hfresh.
  - exists m, Continue, [], []. simpl.
    repeat split; rewrite ?app_nil_r; auto; discriminate.
  - simpl in Hnd. inversion Hnd as [|? ? Hc Hnd']; subst.
    destruct (Hfresh c (or_introl eq_refl)) as [HcO HcM].
    cbn [for_categories]. unfold bind, reset_owned, reset_missing.
    simpl missing_items.
    rewrite (@dict_set_fresh _ c [] _ HcO), (@dict_set_fresh _ c [] _ HcM).
    set (m0 := set_missing (missing_items m ++ [(c, [])])
                 (set_owned (owned_items m ++ [(c, [])]) m)).
    assert (H0 : progress [] m m0).
    { unfold progress, m0. simpl. rewrite !entries_app. simpl.
      rewrite !app_nil_r. repeat split; auto. }
    destruct (@for_items_inv c total_items items checked m0) as
        [m1 [f [ck [done [todo [-> [-> [Hk1 [Hk1' [Hp1 [Hcont Hret]]]]]]]]]]].
    { unfold m0, keys. simpl. rewrite map_app. apply in_or_app. right. left. reflexivity. }
    { unfold m0, keys. simpl. rewrite map_app. apply in_or_app. right. left. reflexivity. }
    pose proof (progress_trans H0 Hp1) as Hp. simpl in Hp.
    rewrite entries_cons.
    destruct f.
    + destruct (Hcont eq_refl) as [-> Hs1]. rewrite app_nil_r in *.
      destruct (IH ck m1 Hnd') as [m2 [f2 [done2 [todo2 [-> [-> [Hp2 [Hc2 Hr2]]]]]]]].
      { intros k Hk. rewrite Hk1, Hk1'. unfold m0, keys. simpl.
        rewrite !map_app. simpl.
        destruct (Hfresh k (or_intror Hk)) as [HkO HkM].
        split; intros Hin; apply in_app_or in Hin;
          destruct Hin as [Hin | [<- | []]]; auto. }
      exists m2, f2, (map (pair c) done ++ done2), todo2.
      split; [reflexivity|].
      split; [rewrite app_assoc; reflexivity|].
      split; [exact (progress_trans Hp Hp2)|].
      split; [|exact Hr2].
      intros Hf. destruct (Hc2 Hf) as [Ht Hs2]. split; [exact Ht|].
      rewrite Hs2, Hs1. reflexivity.
    + exists m1, Returned, (map (pair c) done), (map (pair c) todo ++ entries rest).
      split; [reflexivity|].
      split; [rewrite map_app, <- app_assoc; reflexivity|].
      split; [exact Hp|].
      split; [discriminate|].
      intros _. rewrite Hret by reflexivity. reflexivity.
Qed.

(** A run on a fresh checker returns and leaves a prefix [done] of the
    catalog classified, one printed verdict for each; the whole catalog
    unless the run was cancelled. *)
Lemma find_missing_items_inv (w : W) (catalog : dict (list str)) :
  NoDup (keys catalog) ->
  exists m' done todo,
    find_missing_items catalog (init w) = (m', Ok tt) /\
    entries catalog = done ++ todo /\
    celebration_items m' = catalog /\
    Permutation (entries (owned_items m') ++ entries (missing_items m')) done /\
    verdicts (stdout m') = length done /\
    (stopped (stdout m') = false -> todo = []).
Proof.
  intros Hnd. unfold find_missing_items, bind, set_celebration, print, ret.
  set (m0 := add_line (Banner (sum_len catalog)) _).
  destruct (@for_categories_inv (sum_len catalog) catalog 0 m0 Hnd) as
      [m' [f [done [todo [-> [Hsplit [[Hc [Hp Hv]] [Hcont Hret]]]]]]]].
  { intros k _. unfold m0. simpl. auto. }
  exists m', done, todo. unfold m0 in *. simpl in *.
  repeat split; auto.
  intros Hs. destruct f; [apply Hcont; reflexivity|].
  rewrite Hret in Hs by reflexivity. discriminate.
Qed.

End Driver.

Lemma dict_append_get (k x : str) (d d' : dict (list str)) (l : list str) :
  dict_append k x d = Some d' -> dict_get k d = Some l ->
  dict_get k d' = Some (l ++ [x]).
Proof.
  revert d'; induction d as [|[k' l'] d IH]; intros d'; simpl; [discriminate|].
  destruct (str_eqb k' k) eqn:Hk.
  - intros H1 H2. injection H1 as <-. injection H2 as <-.
    simpl. rewrite Hk. reflexivity.
  - destruct (dict_append k x d) as [d0|]; simpl; [|discriminate].
    intros H1 H2. injection H1 as <-. simpl. rewrite Hk. apply IH; auto.
Qed.

(** The signal inside the [try].  On a catalog with distinct categories,
    when the run of a fresh
    checker was cancelled ("Stopped by user." was printed) after exactly
    [k] items had been processed ([k] verdicts were printed), the run
    returns normally, the owned and missing lists hold [k] entries in all,
    and these are the first [k] items of the catalog, each classified
    once: no later item is in either list. *)
Theorem cancellation_keeps_the_processed_prefix
        {U : UnicodeData} {W : Type} {E : Env W}
        (w : W) (catalog : dict (list str)) (k : nat) :
  distinct (keys catalog) = true ->
  stopped (stdout (fst (find_missing_items catalog (init w)))) = true ->
  verdicts (stdout (fst (find_missing_items catalog (init w)))) = k ->
  let m' := fst (find_missing_items catalog (init w)) in
  snd (find_missing_items catalog (init w)) = Ok tt /\
  sum_len (owned_items m') + sum_len (missing_items m') = k /\
  k <= sum_len catalog /\
  Permutation (entries (owned_items m') ++ entries (missing_items m'))
              (firstn k (entries catalog)).
Proof.
  intros Hd. apply distinct_NoDup in Hd.
  destruct (@find_missing_items_inv _ _ _ w catalog Hd) as
      [m1 [done [todo [-> [Hsplit [_ [Hperm [Hv _]]]]]]]].
  simpl fst. simpl snd. intros _ Hk m'. subst m'. rewrite Hv in Hk. subst k.
  split; [reflexivity|].
  rewrite !sum_len_entries, <- length_app, (Permutation_length Hperm), Hsplit.
  split; [reflexivity|]. split; [rewrite length_app; lia|].
  rewrite firstn_app, Nat.sub_diag, firstn_all. simpl. rewrite app_nil_r.
  exact Hperm.
Qed.

(** Ten items, the operator interrupts the pause after the third: three
    entries, the first three items of the catalog. *)
Lemma cancellation_keeps_the_processed_prefix_witness :
  let E := scripted 3 (answers "B" [candidate "B" true]) in
  let m' := fst (@find_missing_items ascii_data nat E ten_items (init 0)) in
  snd (@find_missing_items ascii_data nat E ten_items (init 0)) = Ok tt /\
  sum_len (owned_items m') + sum_len (missing_items m') = 3 /\
  3 <= sum_len ten_items /\
  Permutation (entries (owned_items m') ++ entries (missing_items m'))
              (firstn 3 (entries ten_items)).
Proof.
  intros E.
  apply (@cancellation_keeps_the_processed_prefix ascii_data nat E 0 ten_items 3).
  - reflexivity.
  - vm_compute. reflexivity.
  - vm_compute. reflexivity.
Defined.

(** The final state of that run: "A" and "C" are missing, "B" is owned,
    the seven items after "C" are in neither list. *)
Example run_cancelled_after_three :
  let E := scripted 3 (answers "B" [candidate "B" true]) in
  let m' := fst (@find_missing_items ascii_data nat E ten_items (init 0)) in
  owned_items m' = [(py "HEADGEAR", [py "B"]); (py "UNIFORMS", [])] /\
  missing_items m' = [(py "HEADGEAR", [py "A"]); (py "UNIFORMS", [py "C"])] /\
  filter (fun l => is_verdict l || is_stop l) (stdout m')
    = [SaysMissing; SaysOwned; SaysMissing; SaysStopped].
Proof. repeat split. Qed.

(* ----------------------------------------------------------------- *)
(** *** The signal at the item boundary *)

(** With a quiet console the print of the item is the plain print. *)
Lemma print_checking_quiet {W : Type} (l : line) (m : machine W) :
  @Interruptible.print_checking W quiet l m = print l m.
Proof. destruct m. reflexivity. Qed.

Section Boundary.
Context {U : UnicodeData} {W : Type} {E : Env W}.

Lemma check_item_quiet (category item : str) (checked total_items : nat)
      (m : machine W) :
  @Interruptible.check_item U W E quiet category item checked total_items m
  = check_item category item checked total_items m.
Proof.
  unfold Interruptible.check_item, check_item, bind.
  rewrite print_checking_quiet. reflexivity.
Qed.

Lemma for_items_quiet (category : str) (total_items : nat) (items : list str) :
  forall checked (m : machine W),
    @Interruptible.for_items U W E quiet category total_items items checked m
    = for_items category total_items items checked m.
Proof.
  induction items as [|item rest IH]; intros checked m; [reflexivity|].
  cbn [Interruptible.for_items for_items]. unfold bind.
  rewrite check_item_quiet.
  destruct (check_item category item (S checked) total_items m) as [m1 [[|]|e]];
    [apply IH | reflexivity | reflexivity].
Qed.

Lemma for_categories_quiet (total_items : nat) (celebration : dict (list str)) :
  forall checked (m : machine W),
    @Interruptible.for_categories U W E quiet total_items celebration checked m
    = for_categories total_items celebration checked m.
Proof.
  induction celebration as [|[category items] rest IH]; intros checked m;
    [reflexivity|].
  cbn [Interruptible.for_categories for_categories]. unfold bind.
  cbn [reset_owned reset_missing]. rewrite for_items_quiet.
  destruct (for_items category total_items items checked _) as [m1 [[[|] k]|e]];
    [apply IH | reflexivity | reflexivity].
Qed.

(** Without a signal outside the [try] the driver is the one above. *)
Lemma find_missing_items_quiet (celebration : dict (list str)) (m : machine W) :
  @Interruptible.find_missing_items U W E quiet celebration m
  = find_missing_items celebration m.
Proof.
  unfold Interruptible.find_missing_items, find_missing_items, bind.
  cbn [set_celebration print]. rewrite for_categories_quiet. reflexivity.
Qed.

(** A signal at the print of an item is outside the [try]: the body of the
    loop raises, with the lists and the output as they were. *)
Lemma check_item_interrupted {C : Console W}
      (category item : str) (checked total_items : nat) (m : machine W) (w : W) :
  at_checking (world m) = (w, true) ->
  Interruptible.check_item category item checked total_items m
  = (set_world m w, Raise KeyboardInterrupt).
Proof.
  intros H. unfold Interruptible.check_item, bind, Interruptible.print_checking.
  rewrite H. reflexivity.
Qed.

(** Nothing between the body and the caller of [find_missing_items]
    catches it. *)
Lemma for_items_interrupted {C : Console W}
      (category item : str) (rest : list str) (checked total_items : nat)
      (m : machine W) (w : W) :
  at_checking (world m) = (w, true) ->
  Interruptible.for_items category total_items (item :: rest) checked m
  = (set_world m w, Raise KeyboardInterrupt).
Proof.
  intros H. cbn [Interruptible.for_items]. unfold bind.
  rewrite (check_item_interrupted category item (S checked) total_items m H).
  reflexivity.
Qed.

End Boundary.

(** C6.  A cancellation signal that arrives at the item boundary after
    exactly [k] items is to make the run return without raising, with [k]
    entries in the owned and missing lists.  The code handles the signal
    in its [try]: ten items, the signal in the pause after the third, and
    the run returns with three entries.  The lines between two [try]
    blocks are not covered: with the signal at the print of the fourth
    item the three entries are there, but the run raises
    [KeyboardInterrupt] and prints no "Stopped by user.". *)
Theorem interrupt_at_the_item_boundary_escapes :
  let answer := answers "B" [candidate "B" true] in
  let in_pause :=
    @Interruptible.find_missing_items ascii_data nat (scripted 3 answer) quiet
      ten_items (init 0) in
  let at_print :=
    @Interruptible.find_missing_items ascii_data nat (scripted 0 answer) (signal_after 3)
      ten_items (init 0) in
  (snd in_pause = Ok tt /\
   stopped (stdout (fst in_pause)) = true /\
   sum_len (owned_items (fst in_pause)) + sum_len (missing_items (fst in_pause)) = 3) /\
  (snd at_print = Raise KeyboardInterrupt /\
   stopped (stdout (fst at_print)) = false /\
   sum_len (owned_items (fst at_print)) + sum_len (missing_items (fst at_print)) = 3 /\
   owned_items (fst at_print) = owned_items (fst in_pause) /\
   missing_items (fst at_print) = missing_items (fst in_pause)).
Proof. vm_compute. repeat split. Qed.



(** The whole run of that example. *)
Example run_with_a_broken_lookup :
  let E := scripted 0 (breaks_on "B") in
  let m' := fst (@find_missing_items ascii_data nat E
                   [(py "HEADGEAR", [py "A"; py "B"; py "C"])] (init 0)) in
  owned_items m' = [(py "HEADGEAR", [])] /\
  missing_items m' = [(py "HEADGEAR", [py "A"; py "B"; py "C"])] /\
  filter (fun l => is_verdict l || is_stop l) (stdout m')
    = [SaysMissing; SaysError; SaysMissing].
Proof. repeat split. Qed.

(* ================================================================= *)
(** ** The report *)

(** The totals of the report are the numbers of entries. *)
Lemma generate_report_totals {W : Type} {E : Env W} (self : machine W) :
  let s := report_summary (generate_report self) in
  total_celebration_items s = length (entries (celebration_items self)) /\
  total_owned s = length (entries (owned_items self)) /\
  total_missing s = length (entries (missing_items self)).
Proof. simpl. rewrite !sum_len_entries. auto. Qed.

(** An empty catalog has the percentage 0, and nothing is divided. *)
Lemma generate_report_empty {W : Type} {E : Env W} (self : machine W) :
  entries (celebration_items self) = [] ->
  completion_percentage (report_summary (generate_report self)) = PyInt 0.
Proof.
  intros H. simpl. rewrite sum_len_entries, H. reflexivity.
Qed.

(** C8, the code at the failing input.  A run over 160 items of which 23
    are owned: the totals are the counts, but the percentage is 14.37.
    The code multiplies the rounded quotient 23/160 by 100, which gives
    14.374999999999998; [round(100 * 23 / 160, 2)] is 14.38, in binary64
    (100 * 23 / 160 is exactly 14.375) and in exact arithmetic alike. *)
Theorem completion_percentage_23_of_160 :
  let E := scripted 0 owns_mine in
  let m' := fst (@find_missing_items ascii_data nat E pack_160 (init 0)) in
  let s := report_summary (@generate_report nat E m') in
  total_celebration_items s = 160 /\
  total_owned s = 23 /\
  total_missing s = 137 /\
  completion_percentage s = PyFloat (decimal2 1437) /\
  spec_percentage 23 160 = PyFloat (decimal2 1438) /\
  spec_hundredths 23 160 = 1438%Z /\
  completion_percentage s <> spec_percentage 23 160.
Proof.
  intros E m' s.
  assert (Hcode : completion_percentage s = PyFloat (decimal2 1437))
    by (vm_compute; reflexivity).
  assert (Hspec : spec_percentage 23 160 = PyFloat (decimal2 1438))
    by (vm_compute; reflexivity).
  repeat split; try (vm_compute; reflexivity).
  rewrite Hcode, Hspec. intros H.
  apply (f_equal (fun n => match n with
                           | PyFloat f => hundredths f
                           | PyInt _ => None
                           end)) in H.
  vm_compute in H. discriminate H.
Qed.

(* ================================================================= *)
(** ** Grouping by base name *)

Lemma skipn_startswith (sep s a b : str) :
  s = a ++ sep ++ b -> startswith sep (skipn (length a) s) = true.
Proof.
  intros ->. rewrite skipn_app, skipn_all, Nat.sub_diag. simpl.
  apply startswith_spec. exists b. reflexivity.
Qed.

(** [rfind_from] finds the last position where [sep] starts. *)
Lemma rfind_from_spec (sep s : str) :
  forall i,
    match rfind_from sep s i with
    | Some j =>
        exists n, j = i + n /\ n <= length s /\
                  startswith sep (skipn n s) = true /\
                  forall n', n < n' -> n' <= length s ->
                             startswith sep (skipn n' s) = false
    | None =>
        forall n, n <= length s -> startswith sep (skipn n s) = false
    end.
Proof.
  induction s as [|x s IH]; intros i.
  - simpl. destruct (startswith sep []) eqn:H0.
    + exists 0. repeat split; auto with arith. intros n' H1 H2. lia.
    + intros n Hn. replace n with 0 by lia. exact H0.
  - cbn [rfind_from]. specialize (IH (S i)).
    destruct (rfind_from sep s (S i)) as [j|].
    + destruct IH as [n [-> [Hn [Hs Hmax]]]].
      exists (S n). simpl. repeat split; auto with arith; try lia.
      intros [|n'] H1 H2; [lia|]. simpl. apply Hmax; lia.
    + destruct (startswith sep (x :: s)) eqn:Hx.
      * exists 0. repeat split; auto with arith.
        intros [|n'] H1 H2; [lia|]. simpl. apply IH. simpl in H2. lia.
      * intros [|n] Hn; [exact Hx|]. simpl. apply IH. simpl in Hn. lia.
Qed.

Lemma contains_skipn (sep s : str) :
  contains sep s = true <->
  exists n, n <= length s /\ startswith sep (skipn n s) = true.
Proof.
  rewrite contains_spec. split.
  - intros [a [b H]]. exists (length a). split.
    + rewrite H, length_app. lia.
    + apply (@skipn_startswith sep s a b H).
  - intros [n [Hn Hs]]. apply startswith_spec in Hs. destruct Hs as [t Ht].
    exists (firstn n s), t. rewrite <- Ht. symmetry. apply firstn_skipn.
Qed.

(** The base name: the part before the last separator, or the name. *)
Lemma base_name_spec (name : str) :
  (contains separator name = true ->
   exists tail,
     name = base_name name ++ separator ++ tail /\
     forall a b, name = a ++ separator ++ b -> length a <= length (base_name name)) /\
  (contains separator name = false -> base_name name = name).
Proof.
  unfold base_name, rsplit1, rfind. split; intros Hc; rewrite Hc; [|reflexivity].
  pose proof (rfind_from_spec separator name 0) as H.
  destruct (rfind_from separator name 0) as [j|].
  - destruct H as [n [-> [Hn [Hs Hmax]]]]. cbn [nth Nat.add].
    apply startswith_spec in Hs. destruct Hs as [tail Ht].
    exists tail. split.
    + rewrite <- Ht. symmetry. apply firstn_skipn.
    + intros a b Hab. rewrite length_firstn, Nat.min_l by exact Hn.
      destruct (Nat.le_gt_cases (length a) n) as [Hle|Hgt]; [exact Hle|].
      assert (Hlen : length a <= length name)
        by (rewrite Hab, length_app; lia).
      pose proof (@skipn_startswith _ _ _ _ Hab) as Hs. rewrite (Hmax _ Hgt Hlen) in Hs.
      discriminate.
  - apply contains_skipn in Hc. destruct Hc as [n [Hn Hs]].
    rewrite (H n Hn) in Hs. discriminate.
Qed.

Lemma mem_cons (x y : str) (l : list str) :
  mem x (y :: l) = str_eqb x y || mem x l.
Proof. reflexivity. Qed.

Lemma first_seen_In (x : str) (l : list str) : In x (first_seen l) <-> In x l.
Proof.
  induction l as [|y l IH]; simpl; [tauto|].
  rewrite filter_In, IH, negb_true_iff, str_eqb_neq. split.
  - intros [H | [H _]]; auto.
  - intros [H | H]; [auto|].
    destruct (str_eqb x y) eqn:E.
    + apply str_eqb_eq in E. auto.
    + apply str_eqb_neq in E. auto.
Qed.

Lemma first_seen_NoDup (l : list str) : NoDup (first_seen l).
Proof.
  induction l as [|y l IH]; simpl; constructor.
  - rewrite filter_In, negb_true_iff, str_eqb_neq. tauto.
  - apply NoDup_filter. exact IH.
Qed.

Lemma mem_first_seen (x : str) (l : list str) : mem x (first_seen l) = mem x l.
Proof.
  destruct (mem x l) eqn:H.
  - apply mem_In. apply first_seen_In. apply mem_In. exact H.
  - destruct (mem x (first_seen l)) eqn:H'; [|reflexivity].
    apply mem_In in H'. apply (proj1 (first_seen_In x l)) in H'.
    apply (proj2 (mem_In x l)) in H'. congruence.
Qed.

(** A value seen at the end is new or not. *)
Lemma first_seen_snoc (l : list str) (x : str) :
  first_seen (l ++ [x]) = if mem x l then first_seen l else first_seen l ++ [x].
Proof.
  induction l as [|y l IH]; [reflexivity|].
  simpl app. cbn [first_seen]. rewrite IH, mem_cons.
  destruct (str_eqb x y) eqn:Exy; simpl.
  - destruct (mem x l); [reflexivity|].
    rewrite filter_app. simpl. rewrite Exy. simpl. rewrite app_nil_r. reflexivity.
  - destruct (mem x l); [reflexivity|].
    rewrite filter_app. simpl. rewrite Exy. reflexivity.
Qed.

(** [dict_push] on a dictionary given by its keys. *)
Lemma dict_push_map (b x : str) (f : str -> list str) (bs : list str) :
  NoDup bs ->
  dict_push b x (map (fun k => (k, f k)) bs) =
    map (fun k => (k, f k ++ (if str_eqb b k then [x] else []))) bs
    ++ (if mem b bs then [] else [(b, [x])]).
Proof.
  induction bs as [|k bs IH]; intros Hnd; [reflexivity|].
  inversion Hnd as [|? ? Hk Hnd']; subst.
  simpl map. cbn [dict_push]. rewrite mem_cons, (str_eqb_sym k b).
  destruct (str_eqb b k) eqn:Ebk; simpl.
  - apply str_eqb_eq in Ebk. subst k. rewrite app_nil_r. f_equal.
    apply map_ext_in. intros k' Hk'.
    assert (Hne : str_eqb b k' = false)
      by (apply str_eqb_neq; intros ->; contradiction).
    rewrite Hne, app_nil_r. reflexivity.
  - rewrite app_nil_r, (IH Hnd'). reflexivity.
Qed.

Lemma dict_get_map {V} (f : str -> V) (k : str) (bs : list str) :
  In k bs -> dict_get k (map (fun b => (b, f b)) bs) = Some (f k).
Proof.
  induction bs as [|b bs IH]; intros Hin; [destruct Hin|].
  simpl. destruct (str_eqb b k) eqn:Eb.
  - apply str_eqb_eq in Eb. subst b. reflexivity.
  - destruct Hin as [->|Hin]; [rewrite str_eqb_refl in Eb; discriminate|].
    apply IH. exact Hin.
Qed.

(** The groups of a list: one for each base name, where it is first seen,
    holding the names with that base name in their order. *)
Lemma group_loop_spec (items pre : list str) :
  let groups l :=
    map (fun b => (b, filter (fun x => str_eqb (base_name x) b) l))
        (first_seen (map base_name l)) in
  group_loop items (groups pre) = groups (pre ++ items).
Proof.
  intros groups. revert pre. induction items as [|x items IH]; intros pre.
  - rewrite app_nil_r. reflexivity.
  - cbn [group_loop].
    replace (pre ++ x :: items) with ((pre ++ [x]) ++ items)
      by (rewrite <- app_assoc; reflexivity).
    rewrite <- IH. f_equal. unfold groups.
    rewrite (dict_push_map _ _ _ (first_seen_NoDup (map base_name pre))).
    rewrite (map_app base_name pre [x]).
    change (map base_name [x]) with [base_name x].
    rewrite first_seen_snoc, mem_first_seen.
    assert (Hmap : forall bs,
      map (fun k => (k, filter (fun y => str_eqb (base_name y) k) pre
                        ++ (if str_eqb (base_name x) k then [x] else []))) bs
      = map (fun b => (b, filter (fun y => str_eqb (base_name y) b) (pre ++ [x]))) bs).
    { intros bs. apply map_ext. intros k. rewrite filter_app. simpl.
      destruct (str_eqb (base_name x) k); reflexivity. }
    rewrite Hmap.
    destruct (mem (base_name x) (map base_name pre)) eqn:Hmem.
    + rewrite app_nil_r. reflexivity.
    + rewrite map_app. f_equal. simpl. rewrite filter_app. simpl.
      rewrite str_eqb_refl.
      assert (Hnone : filter (fun y => str_eqb (base_name y) (base_name x)) pre = []).
      { clear -Hmem. induction pre as [|y pre IH]; [reflexivity|].
        cbn [map] in Hmem. rewrite mem_cons in Hmem.
        apply orb_false_iff in Hmem. destruct Hmem as [H1 H2].
        simpl. rewrite str_eqb_sym, H1. apply IH. exact H2. }
      rewrite Hnone. reflexivity.
Qed.

(** C9.  The base name of a name with " - " in it is what comes before the
    last " - ", the base name of any other name is the name.  The groups
    are the base names in the order in which they are first seen; the
    group of a base name lists the names with that base name in the order
    of the input, so every name is in the group of its base name.  The
    three names of the example give "REDHAMMER STANDARD" with two members
    and "LONE WOLF" with one. *)
Theorem group_items_by_base_name_spec (items : list str) :
  (forall name,
      (contains separator name = true ->
       exists tail,
         name = base_name name ++ separator ++ tail /\
         forall a b, name = a ++ separator ++ b ->
                     length a <= length (base_name name)) /\
      (contains separator name = false -> base_name name = name)) /\
  group_items_by_base_name items =
    map (fun b => (b, filter (fun x => str_eqb (base_name x) b) items))
        (first_seen (map base_name items)) /\
  (forall name, In name items ->
      exists variants,
        dict_get (base_name name) (group_items_by_base_name items) = Some variants /\
        In name variants) /\
  group_items_by_base_name
    [py "REDHAMMER STANDARD - HEADGEAR"; py "REDHAMMER STANDARD - UNIFORM";
     py "LONE WOLF"]
  = [(py "REDHAMMER STANDARD",
      [py "REDHAMMER STANDARD - HEADGEAR"; py "REDHAMMER STANDARD - UNIFORM"]);
     (py "LONE WOLF", [py "LONE WOLF"])].
Proof.
  assert (Heq : group_items_by_base_name items =
    map (fun b => (b, filter (fun x => str_eqb (base_name x) b) items))
        (first_seen (map base_name items))).
  { unfold group_items_by_base_name. exact (group_loop_spec items []). }
  split; [exact base_name_spec|]. split; [exact Heq|]. split; [|reflexivity].
  intros name Hin. rewrite Heq.
  exists (filter (fun x => str_eqb (base_name x) (base_name name)) items).
  split.
  - apply (dict_get_map
             (fun b => filter (fun x => str_eqb (base_name x) b) items)).
    apply first_seen_In, in_map, Hin.
  - apply filter_In. split; [exact Hin | apply str_eqb_refl].
Qed.

(* ================================================================= *)
(** ** More on the normalizer and the term generator *)

Section NormalizerMore.
Context {U : UnicodeData}.

Lemma filter_kept_all (s : str) : forallb kept (filter kept s) = true.
Proof.
  apply forallb_forall. intros c Hc. apply filter_In in Hc. apply Hc.
Qed.

Lemma filter_kept_id (s : str) : forallb kept s = true -> filter kept s = s.
Proof.
  induction s as [|c s IH]; simpl; [reflexivity|].
  rewrite andb_true_iff. intros [Hc Hs]. rewrite Hc, IH by exact Hs. reflexivity.
Qed.

Lemma kept_no_special (s : str) :
  forallb kept s = true <-> re_search_special s = false.
Proof.
  unfold re_search_special. induction s as [|c s IH]; simpl; [tauto|].
  rewrite andb_true_iff, orb_false_iff, IH, <- kept_not_special, negb_true_iff.
  tauto.
Qed.

Lemma lstrip_id (s : str) :
  (forall c rest, s = c :: rest -> isspace c = false) -> lstrip s = s.
Proof.
  destruct s as [|c s]; intros H; simpl; [reflexivity|].
  rewrite (H c s eq_refl). reflexivity.
Qed.

Lemma rstrip_id (s : str) :
  (forall front c, s = front ++ [c] -> isspace c = false) -> rstrip s = s.
Proof.
  intros H. unfold rstrip. rewrite lstrip_id.
  - apply rev_involutive.
  - intros c rest Hr. apply (H (rev rest)).
    rewrite <- (rev_involutive s), Hr. reflexivity.
Qed.

(** Trimming a trimmed string changes nothing. *)
Lemma strip_strip (s : str) : strip (strip s) = strip s.
Proof.
  destruct (strip_spec s) as [lead [trail [_ [_ [_ [Hhead Hlast]]]]]].
  unfold strip at 1. rewrite (lstrip_id Hhead). apply rstrip_id. exact Hlast.
Qed.

Lemma strip_incl (s : str) (c : char) : In c (strip s) -> In c s.
Proof.
  destruct (strip_spec s) as [lead [trail [E _]]]. intros H.
  rewrite E. apply in_or_app. right. apply in_or_app. left. exact H.
Qed.

(** X1.  Normalizing twice is normalizing once on every name whose kept
    characters have an upper case made of kept characters that are their
    own upper case; so on every ASCII name.  The condition is on the
    characters of the name, under whatever table: the small j with caron,
    U+01F0, is a word character whose upper case is J followed by
    the combining caron U+030C, which is none, and a second pass drops the
    caron. *)
Theorem normalize_name_idempotent (s : str) :
  (forall c d, In c s -> kept c = true -> In d (toupper c) ->
               kept d = true /\ toupper d = [d]) ->
  normalize_name (normalize_name s) = normalize_name s.
Proof.
  intros Hchars.
  unfold normalize_name at 1. rewrite re_sub_special_filter.
  set (y := normalize_name s).
  assert (Hy : forall d, In d y -> kept d = true /\ toupper d = [d]).
  { intros d Hd. unfold y, normalize_name in Hd. apply strip_incl in Hd.
    unfold upper in Hd. apply in_flat_map in Hd. destruct Hd as [c [Hc Hd]].
    rewrite re_sub_special_filter in Hc. apply filter_In in Hc.
    apply (Hchars c d); tauto. }
  assert (H1 : filter kept y = y).
  { apply filter_kept_id, forallb_forall. intros d Hd. apply Hy, Hd. }
  assert (H2 : upper y = y).
  { unfold upper. clear H1. induction y as [|d y IH]; [reflexivity|].
    simpl. rewrite (proj2 (Hy d (or_introl eq_refl))). simpl. f_equal.
    apply IH. intros d' Hd'. apply Hy. right. exact Hd'. }
  rewrite H1, H2. unfold y, normalize_name. apply strip_strip.
Qed.

(** The characters of the words of a string are characters of the string. *)
Lemma split_from_incl (s cur w : str) (c : char) :
  In w (split_from cur s) -> In c w -> In c cur \/ In c s.
Proof.
  revert cur. induction s as [|x s IH]; intros cur; simpl.
  - destruct cur as [|y cur]; [intros []|].
    intros [<-|[]] Hc. left. apply in_rev. exact Hc.
  - destruct (isspace x).
    + destruct cur as [|y cur].
      * intros Hw Hc. destruct (IH [] Hw Hc) as [[]|H]. right. right. exact H.
      * intros [<-|Hw] Hc.
        -- left. apply in_rev. exact Hc.
        -- destruct (IH [] Hw Hc) as [[]|H]. right. right. exact H.
    + intros Hw Hc. destruct (IH (x :: cur) Hw Hc) as [[<-|H]|H]; auto.
Qed.

Lemma split_incl (s w : str) (c : char) : In w (split s) -> In c w -> In c s.
Proof.
  intros Hw Hc. destruct (split_from_incl s [] w c Hw Hc) as [[]|H]. exact H.
Qed.

(** The term list, case by case. *)
Lemma get_search_terms_cases (s : str) :
  get_search_terms s =
    if re_search_special s then
      s :: filter kept s ::
        match rev (split (filter kept s)) with
        | [] => []
        | [w] => [w]
        | w2 :: w1 :: _ => [w2; w1 ++ [space] ++ w2]
        end
    else [s].
Proof.
  unfold get_search_terms. destruct (re_search_special s) eqn:Hs.
  - rewrite (re_sub_special_changes _ Hs), re_sub_special_filter.
    destruct (rev (split (filter kept s))) as [|w2 [|w1 r]] eqn:Hr.
    + apply (f_equal (@rev str)) in Hr. rewrite rev_involutive in Hr.
      simpl in Hr. rewrite Hr. reflexivity.
    + apply (f_equal (@rev str)) in Hr. rewrite rev_involutive in Hr.
      simpl in Hr. rewrite Hr. reflexivity.
    + destruct (last_two _ Hr) as [Hl [Hk Hlen]]. rewrite Hl, Hk.
      replace (0 <? length (split (filter kept s))) with true
        by (symmetry; apply Nat.ltb_lt; lia).
      replace (2 <=? length (split (filter kept s))) with true
        by (symmetry; apply Nat.leb_le; lia).
      reflexivity.
  - rewrite (re_sub_special_id _ Hs), str_eqb_refl. reflexivity.
Qed.

(** X2.  Where the space is whitespace, every term after the first is free
    of special characters; the generator applied to such a term gives the
    term alone. *)
Theorem fallback_terms_are_clean (s t : str) :
  isspace space = true ->
  In t (tl (get_search_terms s)) ->
  re_search_special t = false /\ get_search_terms t = [t].
Proof.
  intros Hsp Ht.
  assert (Hclean : forallb kept t = true).
  { rewrite get_search_terms_cases in Ht.
    destruct (re_search_special s); [|destruct Ht].
    assert (Hword : forall w, In w (split (filter kept s)) -> forallb kept w = true).
    { intros w Hw. apply forallb_forall. intros c Hc.
      pose proof (split_incl _ _ _ Hw Hc) as H. apply filter_In in H. apply H. }
    simpl in Ht. destruct Ht as [<-|Ht]; [apply filter_kept_all|].
    destruct (rev (split (filter kept s))) as [|w2 [|w1 r]] eqn:Hr;
      [destruct Ht | |].
    - destruct Ht as [<-|[]]. apply Hword. apply in_rev. rewrite Hr. left. reflexivity.
    - assert (H2 : forallb kept w2 = true)
        by (apply Hword, in_rev; rewrite Hr; left; reflexivity).
      assert (H1 : forallb kept w1 = true)
        by (apply Hword, in_rev; rewrite Hr; right; left; reflexivity).
      destruct Ht as [<-|[<-|[]]]; [exact H2|].
      rewrite forallb_app, H1. simpl. rewrite H2, andb_true_r.
      unfold kept. rewrite Hsp. rewrite orb_true_r. reflexivity. }
  apply kept_no_special in Hclean. split; [exact Hclean|].
  rewrite get_search_terms_cases, Hclean. reflexivity.
Qed.

End NormalizerMore.

(** The upper case of an ASCII letter or digit, of the underscore, of
    whitespace and of the dash is kept and is its own upper case. *)
Lemma ascii_toupper_kept (c d : char) :
  @kept ascii_data c = true -> In d (@toupper ascii_data c) -> @kept ascii_data d = true.
Proof.
  unfold kept, ascii_data. simpl. unfold ascii_toupper.
  destruct (between 97 122 c) eqn:Hl; intros Hk [<-|[]]; [|exact Hk].
  unfold between in Hl. apply andb_true_iff in Hl. destruct Hl as [H1 H2].
  apply N.leb_le in H1, H2.
  assert (Hu : between 65 90 (c - 32) = true).
  { unfold between. apply andb_true_iff. split; apply N.leb_le; lia. }
  unfold ascii_isalnum. rewrite Hu. rewrite orb_true_r. reflexivity.
Qed.

Lemma ascii_toupper_fixed (c d : char) :
  In d (@toupper ascii_data c) -> @toupper ascii_data d = [d].
Proof.
  unfold ascii_data. simpl. unfold ascii_toupper.
  destruct (between 97 122 c) eqn:Hl; intros [<-|[]].
  - unfold between in Hl. apply andb_true_iff in Hl. destruct Hl as [H1 H2].
    apply N.leb_le in H1, H2.
    assert (Hu : between 97 122 (c - 32) = false).
    { unfold between. apply andb_false_iff. left. apply N.leb_gt. lia. }
    rewrite Hu. reflexivity.
  - rewrite Hl. reflexivity.
Qed.

(** Under [caron_data] an ASCII character is treated as under
    [ascii_data]. *)
Lemma caron_data_ascii (c : char) :
  (c < 128)%N ->
  @kept caron_data c = @kept ascii_data c /\
  @toupper caron_data c = @toupper ascii_data c.
Proof.
  intros Hc. unfold kept, caron_data, ascii_data. simpl.
  assert (H1 : (c =? 496)%N = false) by (apply N.eqb_neq; lia).
  rewrite H1. simpl. split; reflexivity.
Qed.

(** An ASCII name under a table that has the j with caron: the condition
    holds of the characters of the name. *)
Lemma normalize_name_idempotent_witness :
  @normalize_name caron_data (@normalize_name caron_data (py " Ace's Hat - r4-c! "))
  = @normalize_name caron_data (py " Ace's Hat - r4-c! ").
Proof.
  apply (@normalize_name_idempotent caron_data (py " Ace's Hat - r4-c! ")).
  intros c d Hc Hk Hd.
  assert (Hascii : (c < 128)%N).
  { vm_compute in Hc.
    repeat (destruct Hc as [<-|Hc]; [reflexivity|]). destruct Hc. }
  destruct (caron_data_ascii Hascii) as [Ek Eu].
  rewrite Ek in Hk. rewrite Eu in Hd.
  pose proof (@ascii_toupper_kept c d Hk Hd) as Hkd.
  pose proof (@ascii_toupper_fixed c d Hd) as Hfd.
  assert (Hd128 : (d < 128)%N).
  { unfold ascii_data in Hd. simpl in Hd. unfold ascii_toupper in Hd.
    destruct (between 97 122 c); destruct Hd as [<-|[]]; lia. }
  destruct (caron_data_ascii Hd128) as [Ek' Eu'].
  rewrite Ek', Eu'. split; assumption.
Defined.

(** Under the same table the name made of the j with caron changes at
    each of two passes. *)
Example normalize_name_drops_the_caron :
  @normalize_name caron_data [496%N] = [74%N; 780%N] /\
  @normalize_name caron_data [74%N; 780%N] = [74%N].
Proof. split; reflexivity. Qed.

Lemma fallback_terms_are_clean_witness :
  @re_search_special ascii_data (py "Hat") = false /\
  @get_search_terms ascii_data (py "Hat") = [py "Hat"].
Proof.
  apply (@fallback_terms_are_clean ascii_data (py "Ace's Hat") (py "Hat")).
  - reflexivity.
  - right. left. reflexivity.
Defined.

(* ================================================================= *)
(** ** More on the resolver *)

Section ResolverMore.
Context {U : UnicodeData} {W : Type} {E : Env W}.

Lemma exact_pass_some (target : str) (results : list Item.t) (b : bool) :
  exact_pass target results = Some b ->
  exists c, In c results /\ normalize_name (Item.name c) = target /\
            Item.is_owned c = b.
Proof.
  induction results as [|x results IH]; simpl; [discriminate|].
  destruct (str_eqb (normalize_name (Item.name x)) target) eqn:Hx.
  - intros H. injection H as <-. apply str_eqb_eq in Hx. exists x. auto.
  - intros H. destruct (IH H) as [c [Hc H']]. exists c. auto.
Qed.

(** A verdict [True] of the loop over the terms comes from the search
    the loop made on the term at which it stopped. *)
Lemma for_search_terms_sound (item : str) (terms : list str) :
  forall m m',
    for_search_terms item terms m = (m', Ok (Some true)) ->
    exists pre t post m1 results c,
      terms = pre ++ t :: post /\
      for_search_terms item pre m = (m1, Ok None) /\
      search_item (world m1) t 30 = (world m', Ok results) /\
      m' = set_world m1 (world m') /\
      In c results /\
      Item.is_owned c = true /\
      (exists a b, normalize_name (Item.name c) = a ++ normalize_name item ++ b) /\
      (forall x, In x (split (normalize_name item)) ->
                 In x (split (normalize_name (Item.name c)))).
Proof.
  induction terms as [|t terms IH]; intros m m'; [discriminate|].
  rewrite for_search_terms_step.
  destruct (search_item (world m) t 30) as [w' [[|r rs]|e]] eqn:Hs.
  - intros H.
    destruct (IH _ _ H) as [pre [t' [post [m1 [res [c [Ht [Hpre H']]]]]]]].
    exists (t :: pre), t', post, m1, res, c.
    split; [rewrite Ht; reflexivity|]. split; [|exact H'].
    rewrite for_search_terms_step, Hs. exact Hpre.
  - destruct (exact_pass (normalize_name item) (r :: rs)) as [b|] eqn:He.
    + intros H. injection H as <- ->.
      destruct (exact_pass_some _ _ He) as [c [Hc [Hn Ho]]].
      exists [], t, terms, m, (r :: rs), c.
      split; [reflexivity|]. split; [reflexivity|]. split; [exact Hs|].
      split; [reflexivity|]. split; [exact Hc|].
      split; [exact Ho|]. rewrite Hn. split; [|auto].
      exists [], []. rewrite app_nil_r. reflexivity.
    + destruct (partial_pass (normalize_name item) (r :: rs)) eqn:Hp.
      * intros H. injection H as <-.
        apply partial_pass_spec in Hp. destruct Hp as [c [Hc Hm]].
        apply partial_match_spec in Hm. destruct Hm as [Hsub [Ho Hw]].
        exists [], t, terms, m, (r :: rs), c.
        split; [reflexivity|]. split; [reflexivity|]. split; [exact Hs|].
        split; [reflexivity|]. auto.
      * intros H.
        destruct (IH _ _ H) as [pre [t' [post [m1 [res [c [Ht [Hpre H']]]]]]]].
        exists (t :: pre), t', post, m1, res, c.
        split; [rewrite Ht; reflexivity|]. split; [|exact H'].
        rewrite for_search_terms_step, Hs, He, Hp. exact Hpre.
  - discriminate.
Qed.

(** X3.  The resolver answers [True] only on the strength of a result its
    own search returned: the loop ran over the terms [pre] without a
    verdict, and the search it then made on the next term [t], in the
    world it had reached, returned an owned candidate whose normalized name
    contains the normalized item name and all of its words; the resolver
    ends in the world that search left. *)
Theorem owned_verdict_has_an_owned_candidate (item : str) (m m' : machine W) :
  check_ownership item m = (m', Ok true) ->
  exists pre t post m1 results c,
    get_search_terms item = pre ++ t :: post /\
    for_search_terms item pre m = (m1, Ok None) /\
    search_item (world m1) t 30 = (world m', Ok results) /\
    m' = set_world m1 (world m') /\
    In c results /\
    Item.is_owned c = true /\
    (exists a b, normalize_name (Item.name c) = a ++ normalize_name item ++ b) /\
    (forall x, In x (split (normalize_name item)) ->
               In x (split (normalize_name (Item.name c)))).
Proof.
  rewrite check_ownership_unfold.
  destruct (for_search_terms item (get_search_terms item) m)
    as [m1 [[[|]|]|e]] eqn:H; try discriminate.
  intros Hm. injection Hm as <-. exact (for_search_terms_sound _ _ _ H).
Qed.

(** X4.  The resolver catches nothing: when the search raises on the term
    it has reached, the resolution ends with that exception, in the world
    the failed call left, and the terms after it are not tried. *)
Theorem lookup_errors_end_the_resolution
        (m m1 : machine W) (item : str) (pre : list str) (t : str)
        (post : list str) (w2 : W) (e : exn) :
  get_search_terms item = pre ++ t :: post ->
  for_search_terms item pre m = (m1, Ok None) ->
  search_item (world m1) t 30 = (w2, Raise e) ->
  check_ownership item m = (set_world m1 w2, Raise e).
Proof.
  intros Hterms Hpre Hs.
  rewrite check_ownership_unfold, Hterms, for_search_terms_app, Hpre,
    for_search_terms_step, Hs. reflexivity.
Qed.

Lemma get_search_terms_length (s : str) :
  1 <= length (get_search_terms s) <= 4.
Proof.
  rewrite get_search_terms_cases. destruct (re_search_special s).
  - destruct (rev (split (filter kept s))) as [|w2 [|w1 r]]; simpl; lia.
  - simpl. lia.
Qed.

Lemma logged_for_search_terms (item : str) (terms : list str) :
  forall m : machine (W * list str),
    exists k,
      k <= length terms /\ (terms <> [] -> 1 <= k) /\
      snd (world (fst (@for_search_terms U _ (logged E) item terms m)))
      = snd (world m) ++ firstn k terms.
Proof.
  induction terms as [|t terms IH]; intros m.
  - exists 0. simpl. rewrite app_nil_r. repeat split; auto. congruence.
  - rewrite for_search_terms_step. simpl search_item.
    destruct (search_item (fst (world m)) t 30) as [w' [[|r rs]|e]].
    + destruct (IH (set_world m (w', snd (world m) ++ [t]))) as [k [Hk [_ Hlog]]].
      exists (S k). simpl. split; [lia|]. split; [lia|].
      rewrite Hlog. simpl. rewrite <- app_assoc. reflexivity.
    + destruct (exact_pass (normalize_name item) (r :: rs)).
      * exists 1. simpl. repeat split; lia.
      * destruct (partial_pass (normalize_name item) (r :: rs)).
        -- exists 1. simpl. repeat split; lia.
        -- destruct (IH (set_world m (w', snd (world m) ++ [t]))) as [k [Hk [_ Hlog]]].
           exists (S k). simpl. split; [lia|]. split; [lia|].
           rewrite Hlog. simpl. rewrite <- app_assoc. reflexivity.
    + exists 1. simpl. repeat split; lia.
Qed.

(** X5.  The queries the resolver sends for an item are the first [k] of
    its search terms, in their order, for some [k] from 1 to 4. *)
Theorem lookups_follow_the_terms (item : str) (m : machine (W * list str)) :
  exists k,
    1 <= k <= 4 /\ k <= length (get_search_terms item) /\
    snd (world (fst (@check_ownership U _ (logged E) item m)))
    = snd (world m) ++ firstn k (get_search_terms item).
Proof.
  destruct (logged_for_search_terms item (get_search_terms item) m)
    as [k [Hk [Hpos Hlog]]].
  pose proof (get_search_terms_length item) as Hlen.
  exists k. split; [|split; [exact Hk|]].
  - split; [|lia]. apply Hpos. intros H. rewrite H in Hlen. simpl in Hlen. lia.
  - rewrite check_ownership_unfold.
    destruct (@for_search_terms U _ (logged E) item (get_search_terms item) m)
      as [m1 [[b|]|e]]; exact Hlog.
Qed.

End ResolverMore.

(** "Ace's Hat": the search for the name itself returns nothing, the
    search for "Aces Hat" returns an owned "ACES HAT". *)
Lemma owned_verdict_has_an_owned_candidate_witness :
  let E := scripted 0 (answers "Aces Hat" [candidate "ACES HAT" true]) in
  exists pre t post m1 results c,
    @get_search_terms ascii_data (py "Ace's Hat") = pre ++ t :: post /\
    @for_search_terms ascii_data nat E (py "Ace's Hat") pre (init 0) = (m1, Ok None) /\
    @search_item nat E (world m1) t 30 = (world (init 0), Ok results) /\
    init 0 = set_world m1 (world (init 0)) /\
    In c results /\
    Item.is_owned c = true /\
    (exists a b, @normalize_name ascii_data (Item.name c)
                 = a ++ @normalize_name ascii_data (py "Ace's Hat") ++ b) /\
    (forall x, In x (@split ascii_data (@normalize_name ascii_data (py "Ace's Hat"))) ->
               In x (@split ascii_data (@normalize_name ascii_data (Item.name c)))).
Proof.
  intros E.
  apply (@owned_verdict_has_an_owned_candidate ascii_data nat E
           (py "Ace's Hat") (init 0) (init 0)).
  reflexivity.
Defined.

Lemma lookup_errors_end_the_resolution_witness :
  @check_ownership ascii_data nat (scripted 0 (breaks_on "Aces Hat"))
    (py "Ace's Hat") (init 0)
  = (set_world (init 0) 0, Raise Exception).
Proof.
  apply (@lookup_errors_end_the_resolution ascii_data nat
           (scripted 0 (breaks_on "Aces Hat")) (init 0) (init 0)
           (py "Ace's Hat") [py "Ace's Hat"] (py "Aces Hat")
           [py "Hat"; py "Aces Hat"] 0 Exception); reflexivity.
Defined.

(* ================================================================= *)
(** ** More on the driver *)

Lemma interleaved_snoc_left {A} (x : A) (l r m : list A) :
  interleaved l r m -> interleaved (l ++ [x]) r (m ++ [x]).
Proof.
  induction 1; simpl.
  - apply interleaved_left, interleaved_nil.
  - apply interleaved_left. assumption.
  - apply interleaved_right. assumption.
Qed.

Lemma interleaved_snoc_right {A} (x : A) (l r m : list A) :
  interleaved l r m -> interleaved l (r ++ [x]) (m ++ [x]).
Proof.
  induction 1; simpl.
  - apply interleaved_right, interleaved_nil.
  - apply interleaved_left. assumption.
  - apply interleaved_right. assumption.
Qed.

Lemma dict_get_In {V} (k : str) (d : dict V) (v : V) :
  dict_get k d = Some v -> In k (keys d).
Proof.
  induction d as [|[k' v'] d IH]; simpl; [discriminate|].
  destruct (str_eqb k' k) eqn:Hk.
  - intros _. left. apply str_eqb_eq. exact Hk.
  - intros H. right. apply IH. exact H.
Qed.

Lemma dict_get_None {V} (k : str) (d : dict V) :
  ~ In k (keys d) -> dict_get k d = None.
Proof.
  induction d as [|[k' v'] d IH]; simpl; [reflexivity|].
  intros H. destruct (str_eqb k' k) eqn:Hk.
  - apply str_eqb_eq in Hk. exfalso. apply H. left. exact Hk.
  - apply IH. intros Hin. apply H. right. exact Hin.
Qed.

Lemma dict_get_app_fresh {V} (k : str) (v : V) (d : dict V) :
  ~ In k (keys d) -> dict_get k (d ++ [(k, v)]) = Some v.
Proof.
  induction d as [|[k' v'] d IH]; simpl.
  - intros _. rewrite str_eqb_refl. reflexivity.
  - intros H. destruct (str_eqb k' k) eqn:Hk.
    + apply str_eqb_eq in Hk. exfalso. apply H. left. exact Hk.
    + apply IH. intros Hin. apply H. right. exact Hin.
Qed.

Lemma dict_get_app_other {V} (k k' : str) (v : V) (d : dict V) :
  k' <> k -> dict_get k' (d ++ [(k, v)]) = dict_get k' d.
Proof.
  intros Hne. induction d as [|[k0 v0] d IH]; simpl.
  - destruct (str_eqb k k') eqn:Hk; [|reflexivity].
    apply str_eqb_eq in Hk. congruence.
  - destruct (str_eqb k0 k'); [reflexivity | exact IH].
Qed.

Lemma dict_append_keys (k x : str) (d d' : dict (list str)) :
  dict_append k x d = Some d' -> keys d' = keys d.
Proof.
  revert d'. induction d as [|[k' l] d IH]; intros d'; simpl; [discriminate|].
  destruct (str_eqb k' k).
  - intros H. injection H as <-. reflexivity.
  - destruct (dict_append k x d) as [d0|]; simpl; [|discriminate].
    intros H. injection H as <-. simpl. f_equal. apply IH. reflexivity.
Qed.

Lemma dict_append_get_other (k k' x : str) (d d' : dict (list str)) :
  k' <> k -> dict_append k x d = Some d' -> dict_get k' d' = dict_get k' d.
Proof.
  intros Hne. revert d'.
  induction d as [|[k0 l] d IH]; intros d'; simpl; [discriminate|].
  destruct (str_eqb k0 k) eqn:Hk.
  - intros H. injection H as <-. simpl.
    destruct (str_eqb k0 k') eqn:Hk'; [|reflexivity].
    apply str_eqb_eq in Hk, Hk'. congruence.
  - destruct (dict_append k x d) as [d0|]; simpl; [|discriminate].
    intros H. injection H as <-. simpl.
    destruct (str_eqb k0 k'); [reflexivity|]. apply IH. reflexivity.
Qed.

Section DriverMore.
Context {U : UnicodeData} {W : Type} {E : Env W}.

(** What one turn of the loop over the items does to the two dictionaries:
    nothing when the interrupt comes during the lookup, else one append. *)
Lemma check_item_effect (c item : str) (checked total_items : nat)
      (m : machine W) (lo lm : list str) :
  dict_get c (owned_items m) = Some lo ->
  dict_get c (missing_items m) = Some lm ->
  exists m' f,
    check_item c item checked total_items m = (m', Ok f) /\
    ((f = Returned /\ owned_items m' = owned_items m /\
      missing_items m' = missing_items m) \/
     (dict_append c item (owned_items m) = Some (owned_items m') /\
      missing_items m' = missing_items m) \/
     (owned_items m' = owned_items m /\
      dict_append c item (missing_items m) = Some (missing_items m'))) /\
    (f = Returned -> stopped (stdout m') = true).
Proof.
  intros Ho Hm. rewrite check_item_step. cbv zeta.
  destruct (check_ownership_world item
              (add_line (Checking checked total_items (firstn 60 item)) m))
    as [w [r ->]].
  destruct (@dict_append_present c item (owned_items m) (dict_get_In _ _ Ho))
    as [dO [HdO _]].
  destruct (@dict_append_present c item (missing_items m) (dict_get_In _ _ Hm))
    as [dM [HdM _]].
  destruct r as [[|]|[|]]; simpl owned_items; simpl missing_items.
  - rewrite HdO. simpl world. destruct (time_sleep w) as [w' [|]].
    + eexists _, Returned. split; [reflexivity|]. simpl.
      split; [right; left; auto|]. intros _.
      rewrite !stopped_app. simpl. apply orb_true_r.
    + eexists _, Continue. split; [reflexivity|]. simpl.
      split; [right; left; auto | discriminate].
  - rewrite HdM. simpl world. destruct (time_sleep w) as [w' [|]].
    + eexists _, Returned. split; [reflexivity|]. simpl.
      split; [right; right; auto|]. intros _.
      rewrite !stopped_app. simpl. apply orb_true_r.
    + eexists _, Continue. split; [reflexivity|]. simpl.
      split; [right; right; auto | discriminate].
  - rewrite HdM. eexists _, Continue. split; [reflexivity|]. simpl.
    split; [right; right; auto | discriminate].
  - eexists _, Returned. split; [reflexivity|]. simpl.
    split; [left; auto|]. intros _.
    rewrite !stopped_app. simpl. apply orb_true_r.
Qed.

(** The loop over the items of category [c] extends the two lists of [c]
    by an interleaving of a prefix of the items and leaves the other
    categories alone. *)
Lemma for_items_order (c : str) (total_items : nat) (items : list str) :
  forall (checked : nat) (m : machine W) (lo lm : list str),
    dict_get c (owned_items m) = Some lo ->
    dict_get c (missing_items m) = Some lm ->
    exists m' f checked' done todo os ms,
      for_items c total_items items checked m = (m', Ok (f, checked')) /\
      items = done ++ todo /\
      dict_get c (owned_items m') = Some (lo ++ os) /\
      dict_get c (missing_items m') = Some (lm ++ ms) /\
      interleaved os ms done /\
      keys (owned_items m') = keys (owned_items m) /\
      keys (missing_items m') = keys (missing_items m) /\
      (forall c', c' <> c ->
         dict_get c' (owned_items m') = dict_get c' (owned_items m) /\
         dict_get c' (missing_items m') = dict_get c' (missing_items m)) /\
      (f = Continue -> todo = []) /\
      (f = Returned -> stopped (stdout m') = true).
Proof.
  induction items as [|item rest IH]; intros checked m lo lm Ho Hm.
  - exists m, Continue, checked, [], [], [], []. rewrite !app_nil_r.
    split; [reflexivity|]. split; [reflexivity|].
    split; [exact Ho|]. split; [exact Hm|].
    split; [constructor|]. split; [reflexivity|]. split; [reflexivity|].
    split; [auto|]. split; [reflexivity | discriminate].
  - cbn [for_items]. unfold bind.
    destruct (@check_item_effect c item (S checked) total_items m lo lm Ho Hm)
      as [m1 [f [-> [Heff Hret]]]].
    destruct Heff as [[-> [HO HM]] | [[HO HM] | [HO HM]]].
    + exists m1, Returned, (S checked), [], (item :: rest), [], [].
      rewrite !app_nil_r, HO, HM.
      split; [reflexivity|]. split; [reflexivity|].
      split; [exact Ho|]. split; [exact Hm|].
      split; [constructor|]. split; [reflexivity|]. split; [reflexivity|].
      split; [auto|]. split; [discriminate | exact Hret].
    + assert (Ho1 : dict_get c (owned_items m1) = Some (lo ++ [item]))
        by (exact (@dict_append_get _ _ _ _ _ HO Ho)).
      assert (Hm1 : dict_get c (missing_items m1) = Some lm) by (rewrite HM; exact Hm).
      assert (Hother : forall c', c' <> c ->
                 dict_get c' (owned_items m1) = dict_get c' (owned_items m) /\
                 dict_get c' (missing_items m1) = dict_get c' (missing_items m)).
      { intros c' Hc'. rewrite HM. split; [|reflexivity].
        exact (@dict_append_get_other _ _ _ _ _ Hc' HO). }
      destruct f.
      * destruct (IH (S checked) m1 _ _ Ho1 Hm1) as
            [m2 [f2 [ck [done [todo [os [ms
               [-> [-> [Ho2 [Hm2 [Hil [Hk [Hk' [Hoth [Hc2 Hr2]]]]]]]]]]]]]]]].
        exists m2, f2, ck, (item :: done), todo, (item :: os), ms.
        split; [reflexivity|]. split; [reflexivity|].
        split; [rewrite Ho2, <- app_assoc; reflexivity|].
        split; [exact Hm2|].
        split; [apply interleaved_left; exact Hil|].
        split; [rewrite Hk; exact (dict_append_keys _ _ _ HO)|].
        split; [rewrite Hk', HM; reflexivity|].
        split; [|split; [exact Hc2 | exact Hr2]].
        intros c' Hc'. destruct (Hoth c' Hc') as [H1 H2].
        destruct (Hother c' Hc') as [H3 H4]. split; congruence.
      * exists m1, Returned, (S checked), [item], rest, [item], [].
        rewrite app_nil_r.
        split; [reflexivity|]. split; [reflexivity|].
        split; [exact Ho1|]. split; [exact Hm1|].
        split; [apply interleaved_left; constructor|].
        split; [exact (dict_append_keys _ _ _ HO)|].
        split; [rewrite HM; reflexivity|].
        split; [exact Hother|]. split; [discriminate | exact Hret].
    + assert (Ho1 : dict_get c (owned_items m1) = Some lo) by (rewrite HO; exact Ho).
      assert (Hm1 : dict_get c (missing_items m1) = Some (lm ++ [item]))
        by (exact (@dict_append_get _ _ _ _ _ HM Hm)).
      assert (Hother : forall c', c' <> c ->
                 dict_get c' (owned_items m1) = dict_get c' (owned_items m) /\
                 dict_get c' (missing_items m1) = dict_get c' (missing_items m)).
      { intros c' Hc'. rewrite HO. split; [reflexivity|].
        exact (@dict_append_get_other _ _ _ _ _ Hc' HM). }
      destruct f.
      * destruct (IH (S checked) m1 _ _ Ho1 Hm1) as
            [m2 [f2 [ck [done [todo [os [ms
               [-> [-> [Ho2 [Hm2 [Hil [Hk [Hk' [Hoth [Hc2 Hr2]]]]]]]]]]]]]]]].
        exists m2, f2, ck, (item :: done), todo, os, (item :: ms).
        split; [reflexivity|]. split; [reflexivity|].
        split; [exact Ho2|].
        split; [rewrite Hm2, <- app_assoc; reflexivity|].
        split; [apply interleaved_right; exact Hil|].
        split; [rewrite Hk, HO; reflexivity|].
        split; [rewrite Hk'; exact (dict_append_keys _ _ _ HM)|].
        split; [|split; [exact Hc2 | exact Hr2]].
        intros c' Hc'. destruct (Hoth c' Hc') as [H1 H2].
        destruct (Hother c' Hc') as [H3 H4]. split; congruence.
      * exists m1, Returned, (S checked), [item], rest, [], [item].
        rewrite app_nil_r.
        split; [reflexivity|]. split; [reflexivity|].
        split; [exact Ho1|]. split; [exact Hm1|].
        split; [apply interleaved_right; constructor|].
        split; [rewrite HO; reflexivity|].
        split; [exact (dict_append_keys _ _ _ HM)|].
        split; [exact Hother|]. split; [discriminate | exact Hret].
Qed.

(** The loop over the categories: the keys of the categories it has
    started are added in their order, and the lists of a category share
    out a prefix of its items. *)
Lemma for_categories_order (total_items : nat) (cats : dict (list str)) :
  forall (checked : nat) (m : machine W),
    NoDup (keys cats) ->
    (forall k, In k (keys cats) ->
               ~ In k (keys (owned_items m)) /\ ~ In k (keys (missing_items m))) ->
    exists m' f n,
      for_categories total_items cats checked m = (m', Ok f) /\
      n <= length cats /\
      keys (owned_items m') = keys (owned_items m) ++ firstn n (keys cats) /\
      keys (missing_items m') = keys (missing_items m) ++ firstn n (keys cats) /\
      (forall c items os ms,
          In (c, items) cats ->
          dict_get c (owned_items m') = Some os ->
          dict_get c (missing_items m') = Some ms ->
          exists done todo,
            items = done ++ todo /\ interleaved os ms done /\
            (f = Continue -> todo = [])) /\
      (forall c', ~ In c' (keys cats) ->
          dict_get c' (owned_items m') = dict_get c' (owned_items m) /\
          dict_get c' (missing_items m') = dict_get c' (missing_items m)) /\
      (f = Continue -> n = length cats) /\
      (f = Returned -> stopped (stdout m') = true).
Proof.
  induction cats as [|[c items] rest IH]; intros checked m Hnd Hfresh.
  - exists m, Continue, 0. simpl. rewrite !app_nil_r.
    split; [reflexivity|]. split; [lia|]. split; [reflexivity|].
    split; [reflexivity|]. split; [intros ? ? ? ? []|].
    split; [auto|]. split; [reflexivity | discriminate].
  - simpl in Hnd. inversion Hnd as [|? ? Hc Hnd']; subst.
    destruct (Hfresh c (or_introl eq_refl)) as [HcO HcM].
    cbn [for_categories]. unfold bind, reset_owned, reset_missing.
    simpl missing_items.
    rewrite (@dict_set_fresh _ c [] _ HcO), (@dict_set_fresh _ c [] _ HcM).
    set (m0 := set_missing (missing_items m ++ [(c, [])])
                 (set_owned (owned_items m ++ [(c, [])]) m)).
    assert (Ho0 : dict_get c (owned_items m0) = Some [])
      by (exact (dict_get_app_fresh c [] _ HcO)).
    assert (Hm0 : dict_get c (missing_items m0) = Some [])
      by (exact (dict_get_app_fresh c [] _ HcM)).
    destruct (@for_items_order c total_items items checked m0 [] [] Ho0 Hm0) as
        [m1 [f [ck [done [todo [os [ms
           [-> [Hitems [Ho1 [Hm1 [Hil [Hk1 [Hk1' [Hoth1 [Hcont Hret]]]]]]]]]]]]]]]].
    simpl in Ho1, Hm1.
    assert (HkO : keys (owned_items m1) = keys (owned_items m) ++ [c]).
    { rewrite Hk1. unfold m0, keys. simpl. rewrite map_app. reflexivity. }
    assert (HkM : keys (missing_items m1) = keys (missing_items m) ++ [c]).
    { rewrite Hk1'. unfold m0, keys. simpl. rewrite map_app. reflexivity. }
    assert (Hout : forall c', c' <> c ->
               dict_get c' (owned_items m1) = dict_get c' (owned_items m) /\
               dict_get c' (missing_items m1) = dict_get c' (missing_items m)).
    { intros c' Hc'. destruct (Hoth1 c' Hc') as [H1 H2]. rewrite H1, H2.
      unfold m0. simpl. split; apply dict_get_app_other; exact Hc'. }
    destruct f.
    + specialize (Hcont eq_refl). subst todo. rewrite app_nil_r in Hitems.
      destruct (IH ck m1 Hnd') as [m2 [f2 [n [-> [Hn [HK [HK' [Hall [Hkeep [Hc2 Hr2]]]]]]]]]].
      { intros k Hk. rewrite HkO, HkM.
        destruct (Hfresh k (or_intror Hk)) as [H1 H2].
        split; intros Hin; apply in_app_or in Hin;
          destruct Hin as [Hin | [<- | []]]; auto. }
      destruct (Hkeep c Hc) as [Hc1 Hc2'].
      exists m2, f2, (S n). split; [reflexivity|]. split; [simpl; lia|].
      split; [rewrite HK, HkO, <- app_assoc; reflexivity|].
      split; [rewrite HK', HkM, <- app_assoc; reflexivity|].
      split; [|split; [|split; [intros Hf; simpl; f_equal; auto | exact Hr2]]].
      * intros c' items' os' ms' [Heq | Hin] Hos Hms.
        -- injection Heq as <- <-. exists items, [].
           rewrite app_nil_r. split; [reflexivity|]. split; [|reflexivity].
           rewrite Hc1, Ho1 in Hos. rewrite Hc2', Hm1 in Hms.
           injection Hos as <-. injection Hms as <-. rewrite Hitems. exact Hil.
        -- exact (Hall c' items' os' ms' Hin Hos Hms).
      * intros c' Hc'. simpl in Hc'.
        assert (Hne : c' <> c) by (intros ->; apply Hc'; left; reflexivity).
        destruct (Hkeep c') as [H1 H2]; [intros Hin; apply Hc'; right; exact Hin|].
        destruct (Hout c' Hne) as [H3 H4]. split; congruence.
    + exists m1, Returned, 1. split; [reflexivity|]. split; [simpl; lia|].
      split; [exact HkO|]. split; [exact HkM|].
      split; [|split; [|split; [discriminate | exact Hret]]].
      * intros c' items' os' ms' [Heq | Hin] Hos Hms.
        -- injection Heq as <- <-. exists done, todo.
           rewrite Ho1 in Hos. rewrite Hm1 in Hms.
           injection Hos as <-. injection Hms as <-.
           split; [exact Hitems|]. split; [exact Hil | discriminate].
        -- assert (Hk : In c' (keys rest))
             by (apply (in_map fst) in Hin; exact Hin).
           assert (Hne : c' <> c) by (intros ->; contradiction).
           destruct (Hout c' Hne) as [H1 _]. rewrite H1 in Hos.
           destruct (Hfresh c' (or_intror Hk)) as [H2 _].
           rewrite (dict_get_None _ _ H2) in Hos. discriminate.
      * intros c' Hc'. simpl in Hc'.
        assert (Hne : c' <> c) by (intros ->; apply Hc'; left; reflexivity).
        exact (Hout c' Hne).
Qed.

(** A run of a fresh checker, in full. *)
Lemma find_missing_items_order (w : W) (catalog : dict (list str)) :
  NoDup (keys catalog) ->
  exists m' n,
    find_missing_items catalog (init w) = (m', Ok tt) /\
    n <= length catalog /\
    keys (owned_items m') = firstn n (keys catalog) /\
    keys (missing_items m') = firstn n (keys catalog) /\
    (forall c items os ms,
        In (c, items) catalog ->
        dict_get c (owned_items m') = Some os ->
        dict_get c (missing_items m') = Some ms ->
        exists done todo,
          items = done ++ todo /\ interleaved os ms done /\
          (stopped (stdout m') = false -> todo = [])) /\
    (stopped (stdout m') = false -> n = length catalog).
Proof.
  intros Hnd. unfold find_missing_items, bind, set_celebration, print, ret.
  set (m0 := add_line (Banner (sum_len catalog)) _).
  destruct (@for_categories_order (sum_len catalog) catalog 0 m0 Hnd) as
      [m' [f [n [-> [Hn [HK [HK' [Hall [_ [Hcont Hret]]]]]]]]]].
  { intros k _. unfold m0. simpl. auto. }
  assert (Hf : stopped (stdout m') = false -> f = Continue).
  { intros Hs. destruct f; [reflexivity|].
    rewrite Hret in Hs by reflexivity. discriminate. }
  exists m', n. unfold m0 in *. simpl in *.
  split; [reflexivity|]. split; [exact Hn|]. split; [exact HK|].
  split; [exact HK'|]. split; [|auto].
  intros c items os ms Hin Hos Hms.
  destruct (Hall c items os ms Hin Hos Hms) as [done [todo [H1 [H2 H3]]]].
  exists done, todo. auto.
Qed.

(** X6.  After a run of a fresh checker the two dictionaries have the same
    keys: the categories the run has started, in the order of the catalog;
    all of them unless the run was cancelled.  A category the run never
    reached is a key of neither. *)
Theorem run_keys_are_the_started_categories (w : W) (catalog : dict (list str)) :
  distinct (keys catalog) = true ->
  let m' := fst (find_missing_items catalog (init w)) in
  exists n,
    n <= length catalog /\
    keys (owned_items m') = firstn n (keys catalog) /\
    keys (missing_items m') = firstn n (keys catalog) /\
    (stopped (stdout m') = false ->
     keys (owned_items m') = keys catalog /\
     keys (missing_items m') = keys catalog).
Proof.
  intros Hd. apply distinct_NoDup in Hd.
  destruct (@find_missing_items_order w catalog Hd) as [m1 [n [-> [Hn [HK [HK' [_ Hall]]]]]]].
  simpl. exists n. split; [exact Hn|]. split; [exact HK|]. split; [exact HK'|].
  intros Hs. rewrite HK, HK', (Hall Hs).
  unfold keys. rewrite <- (length_map fst catalog), firstn_all. auto.
Qed.

(** X7.  After a run of a fresh checker the owned list and the missing list
    of a category keep the order of the catalog: together they are an
    interleaving of the first items of the category, of all of them unless
    the run was cancelled. *)
Theorem run_keeps_the_catalog_order
        (w : W) (catalog : dict (list str)) (c : str) (items os ms : list str) :
  distinct (keys catalog) = true ->
  In (c, items) catalog ->
  dict_get c (owned_items (fst (find_missing_items catalog (init w)))) = Some os ->
  dict_get c (missing_items (fst (find_missing_items catalog (init w)))) = Some ms ->
  exists done todo,
    items = done ++ todo /\ interleaved os ms done /\
    (stopped (stdout (fst (find_missing_items catalog (init w)))) = false ->
     todo = []).
Proof.
  intros Hd. apply distinct_NoDup in Hd.
  destruct (@find_missing_items_order w catalog Hd) as [m1 [n [-> [_ [_ [_ [Hall _]]]]]]].
  simpl. apply Hall.
Qed.

(** X8.  The report made after a run of a fresh checker counts the whole
    catalog as its total, never more owned and missing items than that,
    and exactly as many unless the run was cancelled. *)
Theorem report_accounts_for_the_catalog (w : W) (catalog : dict (list str)) :
  distinct (keys catalog) = true ->
  let m' := fst (find_missing_items catalog (init w)) in
  let s := report_summary (generate_report m') in
  total_celebration_items s = sum_len catalog /\
  total_owned s + total_missing s <= total_celebration_items s /\
  (stopped (stdout m') = false ->
   total_owned s + total_missing s = total_celebration_items s).
Proof.
  intros Hd. apply distinct_NoDup in Hd.
  destruct (@find_missing_items_inv _ _ _ w catalog Hd) as
      [m1 [done [todo [-> [Hsplit [Hcel [Hperm [_ Hall]]]]]]]].
  simpl. rewrite Hcel, !sum_len_entries, <- length_app,
    (Permutation_length Hperm), Hsplit, length_app.
  split; [reflexivity|]. split; [lia|].
  intros Hs. rewrite (Hall Hs). simpl. lia.
Qed.

End DriverMore.

(** The run of ten items cancelled after the third: both categories were
    started. *)
Lemma run_keys_are_the_started_categories_witness :
  let E := scripted 3 (answers "B" [candidate "B" true]) in
  let m' := fst (@find_missing_items ascii_data nat E ten_items (init 0)) in
  exists n,
    n <= length ten_items /\
    keys (owned_items m') = firstn n (keys ten_items) /\
    keys (missing_items m') = firstn n (keys ten_items) /\
    (stopped (stdout m') = false ->
     keys (owned_items m') = keys ten_items /\
     keys (missing_items m') = keys ten_items).
Proof.
  intros E.
  apply (@run_keys_are_the_started_categories ascii_data nat E 0 ten_items).
  reflexivity.
Defined.

Lemma run_keeps_the_catalog_order_witness :
  let E := scripted 0 (answers "C" [candidate "C" true]) in
  let catalog := [(py "HEADGEAR", [py "A"; py "B"; py "C"; py "D"])] in
  exists done todo,
    [py "A"; py "B"; py "C"; py "D"] = done ++ todo /\
    interleaved [py "C"] [py "A"; py "B"; py "D"] done /\
    (stopped (stdout (fst (@find_missing_items ascii_data nat E catalog (init 0)))) = false ->
     todo = []).
Proof.
  intros E catalog.
  apply (@run_keeps_the_catalog_order ascii_data nat E 0 catalog (py "HEADGEAR")).
  - reflexivity.
  - left. reflexivity.
  - reflexivity.
  - reflexivity.
Defined.

Lemma report_accounts_for_the_catalog_witness :
  let E := scripted 3 (answers "B" [candidate "B" true]) in
  let m' := fst (@find_missing_items ascii_data nat E ten_items (init 0)) in
  let s := report_summary (@generate_report nat E m') in
  total_celebration_items s = sum_len ten_items /\
  total_owned s + total_missing s <= total_celebration_items s /\
  (stopped (stdout m') = false ->
   total_owned s + total_missing s = total_celebration_items s).
Proof.
  intros E.
  apply (@report_accounts_for_the_catalog ascii_data nat E 0 ten_items).
  reflexivity.
Defined.

(* ================================================================= *)
(** ** More on the grouping, and the summary *)

Lemma dict_push_concat (k x : str) (d : dict (list str)) :
  Permutation (concat (values (dict_push k x d))) (concat (values d) ++ [x]).
Proof.
  unfold values. induction d as [|[k' l] d IH]; simpl; [reflexivity|].
  destruct (str_eqb k' k); simpl.
  - rewrite <- !app_assoc. apply Permutation_app_head. apply Permutation_app_comm.
  - rewrite <- app_assoc. apply Permutation_app_head. exact IH.
Qed.

Lemma group_loop_concat (items : list str) :
  forall d, Permutation (concat (values (group_loop items d)))
                        (concat (values d) ++ items).
Proof.
  induction items as [|x items IH]; intros d; simpl.
  - rewrite app_nil_r. reflexivity.
  - rewrite IH, dict_push_concat, <- app_assoc. reflexivity.
Qed.

Lemma sum_len_concat (d : dict (list str)) :
  sum_len d = length (concat (values d)).
Proof.
  unfold sum_len. induction (values d) as [|l ls IH]; simpl; [reflexivity|].
  rewrite length_app, IH. reflexivity.
Qed.

Lemma group_items_equation (items : list str) :
  group_items_by_base_name items =
    map (fun b => (b, filter (fun x => str_eqb (base_name x) b) items))
        (first_seen (map base_name items)).
Proof. exact (group_loop_spec items []). Qed.

Lemma group_keys_NoDup (items : list str) :
  NoDup (keys (group_items_by_base_name items)).
Proof.
  rewrite group_items_equation. unfold keys. rewrite map_map. simpl.
  rewrite map_id. apply first_seen_NoDup.
Qed.

Lemma group_concat_perm (items : list str) :
  Permutation (concat (values (group_items_by_base_name items))) items.
Proof. exact (group_loop_concat items []). Qed.

Lemma group_members (items : list str) (k : str) (variants : list str) :
  In (k, variants) (group_items_by_base_name items) ->
  variants <> [] /\ forall x, In x variants -> In x items /\ base_name x = k.
Proof.
  intros Hin. rewrite group_items_equation in Hin. apply in_map_iff in Hin.
  destruct Hin as [b [Hb Hin]]. injection Hb as <- <-.
  apply first_seen_In, in_map_iff in Hin. destruct Hin as [x [Hx Hin]].
  split.
  - intros Hnil.
    assert (H : In x (filter (fun y => str_eqb (base_name y) b) items))
      by (apply filter_In; split; [exact Hin | apply str_eqb_eq; exact Hx]).
    rewrite Hnil in H. destruct H.
  - intros y Hy. apply filter_In in Hy. destruct Hy as [Hy1 Hy2].
    apply str_eqb_eq in Hy2. auto.
Qed.

(** X9.  Grouping loses and repeats nothing: the groups have different
    base names, none is empty, each holds names of its own base name only,
    and together they hold the input names, each as often as it was given. *)
Theorem grouping_is_a_partition (items : list str) :
  NoDup (keys (group_items_by_base_name items)) /\
  Permutation (concat (values (group_items_by_base_name items))) items /\
  sum_len (group_items_by_base_name items) = length items /\
  (forall k variants,
      In (k, variants) (group_items_by_base_name items) ->
      variants <> [] /\ forall x, In x variants -> In x items /\ base_name x = k).
Proof.
  split; [apply group_keys_NoDup|].
  split; [apply group_concat_perm|]. split.
  - rewrite sum_len_concat. apply Permutation_length, group_concat_perm.
  - intros k variants. apply group_members.
Qed.

(** *** The order of [sorted] *)

Section Lexicographic.
Variable A : Type.
Variables ltb eqb : A -> A -> bool.
Hypothesis eqb_eq : forall x y, eqb x y = true <-> x = y.
Hypothesis ltb_irrefl : forall x, ltb x x = false.
Hypothesis ltb_trans : forall x y z, ltb x y = true -> ltb y z = true -> ltb x z = true.
Hypothesis ltb_total : forall x y, ltb x y = true \/ x = y \/ ltb y x = true.

Lemma lex_ltb_irrefl (a : list A) : lex_ltb ltb eqb a a = false.
Proof.
  induction a as [|x a IH]; simpl; [reflexivity|].
  rewrite ltb_irrefl, IH, andb_false_r. reflexivity.
Qed.

Lemma ltb_asym (x y : A) : ltb x y = true -> ltb y x = false.
Proof.
  intros H. destruct (ltb y x) eqn:H'; [|reflexivity].
  assert (Hc : ltb x x = true) by (eapply ltb_trans; eassumption).
  rewrite ltb_irrefl in Hc. discriminate.
Qed.

Lemma lex_ltb_trans (a : list A) :
  forall b c, lex_ltb ltb eqb a b = true -> lex_ltb ltb eqb b c = true ->
              lex_ltb ltb eqb a c = true.
Proof.
  induction a as [|x a IH]; intros [|y b] [|z c]; simpl; try congruence.
  rewrite !orb_true_iff, !andb_true_iff.
  intros [Hxy | [Exy Hab]] [Hyz | [Eyz Hbc]].
  - left. eapply ltb_trans; eassumption.
  - apply eqb_eq in Eyz. subst z. left. exact Hxy.
  - apply eqb_eq in Exy. subst y. left. exact Hyz.
  - apply eqb_eq in Exy, Eyz. subst y z. right. split.
    + apply eqb_eq. reflexivity.
    + eapply IH; eassumption.
Qed.

Lemma lex_ltb_total (a : list A) :
  forall b, lex_ltb ltb eqb a b = true \/ a = b \/ lex_ltb ltb eqb b a = true.
Proof.
  induction a as [|x a IH]; intros [|y b]; simpl; auto.
  destruct (ltb_total x y) as [H | [-> | H]].
  - left. rewrite H. reflexivity.
  - rewrite ltb_irrefl. simpl.
    assert (Hr : eqb y y = true) by (apply eqb_eq; reflexivity). rewrite Hr. simpl.
    destruct (IH b) as [H | [-> | H]]; auto.
  - right. right. rewrite H. reflexivity.
Qed.

End Lexicographic.

Lemma N_ltb_total (x y : N) : N.ltb x y = true \/ x = y \/ N.ltb y x = true.
Proof. rewrite !N.ltb_lt. lia. Qed.

Lemma N_ltb_trans (x y z : N) :
  N.ltb x y = true -> N.ltb y z = true -> N.ltb x z = true.
Proof. rewrite !N.ltb_lt. lia. Qed.

Lemma str_ltb_irrefl (a : str) : str_ltb a a = false.
Proof. apply lex_ltb_irrefl. exact N.ltb_irrefl. Qed.

Lemma str_ltb_trans (a b c : str) :
  str_ltb a b = true -> str_ltb b c = true -> str_ltb a c = true.
Proof. apply lex_ltb_trans; [exact N.eqb_eq | exact N_ltb_trans]. Qed.

Lemma str_ltb_total (a b : str) :
  str_ltb a b = true \/ a = b \/ str_ltb b a = true.
Proof.
  apply lex_ltb_total; [exact N.eqb_eq | exact N.ltb_irrefl | exact N_ltb_total].
Qed.

Lemma item_ltb_irrefl (p : str * list str) : item_ltb p p = false.
Proof.
  unfold item_ltb. rewrite str_ltb_irrefl. simpl.
  unfold list_ltb. rewrite lex_ltb_irrefl by exact str_ltb_irrefl.
  apply andb_false_r.
Qed.

Lemma item_ltb_trans (p q r : str * list str) :
  item_ltb p q = true -> item_ltb q r = true -> item_ltb p r = true.
Proof.
  unfold item_ltb. rewrite !orb_true_iff, !andb_true_iff.
  intros [H1 | [E1 L1]] [H2 | [E2 L2]].
  - left. eapply str_ltb_trans; eassumption.
  - apply str_eqb_eq in E2. rewrite <- E2. left. exact H1.
  - apply str_eqb_eq in E1. rewrite E1. left. exact H2.
  - apply str_eqb_eq in E1, E2. right. split.
    + apply str_eqb_eq. congruence.
    + unfold list_ltb in *.
      eapply lex_ltb_trans; try eassumption;
        [exact str_eqb_eq | exact str_ltb_trans].
Qed.

Lemma item_ltb_total (p q : str * list str) :
  item_ltb p q = true \/ p = q \/ item_ltb q p = true.
Proof.
  destruct p as [k1 v1], q as [k2 v2]. unfold item_ltb. simpl.
  destruct (str_ltb_total k1 k2) as [H | [-> | H]].
  - left. rewrite H. reflexivity.
  - rewrite str_ltb_irrefl, str_eqb_refl. simpl.
    destruct (@lex_ltb_total str str_ltb str_eqb str_eqb_eq str_ltb_irrefl
                str_ltb_total v1 v2) as [H | [-> | H]]; auto.
  - right. right. rewrite H. reflexivity.
Qed.

(** [p] does not come after [q]. *)
Lemma item_le_trans (p q r : str * list str) :
  item_ltb q p = false -> item_ltb r q = false -> item_ltb r p = false.
Proof.
  intros H1 H2. destruct (item_ltb r p) eqn:H; [|reflexivity].
  destruct (item_ltb_total p q) as [Hpq | [-> | Hqp]]; [| congruence | congruence].
  assert (Hrq : item_ltb r q = true) by (eapply item_ltb_trans; eassumption).
  congruence.
Qed.

Lemma insert_sorted_perm (x : str * list str) (l : list (str * list str)) :
  Permutation (insert_sorted x l) (x :: l).
Proof.
  induction l as [|y l IH]; simpl; [reflexivity|].
  destruct (item_ltb y x); [|reflexivity].
  rewrite IH. apply perm_swap.
Qed.

Lemma sorted_perm (l : list (str * list str)) : Permutation (sorted l) l.
Proof.
  induction l as [|x l IH]; simpl; [reflexivity|].
  rewrite insert_sorted_perm, IH. reflexivity.
Qed.

Lemma insert_sorted_strongly (x : str * list str) (l : list (str * list str)) :
  StronglySorted (fun p q => item_ltb q p = false) l ->
  StronglySorted (fun p q => item_ltb q p = false) (insert_sorted x l).
Proof.
  induction 1 as [|y l Hl IH Hy]; simpl.
  - constructor; constructor.
  - destruct (item_ltb y x) eqn:Hyx.
    + constructor; [exact IH|].
      apply (Permutation_Forall (Permutation_sym (insert_sorted_perm x l))).
      constructor; [|exact Hy].
      destruct (item_ltb x y) eqn:Hxy; [|reflexivity].
      assert (Hc : item_ltb y y = true) by (eapply item_ltb_trans; eassumption).
      rewrite item_ltb_irrefl in Hc. discriminate.
    + constructor; [constructor; assumption|].
      constructor; [exact Hyx|].
      apply (Forall_impl (P := fun q => item_ltb q y = false)); [|exact Hy].
      intros z Hz. exact (item_le_trans _ _ _ Hyx Hz).
Qed.

Lemma sorted_strongly (l : list (str * list str)) :
  StronglySorted (fun p q => item_ltb q p = false) (sorted l).
Proof.
  induction l as [|x l IH]; simpl; [constructor|].
  apply insert_sorted_strongly. exact IH.
Qed.

(** X10.  [sorted] on groups: the same groups, by strictly ascending base
    name in the order of the code points. *)
Theorem summary_groups_ascend (items : list str) :
  let groups := sorted (group_items_by_base_name items) in
  Permutation groups (group_items_by_base_name items) /\
  StronglySorted (fun p q => str_ltb (fst p) (fst q) = true) groups.
Proof.
  intros groups. split; [apply sorted_perm|].
  assert (Hnd : NoDup (keys groups)).
  { apply (Permutation_NoDup (l := keys (group_items_by_base_name items)));
      [|apply group_keys_NoDup].
    apply Permutation_map, Permutation_sym, sorted_perm. }
  pose proof (sorted_strongly (group_items_by_base_name items)) as Hs.
  fold groups in Hs. clearbody groups.
  induction Hs as [|p l Hl IH Hp]; [constructor|].
  simpl in Hnd. inversion Hnd as [|? ? Hnotin Hnd']; subst.
  constructor; [apply IH; exact Hnd'|].
  apply Forall_forall. intros q Hq.
  rewrite Forall_forall in Hp. specialize (Hp q Hq).
  destruct (str_ltb_total (fst p) (fst q)) as [H | [H | H]]; [exact H | |].
  - exfalso. apply Hnotin. rewrite H. apply in_map. exact Hq.
  - unfold item_ltb in Hp. rewrite H in Hp. discriminate.
Qed.

(** The loop of the summary on groups none of which is empty: it shows a
    prefix of the groups and, when groups are left, the number of their
    items. *)
Lemma summary_loop_spec (groups : list (str * list str)) (total : nat) :
  Forall (fun g => snd g <> []) groups ->
  forall displayed,
    exists shown hidden,
      groups = shown ++ hidden /\
      summary_loop groups total displayed =
        (map group_line shown ++
         match hidden with
         | [] => []
         | _ :: _ => [MoreLine (Z.of_nat total - Z.of_nat (displayed + sum_len shown))]
         end, Ok tt) /\
      (hidden <> [] -> 50 <= displayed + sum_len shown) /\
      (forall s1 g s2, shown = s1 ++ g :: s2 -> displayed + sum_len s1 < 50).
Proof.
  induction 1 as [|[base variants] rest Hne Hrest IH]; intros displayed.
  - exists [], []. simpl. repeat split; auto; try congruence.
    intros [|? ?] ? ? H; discriminate.
  - cbn [summary_loop]. destruct (50 <=? displayed) eqn:Hd.
    + exists [], ((base, variants) :: rest). simpl.
      rewrite Nat.add_0_r. apply Nat.leb_le in Hd.
      repeat split; auto. intros [|? ?] ? ? H; discriminate.
    + apply Nat.leb_gt in Hd.
      assert (Hline : exists n,
                 0 < n /\ sum_len [(base, variants)] = n /\
                 summary_loop ((base, variants) :: rest) total displayed =
                 (let (lines, r) := summary_loop rest total (displayed + n) in
                  (group_line (base, variants) :: lines, r))).
      { cbn [summary_loop]. replace (50 <=? displayed) with false
          by (symmetry; apply Nat.leb_gt; exact Hd).
        unfold group_line. simpl fst. simpl snd.
        destruct (1 <? length variants) eqn:Hlen.
        - exists (length variants). apply Nat.ltb_lt in Hlen.
          split; [lia|]. split; [unfold sum_len; simpl; lia | reflexivity].
        - apply Nat.ltb_ge in Hlen. simpl in Hne.
          destruct variants as [|v [|v' vs]]; [congruence | | simpl in Hlen; lia].
          exists 1. split; [lia|]. split; reflexivity. }
      destruct Hline as [n [Hn [Hsum Hstep]]].
      cbn [summary_loop] in Hstep.
      replace (50 <=? displayed) with false in Hstep
        by (symmetry; apply Nat.leb_gt; exact Hd).
      rewrite Hstep.
      destruct (IH (displayed + n)) as [shown [hidden [-> [-> [Hmore Hless]]]]].
      exists ((base, variants) :: shown), hidden.
      assert (Hcons : sum_len ((base, variants) :: shown) = n + sum_len shown).
      { unfold sum_len in *. simpl in *. lia. }
      rewrite Hcons.
      replace (displayed + (n + sum_len shown)) with (displayed + n + sum_len shown) by lia.
      split; [reflexivity|]. split; [reflexivity|]. split; [exact Hmore|].
      intros [|g0 s1] g s2 Hs.
      * unfold sum_len. simpl. lia.
      * injection Hs as <- Hs. specialize (Hless _ _ _ Hs).
        assert (Hc : sum_len ((base, variants) :: s1) = n + sum_len s1).
        { unfold sum_len in *. simpl in *. lia. }
        rewrite Hc. lia.
Qed.

Lemma sum_len_app (d1 d2 : dict (list str)) :
  sum_len (d1 ++ d2) = sum_len d1 + sum_len d2.
Proof.
  unfold sum_len, values. induction d1 as [|[k l] d1 IH]; simpl; [reflexivity|].
  rewrite IH. lia.
Qed.

Lemma sum_len_perm (d1 d2 : dict (list str)) :
  Permutation d1 d2 -> sum_len d1 = sum_len d2.
Proof.
  unfold sum_len, values. induction 1; simpl; lia.
Qed.

Lemma sorted_groups_nonempty (items : list str) :
  Forall (fun g => snd g <> []) (sorted (group_items_by_base_name items)).
Proof.
  apply (Permutation_Forall (Permutation_sym (sorted_perm _))).
  apply Forall_forall. intros [k variants] Hin.
  exact (proj1 (group_members _ _ _ Hin)).
Qed.

(** The groups shown and the groups left over hold the missing items. *)
Lemma summary_split_sums (items : list str) (shown hidden : list (str * list str)) :
  sorted (group_items_by_base_name items) = shown ++ hidden ->
  sum_len shown + sum_len hidden = length items /\
  (hidden <> [] -> 1 <= sum_len hidden).
Proof.
  intros Hsplit. split.
  - rewrite <- sum_len_app, <- Hsplit, (sum_len_perm (sorted_perm _)).
    rewrite sum_len_concat. apply Permutation_length, group_concat_perm.
  - intros Hh. destruct hidden as [|p hidden]; [congruence|].
    assert (Hf : Forall (fun g => snd g <> []) (shown ++ p :: hidden)).
    { rewrite <- Hsplit. apply sorted_groups_nonempty. }
    apply Forall_app in Hf. destruct Hf as [_ Hf].
    inversion Hf as [|? ? Hp _]; subst.
    unfold sum_len. simpl. destruct (snd p); [congruence | simpl; lia].
Qed.

Section SummaryFacts.
Context {W : Type} {E : Env W}.

(** X11.  [print_summary] returns normally.  After its six leading lines it
    prints the line that all is owned when nothing is missing; else a blank
    line and the lines of the first groups in sorted order, and, when
    groups are left over, one line with the number of missing items in
    them, which is at least 1; groups are left over only when 50 items or
    more have been listed.  Listed and left-over items are all the missing
    items. *)
Theorem print_summary_counts_what_it_hides (self : machine W) :
  let all_missing := all_missing_of self in
  exists shown hidden,
    sorted (group_items_by_base_name all_missing) = shown ++ hidden /\
    sum_len shown + sum_len hidden = length all_missing /\
    snd (print_summary self) = Ok tt /\
    skipn 6 (fst (print_summary self)) =
      match all_missing with
      | [] => [AllOwnedLine]
      | _ :: _ =>
          BlankLine :: map group_line shown ++
          match hidden with
          | [] => []
          | _ :: _ => [MoreLine (Z.of_nat (sum_len hidden))]
          end
      end /\
    (hidden <> [] -> 50 <= sum_len shown /\ 1 <= sum_len hidden).
Proof.
  intros all_missing.
  destruct (@summary_loop_spec _ (length all_missing)
              (sorted_groups_nonempty all_missing) 0)
    as [shown [hidden [Hsplit [Hloop [Hmore _]]]]].
  destruct (summary_split_sums _ _ _ Hsplit) as [Hsum Hone].
  exists shown, hidden. split; [exact Hsplit|]. split; [exact Hsum|].
  unfold print_summary. fold all_missing.
  destruct all_missing as [|x rest] eqn:Hall.
  - simpl. split; [reflexivity|]. split; [reflexivity|].
    intros Hh. specialize (Hone Hh). simpl in Hsum. lia.
  - rewrite Hloop.
    assert (Hrem : (Z.of_nat (length (x :: rest)) - Z.of_nat (0 + sum_len shown))%Z
                   = Z.of_nat (sum_len hidden)) by lia.
    rewrite Hrem. cbn [fst snd skipn app].
    split; [reflexivity|]. split; [reflexivity|].
    intros Hh. split; [apply Hmore; exact Hh | apply Hone; exact Hh].
Qed.

(** X12.  With at most 50 missing items, and at least one, [print_summary]
    lists every group: a blank line and one line for each group in sorted
    order, none left over. *)
Theorem print_summary_lists_all_when_short (self : machine W) :
  all_missing_of self <> [] ->
  length (all_missing_of self) <= 50 ->
  skipn 6 (fst (print_summary self)) =
    BlankLine :: map group_line (sorted (group_items_by_base_name (all_missing_of self))).
Proof.
  intros Hne Hlen.
  destruct (@summary_loop_spec _ (length (all_missing_of self))
              (sorted_groups_nonempty (all_missing_of self)) 0)
    as [shown [hidden [Hsplit [Hloop [Hmore _]]]]].
  destruct (summary_split_sums _ _ _ Hsplit) as [Hsum Hone].
  unfold print_summary.
  destruct (all_missing_of self) as [|x rest] eqn:Hall; [congruence|].
  rewrite Hloop. cbn [fst snd skipn app]. f_equal.
  destruct hidden as [|p hidden].
  - rewrite Hsplit, !app_nil_r. reflexivity.
  - exfalso.
    assert (Hh : p :: hidden <> []) by congruence.
    specialize (Hmore Hh). specialize (Hone Hh). lia.
Qed.

End SummaryFacts.

(** Three missing items in two categories, two of them variants of one
    base name: two lines after the blank one. *)
Lemma print_summary_lists_all_when_short_witness :
  let self :=
    set_missing [(py "HEADGEAR", [py "REDHAMMER STANDARD - HEADGEAR"; py "LONE WOLF"]);
                 (py "UNIFORMS", [py "REDHAMMER STANDARD - UNIFORM"])] (init 0) in
  skipn 6 (fst (@print_summary nat (scripted 0 (answers "" [])) self)) =
    BlankLine :: map group_line
                   (sorted (group_items_by_base_name (all_missing_of self))).
Proof.
  intros self.
  apply (@print_summary_lists_all_when_short nat (scripted 0 (answers "" [])) self).
  - unfold self, all_missing_of. simpl. discriminate.
  - unfold self, all_missing_of. simpl. lia.
Defined.

(** The lines of that summary. *)
Example print_summary_of_three :
  let self :=
    set_missing [(py "HEADGEAR", [py "REDHAMMER STANDARD - HEADGEAR"; py "LONE WOLF"]);
                 (py "UNIFORMS", [py "REDHAMMER STANDARD - UNIFORM"])] (init 0) in
  skipn 6 (fst (@print_summary nat (scripted 0 (answers "" [])) self)) =
    [BlankLine; ItemLine (py "LONE WOLF"); GroupLine (py "REDHAMMER STANDARD") 2].
Proof. reflexivity. Qed.

(* ================================================================= *)
(** ** The marketplace client *)

Lemma parse_nodes_done (nodes : list json) :
  forall acc items,
    parse_nodes nodes acc = Done items ->
    exists new, items = acc ++ new /\
                Forall2 (fun node item => parse_node node = Done item) nodes new.
Proof.
  induction nodes as [|node rest IH]; intros acc items; simpl.
  - intros H. injection H as <-. exists []. rewrite app_nil_r. split; constructor.
  - destruct (parse_node node) as [item|e] eqn:Hn; simpl; [|discriminate].
    intros H. destruct (IH _ _ H) as [new [-> Hall]].
    exists (item :: new). rewrite <- app_assoc. split; [reflexivity|].
    constructor; assumption.
Qed.

Lemma parse_nodes_fails (good : list json) (bad : json) (rest : list json) (e : pyerr) :
  Forall (fun node => exists item, parse_node node = Done item) good ->
  parse_node bad = Fails e ->
  forall acc, parse_nodes (good ++ bad :: rest) acc = Fails e.
Proof.
  intros Hgood Hbad. induction Hgood as [|node good [item Hn] _ IH]; intros acc; simpl.
  - rewrite Hbad. reflexivity.
  - rewrite Hn. simpl. apply IH.
Qed.

Lemma parse_nodes_failed (nodes : list json) (e : pyerr) :
  forall acc,
    parse_nodes nodes acc = Fails e ->
    exists good bad rest,
      nodes = good ++ bad :: rest /\
      Forall (fun node => exists item, parse_node node = Done item) good /\
      parse_node bad = Fails e.
Proof.
  induction nodes as [|node rest IH]; intros acc; simpl; [discriminate|].
  destruct (parse_node node) as [item|e'] eqn:Hn; simpl.
  - intros H. destruct (IH _ H) as [good [bad [rest' [-> [Hg Hb]]]]].
    exists (node :: good), bad, rest'. split; [reflexivity|].
    split; [constructor; [exists item; exact Hn | exact Hg] | exact Hb].
  - intros H. injection H as <-. exists [], node, rest.
    split; [reflexivity|]. split; [constructor | exact Hn].
Qed.

(** A response with a path to nodes is a non-empty list. *)
Lemma nodes_of_done (result nodes : json) :
  nodes_of result = Done nodes ->
  truthy result = true /\ exists n, py_len result = Done (S n).
Proof.
  unfold nodes_of. destruct result as [| | | |[|c s]|[|x l]|d]; simpl;
    try discriminate.
  intros _. split; [reflexivity|]. exists (length l). reflexivity.
Qed.

(** A string is no node. *)
Lemma parse_node_str (s : str) : parse_node (JStr s) = Fails TypeError.
Proof. reflexivity. Qed.

(** X13.  When [search_item] returns a list that is not empty, the response
    had a list of nodes, and the entries are the nodes read one by one, in
    their order. *)
Theorem search_item_entries_follow_the_nodes (result : json) (items : list Found.t) :
  search_item_result result = Ok items ->
  items <> [] ->
  exists nodes,
    nodes_of result = Done (JList nodes) /\
    Forall2 (fun node item => parse_node node = Done item) nodes items.
Proof.
  unfold search_item_result.
  destruct (truthy result); simpl; [|intros H; injection H as <-; congruence].
  destruct (py_len result) as [n|e]; [|discriminate].
  destruct (n =? 0); [intros H; injection H as <-; congruence|].
  destruct (nodes_of result) as [nodes|e] eqn:Hnodes; simpl;
    [|destruct e; intros H; try discriminate; injection H as <-; congruence].
  destruct (iterate nodes) as [l|e] eqn:Hit; simpl;
    [|destruct e; intros H; try discriminate; injection H as <-; congruence].
  destruct (parse_nodes l []) as [its|e] eqn:Hp;
    [|destruct e; intros H; try discriminate; injection H as <-; congruence].
  intros H Hne. injection H as ->.
  destruct (parse_nodes_done _ _ Hp) as [new [Heq Hall]]. simpl in Heq. subst new.
  destruct nodes as [| | | |s|l'|d]; simpl in Hit; try discriminate;
    injection Hit as <-.
  - exfalso. destruct s as [|c s]; simpl in Hall; inversion Hall; subst;
      [congruence|]. rewrite parse_node_str in *. discriminate.
  - exists l'. split; [reflexivity | exact Hall].
  - exfalso. destruct d as [|[k v] d]; simpl in Hall; inversion Hall; subst;
      [congruence|]. rewrite parse_node_str in *. discriminate.
Qed.

(** X14.  One node that cannot be read spoils the page: when the nodes
    before it are read and it fails, the entries read so far are dropped;
    the result is the empty list for a [KeyError], [IndexError] or
    [TypeError], and the call raises for an [AttributeError]. *)
Theorem search_item_drops_the_page_on_a_bad_node
        (result : json) (good : list json) (bad : json) (rest : list json)
        (e : pyerr) :
  nodes_of result = Done (JList (good ++ bad :: rest)) ->
  Forall (fun node => exists item, parse_node node = Done item) good ->
  parse_node bad = Fails e ->
  search_item_result result =
    match e with
    | AttributeError => Raise Exception
    | _ => Ok []
    end.
Proof.
  intros Hnodes Hgood Hbad. unfold search_item_result.
  destruct (nodes_of_done _ Hnodes) as [-> [n ->]]. simpl negb. cbv iota.
  cbn [Nat.eqb]. rewrite Hnodes. simpl.
  rewrite (parse_nodes_fails _ _ Hgood Hbad). destruct e; reflexivity.
Qed.

(** X15.  An entry is reported as owned only on the word of the response:
    when its flag is truthy, the item of the node has a dictionary
    [viewer] with a dictionary [meta] whose [isOwned] is that flag.  The
    name of the entry is the [name] of the item. *)
Theorem ownership_comes_from_viewer_meta (node : json) (item : Found.t) :
  parse_node node = Done item ->
  exists item_data,
    at_key "item" node = Done (JDict item_data) /\
    dict_get (py "name") item_data = Some (Found.name item) /\
    (truthy (Found.is_owned item) = true ->
     exists viewer meta,
       dict_get (py "viewer") item_data = Some (JDict viewer) /\
       dict_get (py "meta") viewer = Some (JDict meta) /\
       dict_get (py "isOwned") meta = Some (Found.is_owned item)).
Proof.
  unfold parse_node.
  destruct (at_key "item" node) as [item_data|e] eqn:Hitem; simpl; [|discriminate].
  destruct item_data as [| | | |s|l|d];
    try (simpl; discriminate);
    try (simpl; destruct (contains _ _); simpl; discriminate);
    try (simpl; destruct (existsb _ _); simpl; discriminate).
  unfold has_key, at_key, get_or, and_then.
  destruct (dict_get (py "itemId") d) as [vid|] eqn:Hid;
    [|destruct (dict_get (py "viewer") d) as [v|]; [destruct (truthy v);
        [destruct v as [| | | | | |dv]; try discriminate;
         destruct (dict_get (py "meta") dv) as [[| | | | | |dm]|]; try discriminate;
         destruct (dict_get (py "isOwned") dm); discriminate
        | discriminate] | discriminate]].
  destruct (dict_get (py "name") d) as [vname|] eqn:Hname;
    [|destruct (dict_get (py "viewer") d) as [v|]; [destruct (truthy v);
        [destruct v as [| | | | | |dv]; try discriminate;
         destruct (dict_get (py "meta") dv) as [[| | | | | |dm]|]; try discriminate;
         destruct (dict_get (py "isOwned") dm); discriminate
        | discriminate] | discriminate]].
  destruct (dict_get (py "type") d) as [vtype|] eqn:Htype;
    [|destruct (dict_get (py "viewer") d) as [v|]; [destruct (truthy v);
        [destruct v as [| | | | | |dv]; try discriminate;
         destruct (dict_get (py "meta") dv) as [[| | | | | |dm]|]; try discriminate;
         destruct (dict_get (py "isOwned") dm); discriminate
        | discriminate] | discriminate]].
  destruct (dict_get (py "tags") d) as [vtags|];
  destruct (dict_get (py "viewer") d) as [v|] eqn:Hv;
    try (intros H; injection H as <-; exists d; simpl;
         split; [reflexivity|split; [exact Hname|intros Hf; discriminate Hf]]).
  all: destruct (truthy v) eqn:Htv;
    try (intros H; injection H as <-; exists d; simpl;
         split; [reflexivity|split; [exact Hname|intros Hf; discriminate Hf]]).
  all: destruct v as [| | | | | |dv]; try discriminate.
  all: destruct (dict_get (py "meta") dv) as [[| | | | | |dm]|] eqn:Hmeta;
    try discriminate;
    try (simpl; intros H; injection H as <-; exists d; simpl;
         split; [reflexivity|split; [exact Hname|intros Hf; discriminate Hf]]).
  all: destruct (dict_get (py "isOwned") dm) as [flag|] eqn:Hflag;
    intros H; injection H as <-; exists d; simpl;
    (split; [reflexivity|split; [exact Hname|]]);
    try (intros Hf; discriminate Hf).
  all: intros _; exists dv, dm; auto.
Qed.

Lemma parse_node_attribute_error (node : json) :
  parse_node node = Fails AttributeError ->
  exists item_data viewer,
    at_key "item" node = Done (JDict item_data) /\
    dict_get (py "viewer") item_data = Some viewer /\
    truthy viewer = true /\
    (is_dict viewer = false \/
     exists v meta, viewer = JDict v /\ dict_get (py "meta") v = Some meta /\
                    is_dict meta = false).
Proof.
  unfold parse_node.
  destruct (at_key "item" node) as [item_data|e] eqn:Hitem; simpl;
    [|intros H; injection H as ->;
      destruct node; simpl in Hitem; try discriminate;
      destruct (dict_get (py "item") d); discriminate].
  destruct item_data as [| | | |s|l|d];
    try (simpl; discriminate);
    try (simpl; destruct (contains _ _); simpl; discriminate);
    try (simpl; destruct (existsb _ _); simpl; discriminate).
  unfold has_key, at_key, get_or, and_then.
  destruct (dict_get (py "viewer") d) as [v|] eqn:Hv.
  - destruct (truthy v) eqn:Htv.
    + destruct v as [| | | | | |dv];
        try (intros _; eexists d, _; split; [reflexivity|];
             split; [exact Hv|]; split; [exact Htv|]; left; reflexivity).
      destruct (dict_get (py "meta") dv) as [meta|] eqn:Hmeta.
      * destruct meta as [| | | | | |dm];
          try (intros _; exists d, (JDict dv); split; [reflexivity|];
               split; [exact Hv|]; split; [exact Htv|]; right;
               eexists dv, _; split; [reflexivity|]; split; [exact Hmeta|];
               reflexivity).
        destruct (dict_get (py "isOwned") dm);
          destruct (dict_get (py "itemId") d); try discriminate;
          destruct (dict_get (py "name") d); try discriminate;
          destruct (dict_get (py "type") d); try discriminate;
          destruct (dict_get (py "tags") d); discriminate.
      * simpl.
        destruct (dict_get (py "itemId") d); try discriminate;
          destruct (dict_get (py "name") d); try discriminate;
          destruct (dict_get (py "type") d); try discriminate;
          destruct (dict_get (py "tags") d); discriminate.
    + destruct (dict_get (py "itemId") d); try discriminate;
        destruct (dict_get (py "name") d); try discriminate;
        destruct (dict_get (py "type") d); try discriminate;
        destruct (dict_get (py "tags") d); discriminate.
  - destruct (dict_get (py "itemId") d); try discriminate;
      destruct (dict_get (py "name") d); try discriminate;
      destruct (dict_get (py "type") d); try discriminate;
      destruct (dict_get (py "tags") d); discriminate.
Qed.

Lemma at_key_error (key : string) (v : json) (e : pyerr) :
  at_key key v = Fails e -> e <> AttributeError.
Proof.
  destruct v; simpl; try (intros H; injection H as <-; discriminate).
  destruct (dict_get (py key) d); [discriminate|].
  intros H; injection H as <-; discriminate.
Qed.

Lemma first_of_error (v : json) (e : pyerr) :
  first_of v = Fails e -> e <> AttributeError.
Proof.
  destruct v as [| | | |[|c s]|[|x l]|d]; simpl; try discriminate;
    intros H; injection H as <-; discriminate.
Qed.

(** The path to the nodes fails with one of the exceptions that are caught. *)
Lemma nodes_of_error (result : json) (e : pyerr) :
  nodes_of result = Fails e -> e <> AttributeError.
Proof.
  unfold nodes_of.
  destruct (first_of result) as [r0|e0] eqn:H0; simpl;
    [|intros H; injection H as <-; exact (first_of_error _ H0)].
  destruct (at_key "data" r0) as [r1|e1] eqn:H1; simpl;
    [|intros H; injection H as <-; exact (at_key_error _ _ H1)].
  destruct (at_key "game" r1) as [r2|e2] eqn:H2; simpl;
    [|intros H; injection H as <-; exact (at_key_error _ _ H2)].
  destruct (at_key "marketableItems" r2) as [r3|e3] eqn:H3; simpl;
    [|intros H; injection H as <-; exact (at_key_error _ _ H3)].
  apply at_key_error.
Qed.

(** X16.  [search_item] raises in two cases only: the response is a number
    other than zero or [true], of which [len] cannot be taken; or, after
    nodes that are read, comes a node whose item has a truthy [viewer] that
    is not a dictionary, or a [viewer] whose [meta] is not one. *)
Theorem search_item_raises_only_for (result : json) (e : exn) :
  search_item_result result = Raise e ->
  e = Exception /\
  ((truthy result = true /\ py_len result = Fails TypeError) \/
   exists nodes good bad rest item_data viewer,
     nodes_of result = Done nodes /\
     iterate nodes = Done (good ++ bad :: rest) /\
     Forall (fun node => exists item, parse_node node = Done item) good /\
     at_key "item" bad = Done (JDict item_data) /\
     dict_get (py "viewer") item_data = Some viewer /\
     truthy viewer = true /\
     (is_dict viewer = false \/
      exists v meta, viewer = JDict v /\ dict_get (py "meta") v = Some meta /\
                     is_dict meta = false)).
Proof.
  unfold search_item_result.
  destruct (truthy result) eqn:Ht; simpl; [|discriminate].
  destruct (py_len result) as [n|e'] eqn:Hlen.
  - destruct (n =? 0); [discriminate|].
    destruct (nodes_of result) as [nodes|e'] eqn:Hnodes; simpl;
      [|pose proof (nodes_of_error _ Hnodes); destruct e'; congruence].
    destruct (iterate nodes) as [l|e'] eqn:Hit; simpl;
      [|destruct nodes; simpl in Hit; try discriminate Hit;
        injection Hit as <-; discriminate].
    destruct (parse_nodes l []) as [its|e'] eqn:Hp; [discriminate|].
    destruct e'; try discriminate. intros H. injection H as <-.
    split; [reflexivity|]. right.
    destruct (parse_nodes_failed _ _ Hp) as [good [bad [rest [-> [Hg Hb]]]]].
    destruct (parse_node_attribute_error _ Hb)
      as [item_data [viewer [H1 [H2 [H3 H4]]]]].
    exists nodes, good, bad, rest, item_data, viewer. auto 10.
  - intros H. injection H as <-. split; [reflexivity|]. left.
    split; [reflexivity|]. destruct result; simpl in Hlen; congruence.
Qed.

(** A page of two nodes, the first one owned. *)
Lemma search_item_entries_follow_the_nodes_witness :
  let nodes := [node_of "BLACK ICE" (Some (owned_viewer true));
                node_of "LONE WOLF" None] in
  let items :=
    [{| Found.id := JStr (py "id"); Found.name := JStr (py "BLACK ICE");
        Found.type := JStr (py "WeaponSkin"); Found.tags := JList [];
        Found.is_owned := JBool true |};
     {| Found.id := JStr (py "id"); Found.name := JStr (py "LONE WOLF");
        Found.type := JStr (py "WeaponSkin"); Found.tags := JList [];
        Found.is_owned := JBool false |}] in
  exists nodes',
    nodes_of (response_of nodes) = Done (JList nodes') /\
    Forall2 (fun node item => parse_node node = Done item) nodes' items.
Proof.
  intros nodes items.
  apply (@search_item_entries_follow_the_nodes (response_of nodes) items).
  - reflexivity.
  - discriminate.
Defined.

(** The second node has no name: the first entry is dropped with it. *)
Lemma search_item_drops_the_page_on_a_bad_node_witness :
  let good := [node_of "BLACK ICE" (Some (owned_viewer true))] in
  let bad := JDict [(py "item", JDict [(py "itemId", JStr (py "id"))])] in
  search_item_result (response_of (good ++ bad :: [node_of "LONE WOLF" None]))
  = Ok [].
Proof.
  intros good bad.
  apply (@search_item_drops_the_page_on_a_bad_node
           (response_of (good ++ bad :: [node_of "LONE WOLF" None]))
           good bad [node_of "LONE WOLF" None] KeyError).
  - reflexivity.
  - constructor; [eexists; reflexivity | constructor].
  - reflexivity.
Defined.

Lemma ownership_comes_from_viewer_meta_witness :
  exists item_data,
    at_key "item" (node_of "BLACK ICE" (Some (owned_viewer true)))
      = Done (JDict item_data) /\
    dict_get (py "name") item_data = Some (JStr (py "BLACK ICE")) /\
    (truthy (JBool true) = true ->
     exists viewer meta,
       dict_get (py "viewer") item_data = Some (JDict viewer) /\
       dict_get (py "meta") viewer = Some (JDict meta) /\
       dict_get (py "isOwned") meta = Some (JBool true)).
Proof.
  apply (@ownership_comes_from_viewer_meta
           (node_of "BLACK ICE" (Some (owned_viewer true)))
           {| Found.id := JStr (py "id"); Found.name := JStr (py "BLACK ICE");
              Found.type := JStr (py "WeaponSkin"); Found.tags := JList [];
              Found.is_owned := JBool true |}).
  reflexivity.
Defined.

(** A node whose [meta] is [null]. *)
Lemma search_item_raises_only_for_witness :
  let result :=
    response_of [node_of "BLACK ICE" (Some (JDict [(py "meta", JNull)]))] in
  Exception = Exception /\
  ((truthy result = true /\ py_len result = Fails TypeError) \/
   exists nodes good bad rest item_data viewer,
     nodes_of result = Done nodes /\
     iterate nodes = Done (good ++ bad :: rest) /\
     Forall (fun node => exists item, parse_node node = Done item) good /\
     at_key "item" bad = Done (JDict item_data) /\
     dict_get (py "viewer") item_data = Some viewer /\
     truthy viewer = true /\
     (is_dict viewer = false \/
      exists v meta, viewer = JDict v /\ dict_get (py "meta") v = Some meta /\
                     is_dict meta = false)).
Proof.
  intros result.
  apply (@search_item_raises_only_for result Exception).
  reflexivity.
Defined.

(* ================================================================= *)
(** ** The scraper *)

Lemma find_header_value (keywords : dict str) (t c : str) :
  find_header keywords t = Some c -> In c (values keywords).
Proof.
  induction keywords as [|[k v] rest IH]; simpl; [discriminate|].
  destruct (contains k t && contains (py "(") t && contains (py ")") t).
  - intros H. injection H as <-. left. reflexivity.
  - intros H. right. apply IH. exact H.
Qed.

Lemma categories_nonempty (c : str) : In c categories -> c <> [].
Proof.
  unfold categories. simpl.
  intros H; repeat (destruct H as [<-|H]; [discriminate|]); destruct H.
Qed.

Lemma categories_NoDup : NoDup categories.
Proof. apply distinct_NoDup. reflexivity. Qed.

Lemma find_header_category (t c : str) :
  find_header category_keywords t = Some c -> In c categories.
Proof. intros H. exact (find_header_value _ _ H). Qed.

Lemma In_dict_get {V} (k : str) (v : V) (d : dict V) :
  NoDup (keys d) -> In (k, v) d -> dict_get k d = Some v.
Proof.
  induction d as [|[k' v'] d IH]; simpl; [intros _ []|].
  intros Hnd. inversion Hnd as [|? ? Hk Hnd']; subst.
  intros [H | H].
  - injection H as -> ->. rewrite str_eqb_refl. reflexivity.
  - destruct (str_eqb k' k) eqn:Hk'.
    + apply str_eqb_eq in Hk'. subst k'. exfalso. apply Hk.
      apply (in_map fst) in H. exact H.
    + apply IH; assumption.
Qed.

Lemma dict_get_In_pair {V} (k : str) (v : V) (d : dict V) :
  dict_get k d = Some v -> In (k, v) d.
Proof.
  induction d as [|[k' v'] d IH]; simpl; [discriminate|].
  destruct (str_eqb k' k) eqn:Hk.
  - intros H. injection H as <-. apply str_eqb_eq in Hk. subst. left. reflexivity.
  - intros H. right. apply IH. exact H.
Qed.

Lemma dict_get_present {V} (k : str) (d : dict V) :
  In k (keys d) -> exists v, dict_get k d = Some v.
Proof.
  intros Hin. destruct (dict_get k d) as [v|] eqn:Hg; [eauto|].
  exfalso. induction d as [|[k' v'] d IH]; simpl in *; [destruct Hin|].
  destruct (str_eqb k' k) eqn:E; [discriminate|].
  destruct Hin as [->|Hin]; [rewrite str_eqb_refl in E; discriminate|].
  exact (IH Hin Hg).
Qed.

(** Appending a new name keeps the lists free of repetitions. *)
Lemma dict_append_NoDup (c x : str) (d d' : dict (list str)) (l : list str) :
  Forall (@NoDup str) (values d) ->
  dict_get c d = Some l -> ~ In x l ->
  dict_append c x d = Some d' ->
  Forall (@NoDup str) (values d').
Proof.
  revert d'. induction d as [|[k l0] d IH]; intros d'; simpl; [discriminate|].
  intros Hall. inversion Hall as [|? ? Hl0 Hrest]; subst.
  destruct (str_eqb k c).
  - intros Hg Hx Ha. injection Hg as ->. injection Ha as <-. simpl.
    constructor; [|exact Hrest].
    apply NoDup_app; [exact Hl0 | constructor; [intros [] | constructor] |].
    intros y Hy [<-|[]]. contradiction.
  - intros Hg Hx. destruct (dict_append c x d) as [d0|]; simpl; [|discriminate].
    intros Ha. injection Ha as <-. simpl. constructor; [exact Hl0|].
    apply (IH d0); auto.
Qed.

Section ScraperFacts.
Context {U : UnicodeData}.

(** The loop over [a ++ b] is the loop over [b] from where the loop over
    [a] ended. *)
Lemma scrape_loop_app (a b : list Tag.t) :
  forall cur d,
    scrape_loop (a ++ b) cur d =
      match scrape_loop a cur d with
      | Some (cur', d') => scrape_loop b cur' d'
      | None => None
      end.
Proof.
  induction a as [|el a IH]; intros cur d; [reflexivity|].
  simpl app. cbn [scrape_loop].
  destruct (match find_header category_keywords (upper (Tag.text el)) with
            | Some category => Some category
            | None => cur
            end) as [[|ch ct]|]; try apply IH.
  destruct (str_eqb (Tag.name el) (py "span") && mem (py "name") (Tag.classes el));
    [|apply IH].
  destruct (Tag.text el) as [|x xs]; [apply IH|].
  destruct (dict_get (ch :: ct) d) as [l|]; [|reflexivity].
  destruct (mem (x :: xs) l); [apply IH|].
  destruct (dict_append (ch :: ct) (x :: xs) d); [apply IH | reflexivity].
Qed.

(** What the loop keeps and what it adds. *)
Lemma scrape_loop_inv (els : list Tag.t) :
  forall cur d,
    keys d = categories ->
    (forall c, cur = Some c -> In c categories) ->
    Forall (@NoDup str) (values d) ->
    exists cur' d',
      scrape_loop els cur d = Some (cur', d') /\
      keys d' = categories /\
      (forall c, cur' = Some c -> In c categories) /\
      Forall (@NoDup str) (values d') /\
      (forall c l x, dict_get c d = Some l -> In x l ->
                     exists l', dict_get c d' = Some l' /\ In x l') /\
      (forall c l' x, dict_get c d' = Some l' -> In x l' ->
         (exists l, dict_get c d = Some l /\ In x l) \/
         (x <> [] /\ exists el, In el els /\ Tag.text el = x /\ is_item el)).
Proof.
  induction els as [|el els IH]; intros cur d Hk Hcur Hnd.
  - exists cur, d. split; [reflexivity|]. split; [exact Hk|]. split; [exact Hcur|].
    split; [exact Hnd|]. split; [eauto | eauto].
  - cbn [scrape_loop].
    set (cur1 := match find_header category_keywords (upper (Tag.text el)) with
                 | Some category => Some category
                 | None => cur
                 end).
    assert (Hcur1 : forall c, cur1 = Some c -> In c categories).
    { unfold cur1. intros c.
      destruct (find_header category_keywords (upper (Tag.text el))) eqn:Hf.
      - intros H. injection H as <-. exact (find_header_category _ Hf).
      - apply Hcur. }
    assert (Hskip : exists cur' d',
      scrape_loop els cur1 d = Some (cur', d') /\
      keys d' = categories /\
      (forall c, cur' = Some c -> In c categories) /\
      Forall (@NoDup str) (values d') /\
      (forall c l x, dict_get c d = Some l -> In x l ->
                     exists l', dict_get c d' = Some l' /\ In x l') /\
      (forall c l' x, dict_get c d' = Some l' -> In x l' ->
         (exists l, dict_get c d = Some l /\ In x l) \/
         (x <> [] /\ exists e, In e (el :: els) /\ Tag.text e = x /\ is_item e))).
    { destruct (IH cur1 d Hk Hcur1 Hnd) as [cur' [d' [H1 [H2 [H3 [H4 [H5 H6]]]]]]].
      exists cur', d'. repeat (split; [assumption|]).
      intros c l' x Hg Hx. destruct (H6 c l' x Hg Hx) as [H | [Hne [e [He H]]]];
        [left; exact H | right; split; [exact Hne|]; exists e; split; [right; exact He | exact H]]. }
    destruct cur1 as [[|ch ct]|] eqn:Hc1; try exact Hskip.
    destruct (str_eqb (Tag.name el) (py "span") && mem (py "name") (Tag.classes el)) eqn:Hitem;
      [|exact Hskip].
    destruct (Tag.text el) as [|x xs] eqn:Htext; [exact Hskip|].
    assert (Hin : In (ch :: ct) (keys d)) by (rewrite Hk; apply Hcur1; reflexivity).
    destruct (@dict_get_present _ (ch :: ct) d Hin) as [l Hget]. rewrite Hget.
    destruct (mem (x :: xs) l) eqn:Hmem; [exact Hskip|].
    destruct (@dict_append_present (ch :: ct) (x :: xs) d Hin) as [d1 [Happ [Hk1 _]]].
    rewrite Happ.
    assert (Hnotin : ~ In (x :: xs) l).
    { intros H. apply mem_In in H. congruence. }
    destruct (IH (Some (ch :: ct)) d1) as [cur' [d' [H1 [H2 [H3 [H4 [H5 H6]]]]]]].
    { rewrite Hk1. exact Hk. }
    { exact Hcur1. }
    { eapply dict_append_NoDup; eassumption. }
    apply andb_true_iff in Hitem. destruct Hitem as [Hspan Hclass].
    apply str_eqb_eq in Hspan. apply mem_In in Hclass.
    exists cur', d'. repeat (split; [assumption|]). split.
    + intros c l0 y Hg Hy.
      destruct (str_eqb c (ch :: ct)) eqn:Hc.
      * apply str_eqb_eq in Hc. subst c. rewrite Hget in Hg. injection Hg as <-.
        apply (H5 (ch :: ct) (l ++ [x :: xs]) y).
        -- exact (@dict_append_get _ _ _ _ _ Happ Hget).
        -- apply in_or_app. left. exact Hy.
      * apply str_eqb_neq in Hc. apply (H5 c l0 y); [|exact Hy].
        rewrite (@dict_append_get_other _ _ _ _ _ Hc Happ). exact Hg.
    + intros c l' y Hg Hy.
      destruct (H6 c l' y Hg Hy) as [[l0 [Hg0 Hy0]] | [Hne [e [He H]]]];
        [|right; split; [exact Hne|]; exists e; split; [right; exact He | exact H]].
      destruct (str_eqb c (ch :: ct)) eqn:Hc.
      * apply str_eqb_eq in Hc. subst c.
        rewrite (@dict_append_get _ _ _ _ _ Happ Hget) in Hg0. injection Hg0 as <-.
        apply in_app_or in Hy0. destruct Hy0 as [Hy0 | [<- | []]].
        -- left. exists l. auto.
        -- right. split; [discriminate|]. exists el.
           split; [left; reflexivity|]. split; [exact Htext|]. split; assumption.
      * apply str_eqb_neq in Hc.
        rewrite (@dict_append_get_other _ _ _ _ _ Hc Happ) in Hg0.
        left. exists l0. auto.
Qed.

End ScraperFacts.

Section ScraperTheorems.
Context {U : UnicodeData}.

(** One element, read while the category in force after its header test
    is [c]. *)
Lemma scrape_loop_step (el : Tag.t) (cur : option str) (d : dict (list str)) (c : str) :
  keys d = categories -> In c categories ->
  match find_header category_keywords (upper (Tag.text el)) with
  | Some category => Some category
  | None => cur
  end = Some c ->
  exists d1,
    (forall rest, scrape_loop (el :: rest) cur d = scrape_loop rest (Some c) d1) /\
    keys d1 = categories /\
    (forall k l x, dict_get k d = Some l -> In x l ->
                   exists l', dict_get k d1 = Some l' /\ In x l') /\
    (is_item el -> Tag.text el <> [] ->
     exists l, dict_get c d1 = Some l /\ In (Tag.text el) l).
Proof.
  intros Hk Hc Heff.
  destruct c as [|ch ct]; [exfalso; exact (categories_nonempty Hc eq_refl)|].
  assert (Hin : In (ch :: ct) (keys d)) by (rewrite Hk; exact Hc).
  destruct (@dict_get_present _ (ch :: ct) d Hin) as [l Hget].
  destruct (str_eqb (Tag.name el) (py "span") && mem (py "name") (Tag.classes el)) eqn:Hitem.
  - destruct (Tag.text el) as [|x xs] eqn:Htext.
    + exists d. split; [|split; [exact Hk|split; [eauto|]]].
      * intros rest. cbn [scrape_loop]. rewrite Htext, Heff, Hitem. reflexivity.
      * intros _ H. contradiction H. reflexivity.
    + destruct (mem (x :: xs) l) eqn:Hmem.
      * exists d. split; [|split; [exact Hk|split; [eauto|]]].
        -- intros rest. cbn [scrape_loop]. rewrite Htext, Heff, Hitem, Hget, Hmem.
           reflexivity.
        -- intros _ _. exists l. split; [exact Hget|]. apply mem_In. exact Hmem.
      * destruct (@dict_append_present (ch :: ct) (x :: xs) d Hin) as [d1 [Happ [Hk1 _]]].
        exists d1. split; [|split; [rewrite Hk1; exact Hk|split]].
        -- intros rest. cbn [scrape_loop]. rewrite Htext, Heff, Hitem, Hget, Hmem, Happ.
           reflexivity.
        -- intros k l0 y Hg Hy.
           destruct (str_eqb k (ch :: ct)) eqn:Hkc.
           ++ apply str_eqb_eq in Hkc. subst k. rewrite Hget in Hg. injection Hg as <-.
              exists (l ++ [x :: xs]). split.
              ** exact (@dict_append_get _ _ _ _ _ Happ Hget).
              ** apply in_or_app. left. exact Hy.
           ++ apply str_eqb_neq in Hkc. exists l0. split; [|exact Hy].
              rewrite (@dict_append_get_other _ _ _ _ _ Hkc Happ). exact Hg.
        -- intros _ _. exists (l ++ [x :: xs]). split.
           ++ exact (@dict_append_get _ _ _ _ _ Happ Hget).
           ++ apply in_or_app. right. left. reflexivity.
  - exists d. split; [|split; [exact Hk|split; [eauto|]]].
    + intros rest. cbn [scrape_loop]. rewrite Heff, Hitem. reflexivity.
    + intros [Hname Hclass] _. exfalso.
      rewrite Hname, str_eqb_refl in Hitem. simpl in Hitem.
      apply mem_In in Hclass. congruence.
Qed.

(** The loop never fails on a catalog with the nine keys, and it takes
    nothing out of it. *)
Lemma scrape_loop_runs (els : list Tag.t) :
  forall cur d,
    keys d = categories ->
    (forall c, cur = Some c -> In c categories) ->
    exists cur' d',
      scrape_loop els cur d = Some (cur', d') /\
      keys d' = categories /\
      (forall k l x, dict_get k d = Some l -> In x l ->
                     exists l', dict_get k d' = Some l' /\ In x l').
Proof.
  induction els as [|el els IH]; intros cur d Hk Hcur.
  - exists cur, d. split; [reflexivity|]. split; [exact Hk | eauto].
  - destruct (match find_header category_keywords (upper (Tag.text el)) with
              | Some category => Some category
              | None => cur
              end) as [c|] eqn:Heff.
    + assert (Hc : In c categories).
      { destruct (find_header category_keywords (upper (Tag.text el))) as [k|] eqn:Hf.
        - injection Heff as <-. exact (find_header_category _ Hf).
        - exact (Hcur c Heff). }
      destruct (@scrape_loop_step el cur d c Hk Hc Heff) as [d1 [Hrun [Hk1 [Hmono _]]]].
      destruct (IH (Some c) d1 Hk1) as [cur' [d' [Hloop [Hk' Hmono']]]].
      { intros c' E. injection E as <-. exact Hc. }
      exists cur', d'. split; [rewrite Hrun; exact Hloop|]. split; [exact Hk'|].
      intros k l x Hg Hx. destruct (Hmono k l x Hg Hx) as [l' [Hg' Hx']].
      exact (Hmono' k l' x Hg' Hx').
    + destruct (IH None d Hk) as [cur' [d' [Hloop [Hk' Hmono']]]]; [discriminate|].
      exists cur', d'. split; [|split; [exact Hk' | exact Hmono']].
      cbn [scrape_loop]. rewrite Heff. exact Hloop.
Qed.

(** A stretch of the page in which no header of another category shows:
    the category stays, and every item name of the stretch is filed
    under it. *)
Lemma scrape_loop_stretch (c : str) (mid : list Tag.t) :
  In c categories ->
  (forall e k, In e mid ->
     find_header category_keywords (upper (Tag.text e)) = Some k -> k = c) ->
  forall d, keys d = categories ->
  exists d1,
    (forall rest, scrape_loop (mid ++ rest) (Some c) d = scrape_loop rest (Some c) d1) /\
    keys d1 = categories /\
    (forall k l x, dict_get k d = Some l -> In x l ->
                   exists l', dict_get k d1 = Some l' /\ In x l') /\
    (forall it, In it mid -> is_item it -> Tag.text it <> [] ->
       exists l, dict_get c d1 = Some l /\ In (Tag.text it) l).
Proof.
  intros Hc. induction mid as [|el mid IH]; intros Hmid d Hk.
  - exists d. split; [reflexivity|]. split; [exact Hk|]. split; [eauto|].
    intros it [].
  - assert (Heff : match find_header category_keywords (upper (Tag.text el)) with
                   | Some category => Some category
                   | None => Some c
                   end = Some c).
    { destruct (find_header category_keywords (upper (Tag.text el))) as [k|] eqn:Hf;
        [|reflexivity].
      f_equal. apply (Hmid el k); [left; reflexivity | exact Hf]. }
    destruct (@scrape_loop_step el (Some c) d c Hk Hc Heff) as [d1 [Hrun [Hk1 [Hmono Hfile]]]].
    destruct (IH (fun e k He => Hmid e k (or_intror He)) d1 Hk1)
      as [d2 [Hrun2 [Hk2 [Hmono2 Hfile2]]]].
    exists d2. split; [|split; [exact Hk2|split]].
    + intros rest. simpl app. rewrite Hrun. apply Hrun2.
    + intros k l x Hg Hx. destruct (Hmono k l x Hg Hx) as [l' [Hg' Hx']].
      exact (Hmono2 k l' x Hg' Hx').
    + intros it [<-|Hit] Hitem Htext.
      * destruct (Hfile Hitem Htext) as [l [Hg Hx]]. exact (Hmono2 _ _ _ Hg Hx).
      * exact (Hfile2 it Hit Hitem Htext).
Qed.

(** X17. Whatever the page, the scraper returns a catalog with the nine
    categories as its keys, in the order of the literal, and no name twice
    under one category: the lookups [items_by_category[current_category]]
    never raise. *)
Theorem scraped_catalog_shape (all_elements : list Tag.t) :
  exists items_by_category,
    scrape_celebration_pack (Ok all_elements) = Ok items_by_category /\
    keys items_by_category = categories /\
    distinct (keys items_by_category) = true /\
    Forall (@NoDup str) (values items_by_category).
Proof.
  destruct (@scrape_loop_inv U all_elements None empty_catalog)
    as [cur' [d' [Hrun [Hk [_ [Hnd _]]]]]].
  - reflexivity.
  - discriminate.
  - unfold empty_catalog, values. rewrite map_map. simpl.
    repeat constructor.
  - exists d'. unfold scrape_celebration_pack. rewrite Hrun.
    split; [reflexivity|]. split; [exact Hk|]. split; [rewrite Hk; reflexivity | exact Hnd].
Qed.

(** X18. Every name of a scraped catalog is the text, not empty, of a
    [span] element of class [name] of the page, and it is filed under one
    of the nine categories. *)
Theorem scraped_names_come_from_item_elements
  (all_elements : list Tag.t) (items_by_category : dict (list str))
  (category item_name : str) (items : list str) :
  scrape_celebration_pack (Ok all_elements) = Ok items_by_category ->
  dict_get category items_by_category = Some items ->
  In item_name items ->
  In category categories /\ item_name <> [] /\
  exists element, In element all_elements /\ Tag.text element = item_name /\
                  is_item element.
Proof.
  intros Hrun Hget Hin.
  destruct (@scrape_loop_inv U all_elements None empty_catalog)
    as [cur' [d' [Hloop [Hk [_ [_ [_ Hfrom]]]]]]].
  - reflexivity.
  - discriminate.
  - unfold empty_catalog, values. rewrite map_map. simpl. repeat constructor.
  - unfold scrape_celebration_pack in Hrun. rewrite Hloop in Hrun.
    injection Hrun as <-. split.
    + rewrite <- Hk. exact (dict_get_In _ _ Hget).
    + destruct (Hfrom category items item_name Hget Hin) as [[l [Hg Hx]] | H].
      * exfalso. apply dict_get_In_pair in Hg. unfold empty_catalog in Hg.
        apply in_map_iff in Hg. destruct Hg as [k [E _]]. injection E as _ <-.
        destruct Hx.
      * exact H.
Qed.

(** X19. An item name is filed under the category of the last header
    before it: when an element of the page is a header of [category], and
    no header of another category shows between it and an item element
    with a name, the name is in the list of [category], whatever comes
    before the header and after the item.  The header element itself
    counts when it is an item element. *)
Theorem items_are_filed_under_the_last_header
  (before : list Tag.t) (header : Tag.t) (between after : list Tag.t)
  (category : str) (item : Tag.t) (items_by_category : dict (list str)) :
  find_header category_keywords (upper (Tag.text header)) = Some category ->
  (forall element other, In element between ->
     find_header category_keywords (upper (Tag.text element)) = Some other ->
     other = category) ->
  In item (header :: between) -> is_item item -> Tag.text item <> [] ->
  scrape_celebration_pack (Ok (before ++ header :: between ++ after)) =
    Ok items_by_category ->
  exists items, dict_get category items_by_category = Some items /\
                In (Tag.text item) items.
Proof.
  intros Hhead Hbetween Hitem Hspan Htext Hrun.
  assert (Hc : In category categories) by exact (find_header_category _ Hhead).
  unfold scrape_celebration_pack in Hrun. rewrite scrape_loop_app in Hrun.
  destruct (@scrape_loop_runs before None empty_catalog)
    as [cur0 [d0 [Hloop0 [Hk0 _]]]].
  { reflexivity. }
  { discriminate. }
  rewrite Hloop0 in Hrun.
  assert (Heff : match find_header category_keywords (upper (Tag.text header)) with
                 | Some k => Some k
                 | None => cur0
                 end = Some category) by (rewrite Hhead; reflexivity).
  destruct (@scrape_loop_step header cur0 d0 category Hk0 Hc Heff) as [d1 [Hrun1 [Hk1 [_ Hfile1]]]].
  rewrite Hrun1 in Hrun.
  destruct (@scrape_loop_stretch category between Hc Hbetween d1 Hk1)
    as [d2 [Hrun2 [Hk2 [Hmono2 Hfile2]]]].
  rewrite Hrun2 in Hrun.
  destruct (@scrape_loop_runs after (Some category) d2 Hk2)
    as [cur3 [d3 [Hloop3 [_ Hmono3]]]].
  { intros c E. injection E as <-. exact Hc. }
  rewrite Hloop3 in Hrun. injection Hrun as <-.
  assert (Hd2 : exists l, dict_get category d2 = Some l /\ In (Tag.text item) l).
  { destruct Hitem as [<-|Hitem].
    - destruct (Hfile1 Hspan Htext) as [l [Hg Hx]]. exact (Hmono2 _ _ _ Hg Hx).
    - exact (Hfile2 item Hitem Hspan Htext). }
  destruct Hd2 as [l [Hg Hx]]. exact (Hmono3 _ _ _ Hg Hx).
Qed.
End ScraperTheorems.


(** The page of the example gives two categories with one name each. *)
Example scraped_sample_page :
  @scraped ascii_data sample_page =
    [ (py "HEADGEAR", []); (py "UNIFORMS", []);
      (py "UNIVERSAL WEAPON SKINS", [py "Black Ice"]);
      (py "SEASONAL WEAPON SKINS", []); (py "WEAPON SKINS", []);
      (py "ATTACHMENT SKINS", []); (py "UNIQUE ABILITY SKINS", []);
      (py "DRONE SKINS", [py "Tiny Wheels"]); (py "OPERATOR PORTRAITS", []) ].
Proof. vm_compute. reflexivity. Qed.

Lemma scraped_names_come_from_item_elements_witness :
  In (py "DRONE SKINS") categories /\ py "Tiny Wheels" <> [] /\
  exists element, In element sample_page /\ Tag.text element = py "Tiny Wheels" /\
                  is_item element.
Proof.
  apply (@scraped_names_come_from_item_elements ascii_data sample_page
           (@scraped ascii_data sample_page) (py "DRONE SKINS") (py "Tiny Wheels")
           [py "Tiny Wheels"]).
  - vm_compute. reflexivity.
  - vm_compute. reflexivity.
  - left. reflexivity.
Defined.

Lemma items_are_filed_under_the_last_header_witness :
  exists items,
    dict_get (py "UNIVERSAL WEAPON SKINS") (@scraped ascii_data sample_page) = Some items /\
    In (py "Black Ice") items.
Proof.
  apply (@items_are_filed_under_the_last_header ascii_data
           sample_intro sample_header sample_section sample_rest
           (py "UNIVERSAL WEAPON SKINS") sample_item (@scraped ascii_data sample_page)).
  - vm_compute. reflexivity.
  - intros element other [<-|[<-|[<-|[]]]]; vm_compute; intros H; discriminate H.
  - right. left. reflexivity.
  - split; [reflexivity | left; reflexivity].
  - discriminate.
  - vm_compute. reflexivity.
Defined.

(* ----------------------------------------------------------------- *)
(** *** Headers *)

(** The header test picks the first keyword, in the order of the literal,
    that is in the text. *)
Lemma find_header_first (ks : list str) (t c : str) :
  find_header (map (fun k => (k, k)) ks) t = Some c <->
  contains (py "(") t = true /\ contains (py ")") t = true /\
  contains c t = true /\
  exists before after,
    ks = before ++ c :: after /\
    forall k, In k before -> contains k t = false.
Proof.
  induction ks as [|k ks IH]; simpl.
  - split; [discriminate|].
    intros [_ [_ [_ [before [after [E _]]]]]]. destruct before; discriminate E.
  - destruct (contains k t) eqn:Hk; simpl.
    + destruct (contains (py "(") t) eqn:Hl; simpl.
      * destruct (contains (py ")") t) eqn:Hr; simpl.
        -- split.
           ++ intros H. injection H as <-. repeat (split; [assumption || reflexivity|]).
              exists [], ks. split; [reflexivity | intros k0 []].
           ++ intros [_ [_ [Hc [before [after [E Hnone]]]]]].
              destruct before as [|b before].
              ** injection E as ->. reflexivity.
              ** injection E as <- _. rewrite (Hnone k (or_introl eq_refl)) in Hk.
                 discriminate Hk.
        -- rewrite IH. split.
           ++ intros [_ [H _]]. discriminate H.
           ++ intros [_ [H _]]. discriminate H.
      * rewrite IH. split.
        -- intros [H _]. discriminate H.
        -- intros [H _]. discriminate H.
    + rewrite IH. split.
      * intros [Hl [Hr [Hc [before [after [E Hnone]]]]]].
        repeat (split; [assumption|]).
        exists (k :: before), after. split; [rewrite E; reflexivity|].
        intros k0 [<-|H]; [exact Hk | exact (Hnone k0 H)].
      * intros [Hl [Hr [Hc [before [after [E Hnone]]]]]].
        repeat (split; [assumption|]).
        destruct before as [|b before].
        -- injection E as -> _. congruence.
        -- injection E as _ E. exists before, after. split; [exact E|].
           intros k0 H. apply Hnone. right. exact H.
Qed.

(** X20. A text is a header of [category] exactly when it has both
    brackets and [category] is the first of the nine names, in the order of
    the literal, that is in it: where [UNIVERSAL WEAPON SKINS] is in the
    text the header is never one of [WEAPON SKINS], which comes later. *)
Theorem header_is_the_first_category_in_the_text (element_text category : str) :
  find_header category_keywords element_text = Some category <->
  contains (py "(") element_text = true /\ contains (py ")") element_text = true /\
  contains category element_text = true /\
  exists before after,
    categories = before ++ category :: after /\
    forall keyword, In keyword before -> contains keyword element_text = false.
Proof. apply find_header_first. Qed.

Lemma header_is_the_first_category_in_the_text_witness :
  find_header category_keywords (py "UNIVERSAL WEAPON SKINS (2)") =
    Some (py "UNIVERSAL WEAPON SKINS") /\
  find_header category_keywords (py "UNIVERSAL WEAPON SKINS (2)") <>
    Some (py "WEAPON SKINS").
Proof.
  split.
  - apply (proj2 (header_is_the_first_category_in_the_text
                    (py "UNIVERSAL WEAPON SKINS (2)") (py "UNIVERSAL WEAPON SKINS"))).
    split; [vm_compute; reflexivity|]. split; [vm_compute; reflexivity|].
    split; [vm_compute; reflexivity|].
    exists [py "HEADGEAR"; py "UNIFORMS"],
           [py "SEASONAL WEAPON SKINS"; py "WEAPON SKINS"; py "ATTACHMENT SKINS";
            py "UNIQUE ABILITY SKINS"; py "DRONE SKINS"; py "OPERATOR PORTRAITS"].
    split; [reflexivity|].
    intros keyword [<-|[<-|[]]]; vm_compute; reflexivity.
  - intros H.
    apply (proj1 (header_is_the_first_category_in_the_text
                    (py "UNIVERSAL WEAPON SKINS (2)") (py "WEAPON SKINS"))) in H.
    destruct H as [_ [_ [_ [before [after [E Hnone]]]]]].
    assert (Hin : In (py "UNIVERSAL WEAPON SKINS") before).
    { unfold categories in E.
      do 4 (destruct before as [|? before]; [discriminate E | injection E as <- E]).
      right. right. left. reflexivity. }
    specialize (Hnone _ Hin). vm_compute in Hnone. discriminate Hnone.
Defined.

Section ScraperMore.
Context {U : UnicodeData}.

Lemma scrape_loop_no_header (pre els : list Tag.t) (d : dict (list str)) :
  (forall e, In e pre ->
     find_header category_keywords (upper (Tag.text e)) = None) ->
  scrape_loop (pre ++ els) None d = scrape_loop els None d.
Proof.
  induction pre as [|el pre IH]; intros Hpre; [reflexivity|].
  simpl app. cbn [scrape_loop]. rewrite (Hpre el (or_introl eq_refl)).
  apply IH. intros e He. apply Hpre. right. exact He.
Qed.

(** X21. What comes before the first header leaves no trace: a page gives
    the same catalog with and without the elements, item names among them,
    that precede its first header. *)
Theorem elements_before_the_first_header_are_dropped (before all_elements : list Tag.t) :
  (forall element, In element before ->
     find_header category_keywords (upper (Tag.text element)) = None) ->
  scrape_celebration_pack (Ok (before ++ all_elements)) =
  scrape_celebration_pack (Ok all_elements).
Proof.
  intros Hpre. unfold scrape_celebration_pack.
  rewrite (@scrape_loop_no_header before all_elements empty_catalog Hpre). reflexivity.
Qed.

(** X22. The scraper returns the empty dictionary exactly when fetching or
    parsing the page raised an [Exception]: a page that was fetched gives
    the nine keys, whatever is on it.  It raises only the
    [KeyboardInterrupt] of the fetch. *)
Theorem empty_catalog_means_a_failed_fetch (fetched : outcome (list Tag.t)) :
  (scrape_celebration_pack fetched = Ok [] <-> fetched = Raise Exception) /\
  (forall e, scrape_celebration_pack fetched = Raise e <->
             fetched = Raise KeyboardInterrupt /\ e = KeyboardInterrupt).
Proof.
  destruct fetched as [all_elements|[|]]; simpl.
  - destruct (@scrape_loop_runs U all_elements None empty_catalog)
      as [cur' [d' [Hrun [Hk _]]]]; [reflexivity | discriminate |].
    rewrite Hrun. split.
    + split; [|discriminate]. intros H. injection H as ->. discriminate Hk.
    + intros e. split; [discriminate | intros [H _]; discriminate H].
  - split; [split; reflexivity|].
    intros e. split; [discriminate | intros [H _]; discriminate H].
  - split; [split; discriminate|].
    intros e. split.
    + intros H. injection H as <-. split; reflexivity.
    + intros [_ ->]. reflexivity.
Qed.

End ScraperMore.

Lemma elements_before_the_first_header_are_dropped_witness :
  @scrape_celebration_pack ascii_data (Ok sample_page) =
  @scrape_celebration_pack ascii_data (Ok (sample_header :: sample_section ++ sample_rest)).
Proof.
  apply (@elements_before_the_first_header_are_dropped ascii_data sample_intro
           (sample_header :: sample_section ++ sample_rest)).
  intros element [<-|[<-|[]]]; vm_compute; reflexivity.
Defined.

Section Pipeline.
Context {U : UnicodeData} {W : Type} {E : Env W}.

(** X23. The scraper hands [find_missing_items] a catalog it can account
    for: whatever the page and the answers of the marketplace, the report
    of a fresh checker run on the scraped catalog counts every scraped name
    in its total, and as many owned and missing items as that unless the
    run was cancelled. *)
Theorem scraped_catalog_is_accounted_for (w : W) (all_elements : list Tag.t) :
  exists catalog,
    scrape_celebration_pack (Ok all_elements) = Ok catalog /\
    let m' := fst (find_missing_items catalog (init w)) in
    let s := report_summary (generate_report m') in
    total_celebration_items s = sum_len catalog /\
    total_owned s + total_missing s <= total_celebration_items s /\
    (stopped (stdout m') = false ->
     total_owned s + total_missing s = total_celebration_items s).
Proof.
  destruct (@scrape_loop_runs U all_elements None empty_catalog)
    as [cur' [catalog [Hrun [Hk _]]]]; [reflexivity | discriminate |].
  exists catalog. unfold scrape_celebration_pack. rewrite Hrun.
  split; [reflexivity|].
  assert (Hd : NoDup (keys catalog)) by (rewrite Hk; exact categories_NoDup).
  destruct (@find_missing_items_inv _ _ _ w catalog Hd) as
      [m1 [done [todo [-> [Hsplit [Hcel [Hperm [_ Hall]]]]]]]].
  simpl. rewrite Hcel, !sum_len_entries, <- length_app,
    (Permutation_length Hperm), Hsplit, length_app.
  split; [reflexivity|]. split; [lia|].
  intros Hs. rewrite (Hall Hs). simpl. lia.
Qed.

End Pipeline.

